(** * Reconciliation and incremental indexing engine

    A shallow embedding of the Drive-to-Pinecone synchronisation scripts
    ([scripts/initial-index.js], class [IntelligentSync]; its read-only twin
    [scripts/sync-dry-run-detailed.js], class [DetailedDryRun], whose loader,
    filter, duplicate resolver and classifier are the same functions; the
    catalog syncer [PineconeCatalogSyncer]; [indexer/chunker.js]) and the
    properties of the reconciliation engine checked against them.

    Conventions of the embedding.
    - JavaScript strings are [string]s whose characters are the code units
      U+0000..U+00FF; [toLowerCase], [trim] and the regular-expression classes
      are given on that range.
    - Instants ([new Date(...)], [Date.now()]) are milliseconds since the epoch
      in [Z]; a calendar date string ['YYYY-MM-DD'] is its day number, so that
      the string order used by the source on such dates is the order of [Z].
      A run happens at one instant [now].
    - A JavaScript [Map] is an association list in insertion order.
    - A thrown exception is the [Throw] case of [result].
    - The Drive listing ([scanGoogleDrive], [getDriveFiles]) is an input: the
      flat list of leaf items it returns.
    - The vector index is the list of its records; a query returns at most
      [topK] of the records that pass its filter, the first ones of the list.
    - [uuidv4()] is a generator that never returns a value twice: the state
      carries its position, and a generated vector id records the draw.
    - The text extractors, the embedding service and the failures of the
      index client are collaborators, given as functions. *)

From Stdlib Require Import ZArith List String Ascii Bool Arith Lia Permutation.
Import ListNotations.

Local Open Scope string_scope.
Local Open Scope list_scope.

(* ------------------------------------------------------------------ *)
(** ** JavaScript string primitives *)

Module Js.

Definition code (c : ascii) : nat := nat_of_ascii c.

Definition between (lo hi : nat) (c : ascii) : bool :=
  (lo <=? code c)%nat && (code c <=? hi)%nat.

(** [\s] and the characters removed by [trim]. *)
Definition isSpace (c : ascii) : bool :=
  between 9 13 c || (code c =? 32)%nat || (code c =? 160)%nat.

(** [\d] *)
Definition isDigit (c : ascii) : bool := between 48 57 c.

(** [\w] *)
Definition isWordChar (c : ascii) : bool :=
  isDigit c || between 65 90 c || between 97 122 c || (code c =? 95)%nat.

(** [[a-z]] under the [i] flag. *)
Definition isLetter (c : ascii) : bool := between 65 90 c || between 97 122 c.

Definition toLowerChar (c : ascii) : ascii :=
  if between 65 90 c || (between 192 222 c && negb (code c =? 215)%nat)
  then ascii_of_nat (code c + 32) else c.

(** Canonicalisation of a character for case-insensitive matching. *)
Definition canonicalize (c : ascii) : ascii :=
  if between 97 122 c || (between 224 254 c && negb (code c =? 247)%nat)
  then ascii_of_nat (code c - 32) else c.

Fixpoint toLowerCase (s : string) : string :=
  match s with
  | EmptyString => EmptyString
  | String c t => String (toLowerChar c) (toLowerCase t)
  end.

Fixpoint trimStart (s : string) : string :=
  match s with
  | EmptyString => EmptyString
  | String c t => if isSpace c then trimStart t else s
  end.

Fixpoint trimEnd (s : string) : string :=
  match s with
  | EmptyString => EmptyString
  | String c t =>
      match trimEnd t with
      | EmptyString => if isSpace c then EmptyString else String c EmptyString
      | t' => String c t'
      end
  end.

Definition trim (s : string) : string := trimEnd (trimStart s).

(** [s.includes(sub)] *)
Fixpoint includes (s sub : string) : bool :=
  prefix sub s ||
  match s with
  | EmptyString => false
  | String _ t => includes t sub
  end.

(** [s.split(sep)] for a one-character separator: never the empty array. *)
Fixpoint split (sep : ascii) (s : string) : list string :=
  match s with
  | EmptyString => [EmptyString]
  | String c t =>
      if Ascii.eqb c sep then EmptyString :: split sep t
      else match split sep t with
           | [] => [String c EmptyString]
           | l :: ls => String c l :: ls
           end
  end.

(** [arr.indexOf(x)] on an array of strings: [None] stands for -1. *)
Fixpoint indexOf (arr : list string) (x : string) : option nat :=
  match arr with
  | [] => None
  | y :: ys =>
      if String.eqb y x then Some 0%nat
      else match indexOf ys x with
           | Some i => Some (S i)
           | None => None
           end
  end.

(** Truthiness of a possibly missing string: [undefined], [null] and [''] are falsy. *)
Definition truthy (o : option string) : bool :=
  match o with
  | Some s => negb (String.eqb s EmptyString)
  | None => false
  end.

Definition nl : ascii := ascii_of_nat 10.

End Js.

(* ------------------------------------------------------------------ *)
(** ** Regular expressions: the fragment used by the scripts

    A backtracking matcher with the priorities of the ECMAScript semantics:
    alternatives are tried left to right, [*] is greedy and gives up an
    iteration that consumed nothing. *)

Module Regex.

Inductive regex : Type :=
| Eps                              (* the empty pattern *)
| Lit (c : ascii)                  (* one literal character *)
| Class (p : ascii -> bool)        (* a character class *)
| Cat (r1 r2 : regex)
| Or (r1 r2 : regex)
| Star (r : regex)
| Bol                              (* ^ *)
| Eol                              (* $ *)
| WordB.                           (* \b *)

Definition Plus (r : regex) : regex := Cat r (Star r).
Definition Opt (r : regex) : regex := Or r Eps.

(** The literal string [s] as a pattern. *)
Fixpoint Str (s : string) : regex :=
  match s with
  | EmptyString => Eps
  | String c EmptyString => Lit c
  | String c t => Cat (Lit c) (Str t)
  end.

Definition space : regex := Class Js.isSpace.
Definition digit : regex := Class Js.isDigit.

Definition litMatches (ci : bool) (p c : ascii) : bool :=
  if ci then Ascii.eqb (Js.canonicalize p) (Js.canonicalize c) else Ascii.eqb p c.

Definition isWordOpt (o : option ascii) : bool :=
  match o with Some c => Js.isWordChar c | None => false end.

Definition peek (s : string) : option ascii :=
  match s with EmptyString => None | String c _ => Some c end.

(** [rmatch ci r prev s k]: match [r] at the head of [s], where [prev] is the
    character just before ([None] at the start of the input), and hand the
    position reached to the continuation [k]. *)
Fixpoint rmatch {A : Type} (ci : bool) (r : regex) (prev : option ascii) (s : string)
    (k : option ascii -> string -> option A) {struct r} : option A :=
  match r with
  | Eps => k prev s
  | Lit p =>
      match s with
      | String c t => if litMatches ci p c then k (Some c) t else None
      | EmptyString => None
      end
  | Class p =>
      match s with
      | String c t => if p c then k (Some c) t else None
      | EmptyString => None
      end
  | Cat r1 r2 => rmatch ci r1 prev s (fun prev' s' => rmatch ci r2 prev' s' k)
  | Or r1 r2 =>
      match rmatch ci r1 prev s k with
      | Some x => Some x
      | None => rmatch ci r2 prev s k
      end
  | Star r' =>
      (fix loop (fuel : nat) (prev0 : option ascii) (s0 : string) {struct fuel} : option A :=
         match fuel with
         | O => k prev0 s0
         | S fuel' =>
             match rmatch ci r' prev0 s0
                     (fun prev' s' =>
                        if (String.length s' <? String.length s0)%nat
                        then loop fuel' prev' s' else None) with
             | Some x => Some x
             | None => k prev0 s0
             end
         end) (String.length s) prev s
  | Bol => match prev with None => k prev s | Some _ => None end
  | Eol => match s with EmptyString => k prev s | String _ _ => None end
  | WordB => if xorb (isWordOpt prev) (isWordOpt (peek s)) then k prev s else None
  end.

(** The match of [r] starting exactly here: the character before the end of
    the match and the unconsumed rest. *)
Definition matchHere (ci : bool) (r : regex) (prev : option ascii) (s : string)
  : option (option ascii * string) :=
  rmatch ci r prev s (fun p rest => Some (p, rest)).

(** [re.test(s)] *)
Fixpoint testFrom (ci : bool) (r : regex) (prev : option ascii) (s : string) : bool :=
  match matchHere ci r prev s with
  | Some _ => true
  | None =>
      match s with
      | EmptyString => false
      | String c t => testFrom ci r (Some c) t
      end
  end.

Definition test (ci : bool) (r : regex) (s : string) : bool := testFrom ci r None s.

(** [s.replace(re, repl)] without the [g] flag: the leftmost match only. *)
Fixpoint replaceFirstFrom (ci : bool) (r : regex) (repl : string)
    (prev : option ascii) (s : string) : string :=
  match matchHere ci r prev s with
  | Some (_, rest) => repl ++ rest
  | None =>
      match s with
      | EmptyString => EmptyString
      | String c t => String c (replaceFirstFrom ci r repl (Some c) t)
      end
  end.

Definition replaceFirst (ci : bool) (r : regex) (repl : string) (s : string) : string :=
  replaceFirstFrom ci r repl None s.

(** [s.replace(re, repl)] with the [g] flag. *)
Fixpoint replaceAllFrom (fuel : nat) (ci : bool) (r : regex) (repl : string)
    (prev : option ascii) (s : string) : string :=
  match fuel with
  | O => s
  | S fuel' =>
      match matchHere ci r prev s with
      | Some (prev', rest) =>
          if (String.length rest <? String.length s)%nat
          then repl ++ replaceAllFrom fuel' ci r repl prev' rest
          else repl ++ match s with
                       | EmptyString => EmptyString
                       | String c t => String c (replaceAllFrom fuel' ci r repl (Some c) t)
                       end
      | None =>
          match s with
          | EmptyString => EmptyString
          | String c t => String c (replaceAllFrom fuel' ci r repl (Some c) t)
          end
      end
  end.

Definition replaceAll (ci : bool) (r : regex) (repl : string) (s : string) : string :=
  replaceAllFrom (S (String.length s)) ci r repl None s.

End Regex.

(* ------------------------------------------------------------------ *)
(** ** Name normalisation and the fuzzy matcher *)

Module Names.
Import Regex.

Definition alts (l : list regex) : regex :=
  match l with
  | [] => Eps
  | r :: rs => fold_left Or rs r
  end.

(** [/\.(pdf|pptx?|docx?|xlsx?|gslides?|gdocs?|gsheet?)$/i] *)
Definition reExtension : regex :=
  Cat (Lit ".")
    (Cat (alts [ Str "pdf";
                 Cat (Str "ppt") (Opt (Lit "x"));
                 Cat (Str "doc") (Opt (Lit "x"));
                 Cat (Str "xls") (Opt (Lit "x"));
                 Cat (Str "gslide") (Opt (Lit "s"));
                 Cat (Str "gdoc") (Opt (Lit "s"));
                 Cat (Str "gshee") (Opt (Lit "t")) ])
         Eol).

(** [/\(copy\s*\d*\)/] *)
Definition reCopy : regex :=
  Cat (Str "(copy") (Cat (Star space) (Cat (Star digit) (Lit ")"))).

(** [/\s+version\s+\d+/] *)
Definition reVersionWord : regex :=
  Cat (Plus space) (Cat (Str "version") (Cat (Plus space) (Plus digit))).

(** [(\.\d+)*] *)
Definition reDotted : regex := Star (Cat (Lit ".") (Plus digit)).

Definition words (ws : list string) (sep : regex) : regex :=
  match ws with
  | [] => Eps
  | w :: rest => fold_left (fun acc x => Cat acc (Cat sep (Str x))) rest (Str w)
  end.

Definition bounded (r : regex) : regex := Cat WordB (Cat r WordB).

(** The normalisation local to [detectDuplicates]. *)
Definition normalizeNameDup (fileName : string) : string :=
  let s := replaceFirst true reExtension EmptyString fileName in
  let s := replaceAll false
             (Plus (Class (fun c => Ascii.eqb c "_" || Ascii.eqb c "-" || Js.isSpace c)))
             " " s in
  let s := replaceAll true reCopy EmptyString s in
  let s := replaceAll true reVersionWord EmptyString s in
  Js.trim (Js.toLowerCase s).

(** The method [normalizeName] used by [isSimilarName]. *)
Definition normalizeName (fileName : string) : string :=
  let s := replaceFirst true reExtension EmptyString fileName in
  let s := replaceAll false
             (Plus (Class (fun c => Ascii.eqb c "_" || Ascii.eqb c "-" || Ascii.eqb c ":")))
             " " s in
  let s := replaceAll true reCopy EmptyString s in
  let s := replaceAll true (Cat (Plus space) (Cat (Lit "v") (Cat (Class Js.isLetter) WordB))) EmptyString s in
  let s := replaceAll true (Cat (Plus space) (Cat (Lit "v") (Cat (Plus digit) reDotted))) EmptyString s in
  let s := replaceAll true (Cat (Plus space) (Cat (Str "_v") (Cat (Plus digit) reDotted))) EmptyString s in
  let s := replaceAll true reVersionWord EmptyString s in
  let s := replaceAll true (bounded (words ["quarterly"; "industry"; "trends"] (Plus space)))
             "state of retail ecommerce" s in
  let s := replaceAll true
             (bounded (words ["the"; "state"; "of"; "retail"; "ecommerce"] (Plus space)))
             "state of retail ecommerce" s in
  let s := replaceAll true (bounded (words ["industry"; "trends"] (Star space)))
             "state of retail ecommerce" s in
  let s := replaceAll true (bounded (words ["gen"; "ai"] (Plus space))) "generative ai" s in
  let s := replaceAll true (bounded (words ["ai"; "goal"; "optimizer"] (Plus space))) "aigo" s in
  let s := replaceAll true (bounded (Cat (Str "202") digit)) EmptyString s in
  let s := Js.toLowerCase s in
  let s := replaceAll false (Plus space) " " s in
  Js.trim s.

(** [isSimilarName(name1, name2)] *)
Definition isSimilarName (name1 name2 : string) : bool :=
  let n1 := normalizeName name1 in
  let n2 := normalizeName name2 in
  if String.eqb n1 n2 then true
  else if (30 <=? String.length n1)%nat || (30 <=? String.length n2)%nat
       then Js.includes n1 n2 || Js.includes n2 n1
       else false.

End Names.

(* ------------------------------------------------------------------ *)
(** ** Exceptions and insertion-ordered maps *)

Inductive result (A : Type) : Type :=
| Ok (a : A)
| Throw (msg : string).
Arguments Ok {A} a.
Arguments Throw {A} msg.

Definition bindR {A B : Type} (r : result A) (k : A -> result B) : result B :=
  match r with
  | Ok a => k a
  | Throw m => Throw m
  end.

Module JsMap.

Definition t (V : Type) : Type := list (string * V).

Fixpoint get {V : Type} (m : t V) (k : string) : option V :=
  match m with
  | [] => None
  | (k', v) :: rest => if String.eqb k' k then Some v else get rest k
  end.

Definition has {V : Type} (m : t V) (k : string) : bool :=
  match get m k with Some _ => true | None => false end.

(** [m.set(k, v)]: an existing key keeps its place, a new key goes last. *)
Fixpoint set {V : Type} (m : t V) (k : string) (v : V) : t V :=
  match m with
  | [] => [(k, v)]
  | (k', v') :: rest =>
      if String.eqb k' k then (k', v) :: rest else (k', v') :: set rest k v
  end.

(** In-place mutation of the object stored under [k]. *)
Fixpoint update {V : Type} (m : t V) (k : string) (f : V -> V) : t V :=
  match m with
  | [] => []
  | (k', v') :: rest =>
      if String.eqb k' k then (k', f v') :: rest else (k', v') :: update rest k f
  end.

Definition values {V : Type} (m : t V) : list V := map snd m.
Definition keys {V : Type} (m : t V) : list string := map fst m.

End JsMap.

(* ------------------------------------------------------------------ *)
(** ** Data model *)

Module Mime.
Definition folder := "application/vnd.google-apps.folder".
Definition shortcut := "application/vnd.google-apps.shortcut".
Definition document := "application/vnd.google-apps.document".
Definition presentation := "application/vnd.google-apps.presentation".
Definition spreadsheet := "application/vnd.google-apps.spreadsheet".
Definition pdf := "application/pdf".
Definition pptx :=
  "application/vnd.openxmlformats-officedocument.presentationml.presentation".
End Mime.

Definition msPerDay : Z := 24 * 60 * 60 * 1000.

(** [iso.split('T')[0]] of an instant, as a day number. *)
Definition dateOf (instant : Z) : Z := (instant / msPerDay)%Z.

(** [new Date(day + 'T00:00:00Z')] *)
Definition midnightUTC (day : Z) : Z := (day * msPerDay)%Z.

(** A leaf item of the Drive listing ([allFiles.push({...item, path, folderId})]).
    [size] and [version] arrive as decimal strings, so they are truthy whenever
    present. *)
Record DriveFile : Type := mkDriveFile {
  file_id : string;
  file_name : string;
  file_mimeType : string;
  file_modifiedTime : Z;
  file_createdTime : Z;
  file_webViewLink : string;
  file_size : option Z;
  file_version : option Z;
  file_md5Checksum : option string;
  file_path : string
}.

(** The embedding values are never inspected by the engine. *)
Definition Embedding : Type := list Z.

(** Vector ids.  [GenId f i u] is the id [`${f}_chunk_${i}_${uuidv4()}`] whose
    random part is the [u]-th draw of the generator; [ExtId s] is any id
    written by another tool. *)
Inductive VecId : Type :=
| GenId (fileId : string) (chunk : nat) (uuid : nat)
| ExtId (s : string).

Definition VecId_eqb (a b : VecId) : bool :=
  match a, b with
  | GenId f i u, GenId f' i' u' => String.eqb f f' && Nat.eqb i i' && Nat.eqb u u'
  | ExtId s, ExtId s' => String.eqb s s'
  | _, _ => false
  end.

(** Metadata of a chunk record; a field that is absent is [None]. Dates are
    day numbers, [File.version] and [File.size] are numbers. *)
Record Metadata : Type := mkMetadata {
  File_id : option string;
  File_name : option string;
  File_modifiedDate : option Z;
  File_lastSyncDate : option Z;
  File_version : option Z;
  File_md5 : option string;
  File_size : option Z;
  File_createdDate : option Z;
  File_webviewlink : string;
  md_text : string;
  blobType : string;
  loc_lines_from : nat;
  loc_lines_to : nat
}.

Record Vec : Type := mkVec {
  vid : VecId;
  values : Embedding;
  metadata : Metadata
}.

(** The per-document record built by [loadPineconeState]. *)
Record PineconeData : Type := mkPineconeData {
  pd_id : option string;
  pd_name : option string;
  pd_modifiedDate : option Z;
  pd_lastSyncDate : option Z;
  pd_version : Z;
  pd_md5 : option string;
  pd_size : option Z;
  vectorCount : nat;
  hasFileId : bool
}.

Record PineconeState : Type := mkPineconeState {
  pineconeFiles : JsMap.t PineconeData;
  pineconeFilesByName : JsMap.t PineconeData;
  latestSyncDate : option Z
}.

(* ------------------------------------------------------------------ *)
(** ** The vector index *)

#[local] Set Warnings "-abstract-large-number".
Definition topK : nat := 10000.

Definition Index : Type := list Vec.

(** [index.query({ vector, topK, includeMetadata, filter })]: at most [topK]
    of the records that pass the filter. *)
Definition query (flt : Vec -> bool) (idx : Index) : list Vec :=
  firstn topK (filter flt idx).

Definition queryAll (idx : Index) : list Vec := query (fun _ => true) idx.

(** The filter [{ 'File.id': { $eq: fileId } }]. *)
Definition fileIdEq (fileId : string) (v : Vec) : bool :=
  match File_id (metadata v) with
  | Some s => String.eqb s fileId
  | None => false
  end.

Definition memId (i : VecId) (ids : list VecId) : bool := existsb (VecId_eqb i) ids.

(** [index.deleteMany(ids)] *)
Definition deleteMany (ids : list VecId) (idx : Index) : Index :=
  filter (fun v => negb (memId (vid v) ids)) idx.

(** [index.upsert(batch)]: a record whose id exists is replaced, others are added. *)
Fixpoint upsertOne (v : Vec) (idx : Index) : Index :=
  match idx with
  | [] => [v]
  | x :: rest => if VecId_eqb (vid x) (vid v) then v :: rest else x :: upsertOne v rest
  end.

Definition upsert (batch : list Vec) (idx : Index) : Index :=
  fold_left (fun acc v => upsertOne v acc) batch idx.

(* ------------------------------------------------------------------ *)
(** ** Index State Loader: [loadPineconeState] *)

Definition orZero (o : option Z) : Z := match o with Some z => z | None => 0%Z end.

Definition newPineconeData (m : Metadata) (fileId : option string) (withId : bool)
  : PineconeData :=
  {| pd_id := fileId;
     pd_name := File_name m;
     pd_modifiedDate := File_modifiedDate m;
     pd_lastSyncDate := File_lastSyncDate m;
     pd_version := orZero (File_version m);
     pd_md5 := File_md5 m;
     pd_size := File_size m;
     vectorCount := 1;
     hasFileId := withId |}.

Definition bumpCount (p : PineconeData) : PineconeData :=
  {| pd_id := pd_id p; pd_name := pd_name p; pd_modifiedDate := pd_modifiedDate p;
     pd_lastSyncDate := pd_lastSyncDate p; pd_version := pd_version p;
     pd_md5 := pd_md5 p; pd_size := pd_size p;
     vectorCount := S (vectorCount p); hasFileId := hasFileId p |}.

(** [if (lastSyncDate && (!latestSyncDate || lastSyncDate > latestSyncDate))] *)
Definition trackLatest (latest lastSyncDate : option Z) : option Z :=
  match lastSyncDate with
  | Some d =>
      match latest with
      | None => Some d
      | Some l => if (l <? d)%Z then Some d else latest
      end
  | None => latest
  end.

(** One iteration of the loop over [sampleResults.matches]. *)
Definition loadStep (st : PineconeState) (mt : Vec) : PineconeState :=
  let m := metadata mt in
  let latest := trackLatest (latestSyncDate st) (File_lastSyncDate m) in
  if Js.truthy (File_id m) then
    match File_id m with
    | Some fileId =>
        if negb (JsMap.has (pineconeFiles st) fileId)
        then mkPineconeState
               (JsMap.set (pineconeFiles st) fileId (newPineconeData m (Some fileId) true))
               (pineconeFilesByName st) latest
        else mkPineconeState
               (JsMap.update (pineconeFiles st) fileId bumpCount)
               (pineconeFilesByName st) latest
    | None => mkPineconeState (pineconeFiles st) (pineconeFilesByName st) latest
    end
  else if Js.truthy (File_name m) then
    match File_name m with
    | Some fileName =>
        if negb (JsMap.has (pineconeFilesByName st) fileName)
        then mkPineconeState (pineconeFiles st)
               (JsMap.set (pineconeFilesByName st) fileName (newPineconeData m None false))
               latest
        else mkPineconeState (pineconeFiles st)
               (JsMap.update (pineconeFilesByName st) fileName bumpCount) latest
    | None => mkPineconeState (pineconeFiles st) (pineconeFilesByName st) latest
    end
  else mkPineconeState (pineconeFiles st) (pineconeFilesByName st) latest.

Definition emptyState : PineconeState := mkPineconeState [] [] None.

Definition loadFromMatches (matches : list Vec) : PineconeState :=
  fold_left loadStep matches emptyState.

Definition loadPineconeState (idx : Index) : PineconeState :=
  loadFromMatches (queryAll idx).

(* ------------------------------------------------------------------ *)
(** ** Filter stage: [filterFiles] *)

Module Filter.
Import Regex.

(** The patterns of [nameFilters] with their [i] flag; the reasons are the
    source's, without their inner quotation marks. *)
Definition nameFilters : list (bool * regex * string) :=
  [ (true, Str "archived", "Contains archived");
    (true, Str "(old)", "Contains (old)");
    (true, Str "deprecated", "Contains deprecated");
    (true, Cat Bol (Str "Copy of"), "Copy of another file");
    (true, Names.reCopy, "Contains (copy)");
    (false, Str "~$", "Temporary file") ].

Fixpoint firstMatching (fs : list (bool * regex * string)) (nm : string) : option string :=
  match fs with
  | [] => None
  | (ci, re, reason) :: rest =>
      if test ci re nm then Some reason else firstMatching rest nm
  end.

Definition shouldSkipFile (file : DriveFile) : option string :=
  match firstMatching nameFilters (file_name file) with
  | Some reason => Some reason
  | None =>
      if test true (Cat (Str "case") (Cat (Star space) (Str "study"))) (file_name file)
         && negb (test true (Str "case study slide library") (file_name file))
      then Some "Individual case study (master library only)"
      else if String.eqb (file_name file) "Profitero Comparison"
      then Some "Legacy file (superseded by Profitero Competitive Battle Card)"
      else None
  end.

Definition indexableMimeTypes : list string :=
  [Mime.document; Mime.presentation; Mime.spreadsheet; Mime.pdf].

Definition isIndexable (mimeType : string) : bool :=
  existsb (String.eqb mimeType) indexableMimeTypes.

Definition keeps (file : DriveFile) : bool :=
  if String.eqb (file_mimeType file) Mime.shortcut then false
  else match shouldSkipFile file with
       | Some _ => false
       | None => isIndexable (file_mimeType file)
       end.

End Filter.

Definition filterFiles (files : list DriveFile) : list DriveFile :=
  filter Filter.keeps files.

(* ------------------------------------------------------------------ *)
(** ** Duplicate resolver: [detectDuplicates] *)

Definition mimeTypePriority : list string :=
  [Mime.presentation; Mime.document; Mime.spreadsheet; Mime.pdf; Mime.pptx].

(** [mimeTypePriority.indexOf(mimeType)], -1 when absent. *)
Definition priorityOf (mimeType : string) : Z :=
  match Js.indexOf mimeTypePriority mimeType with
  | Some i => Z.of_nat i
  | None => (-1)%Z
  end.

(** The comparator handed to [group.sort]. *)
Definition byPriorityThenNewest (a b : DriveFile) : Z :=
  let priorityA := priorityOf (file_mimeType a) in
  let priorityB := priorityOf (file_mimeType b) in
  if (priorityA =? priorityB)%Z
  then (file_modifiedTime b - file_modifiedTime a)%Z
  else (priorityA - priorityB)%Z.

(** [Array.prototype.sort] is stable; with a comparator that orders the
    elements consistently its result is the stable sorted arrangement. *)
Fixpoint insertSorted {A : Type} (cmp : A -> A -> Z) (x : A) (l : list A) : list A :=
  match l with
  | [] => [x]
  | y :: ys => if (0 <? cmp y x)%Z then x :: l else y :: insertSorted cmp x ys
  end.

Definition jsSort {A : Type} (cmp : A -> A -> Z) (l : list A) : list A :=
  fold_left (fun acc x => insertSorted cmp x acc) l [].

(** [groups.get(k).push(file)], creating the group on first use. *)
Definition pushGroup (groups : JsMap.t (list DriveFile)) (file : DriveFile)
  : JsMap.t (list DriveFile) :=
  let normalizedName := Names.normalizeNameDup (file_name file) in
  let groups' := if negb (JsMap.has groups normalizedName)
                 then JsMap.set groups normalizedName []
                 else groups in
  JsMap.update groups' normalizedName (fun g => g ++ [file]).

Definition groupFiles (files : list DriveFile) : JsMap.t (list DriveFile) :=
  fold_left pushGroup files [].

Definition pickWinner (group : list DriveFile) : list DriveFile :=
  match group with
  | [x] => [x]
  | _ => match jsSort byPriorityThenNewest group with
         | w :: _ => [w]
         | [] => []
         end
  end.

Definition detectDuplicates (files : list DriveFile) : list DriveFile :=
  flat_map pickWinner (JsMap.values (groupFiles files)).

(* ------------------------------------------------------------------ *)
(** ** Change classifier: [classifyChanges] *)

(** Truthiness of the change signals carried by a MODIFIED item. *)
Record Signals : Type := mkSignals {
  versionChanged : bool;
  dateChanged : bool;
  hashChanged : bool;
  nameChanged : bool;
  sizeChanged : bool;
  legacyFile : bool;
  needsFileId : bool
}.

Inductive UnchangedReason : Type :=
| NotModifiedSinceLastSync (cutoffDay : Z)
| NoChangesDetected.

Inductive Classification : Type :=
| NEW
| MODIFIED (signals : Signals) (pineconeData : PineconeData) (legacyReason : bool)
| UNCHANGED (reason : UnchangedReason).

(** [latestSyncDate ? new Date(latestSyncDate + 'T00:00:00Z')
                    : new Date(Date.now() - 30 * 24 * 60 * 60 * 1000)] *)
Definition cutoffDate (latest : option Z) (now : Z) : Z :=
  match latest with
  | Some d => midnightUTC d
  | None => (now - 30 * 24 * 60 * 60 * 1000)%Z
  end.

Definition allPineconeFiles (st : PineconeState) : list PineconeData :=
  JsMap.values (pineconeFiles st) ++ JsMap.values (pineconeFilesByName st).

(** [allPineconeFiles.find(p => this.isSimilarName(file.name, p['File.name']))];
    [normalizeName] applied to a missing name raises a [TypeError]. *)
Fixpoint findSimilar (all : list PineconeData) (fileName : string)
  : result (option PineconeData) :=
  match all with
  | [] => Ok None
  | p :: rest =>
      match pd_name p with
      | None => Throw "TypeError: Cannot read properties of undefined (reading 'replace')"
      | Some n => if Names.isSimilarName fileName n then Ok (Some p)
                  else findSimilar rest fileName
      end
  end.

(** Identity resolution: by id, then by exact name, then by similar name. *)
Definition matchFile (st : PineconeState) (file : DriveFile)
  : result (option PineconeData) :=
  match JsMap.get (pineconeFiles st) (file_id file) with
  | Some p => Ok (Some p)
  | None =>
      match JsMap.get (pineconeFilesByName st) (file_name file) with
      | Some p => Ok (Some p)
      | None => findSimilar (allPineconeFiles st) (file_name file)
      end
  end.

Definition optStringDiffers (a b : option string) : bool :=
  match a, b with
  | Some x, Some y => negb (String.eqb x y)
  | None, None => false
  | _, _ => true
  end.

Definition computeSignals (file : DriveFile) (p : PineconeData) : Signals :=
  {| versionChanged :=
       match file_version file with
       | Some v => negb (pd_version p =? 0)%Z && (pd_version p <? v)%Z
       | None => false
       end;
     dateChanged :=
       match pd_modifiedDate p with
       | Some d => (midnightUTC d <? file_modifiedTime file)%Z
       | None => false
       end;
     hashChanged :=
       Js.truthy (file_md5Checksum file) && Js.truthy (pd_md5 p)
       && optStringDiffers (file_md5Checksum file) (pd_md5 p);
     nameChanged := optStringDiffers (Some (file_name file)) (pd_name p);
     sizeChanged :=
       match file_size file, pd_size p with
       | Some s, Some ps => negb (ps =? 0)%Z && (100 <? Z.abs (s - ps))%Z
       | _, _ => false
       end;
     legacyFile := false;
     needsFileId := false |}.

Definition legacySignals : Signals :=
  {| versionChanged := false; dateChanged := false; hashChanged := false;
     nameChanged := false; sizeChanged := false;
     legacyFile := true; needsFileId := true |}.

(** The decision taken for one item once its match is known. *)
Definition classifyMatched (cutoff : Z) (file : DriveFile) (matched : option PineconeData)
  : Classification :=
  match matched with
  | None => NEW
  | Some p =>
      if (file_modifiedTime file <=? cutoff)%Z
      then UNCHANGED (NotModifiedSinceLastSync (dateOf cutoff))
      else if negb (hasFileId p)
      then MODIFIED legacySignals p true
      else
        let signals := computeSignals file p in
        if versionChanged signals || hashChanged signals
           || sizeChanged signals || dateChanged signals
        then MODIFIED signals p false
        else UNCHANGED NoChangesDetected
  end.

Definition classifyFile (st : PineconeState) (now : Z) (file : DriveFile)
  : result Classification :=
  bindR (matchFile st file)
        (fun m => Ok (classifyMatched (cutoffDate (latestSyncDate st) now) file m)).

Record ModifiedEntry : Type := mkModified {
  mod_file : DriveFile;
  mod_signals : Signals;
  mod_pineconeData : PineconeData;
  mod_legacy : bool
}.

Record Changes : Type := mkChanges {
  newFiles : list DriveFile;
  modifiedFiles : list ModifiedEntry;
  unchangedFiles : list (DriveFile * UnchangedReason)
}.

Definition addClassified (acc : Changes) (file : DriveFile) (c : Classification) : Changes :=
  match c with
  | NEW => mkChanges (newFiles acc ++ [file]) (modifiedFiles acc) (unchangedFiles acc)
  | MODIFIED s p l =>
      mkChanges (newFiles acc) (modifiedFiles acc ++ [mkModified file s p l])
                (unchangedFiles acc)
  | UNCHANGED r =>
      mkChanges (newFiles acc) (modifiedFiles acc) (unchangedFiles acc ++ [(file, r)])
  end.

Fixpoint classifyLoop (st : PineconeState) (now : Z) (driveFiles : list DriveFile)
    (acc : Changes) : result Changes :=
  match driveFiles with
  | [] => Ok acc
  | file :: rest =>
      bindR (classifyFile st now file)
            (fun c => classifyLoop st now rest (addClassified acc file c))
  end.

Definition classifyChanges (driveFiles : list DriveFile) (st : PineconeState) (now : Z)
  : result Changes :=
  classifyLoop st now driveFiles (mkChanges [] [] []).

(* ------------------------------------------------------------------ *)
(** ** Chunking *)

Module Chunking.

Record Chunk : Type := mkChunk {
  chunk_text : string;
  lineFrom : nat;
  lineTo : nat
}.

(** [currentLines[0] || 1] *)
Definition firstOr1 (l : list nat) : nat :=
  match l with
  | [] => 1
  | x :: _ => if (x =? 0)%nat then 1 else x
  end.

(** [currentLines[currentLines.length - 1] || 1] *)
Definition lastOr1 (l : list nat) : nat :=
  match rev l with
  | [] => 1
  | x :: _ => if (x =? 0)%nat then 1 else x
  end.

Definition mkChunkOf (currentChunk : string) (currentLines : list nat) : Chunk :=
  mkChunk (Js.trim currentChunk) (firstOr1 currentLines) (lastOr1 currentLines).

Definition nlStr : string := String Js.nl EmptyString.

(** The backwards loop that collects the overlap; [revLines] holds
    [currentLines[i]] for [i] from the last index down to 0. *)
Fixpoint overlapLoop (lines : list string) (overlap : nat) (revLines : list nat)
    (overlapLines : list nat) (overlapText : string) : list nat * string :=
  match revLines with
  | [] => (overlapLines, overlapText)
  | ci :: rest =>
      match nth_error lines ci with
      | Some l =>
          match Js.indexOf lines l with
          | Some idx =>
              match nth_error lines idx with
              | Some lidx =>
                  if (String.length overlapText + String.length lidx <? overlap)%nat
                  then overlapLoop lines overlap rest (ci :: overlapLines)
                         (lidx ++ nlStr ++ overlapText)
                  else (overlapLines, overlapText)
              | None => (overlapLines, overlapText)
              end
          | None => (overlapLines, overlapText)
          end
      | None => (overlapLines, overlapText)
      end
  end.

Record LoopState : Type := mkLoop {
  chunks : list Chunk;
  currentChunk : string;
  currentLines : list nat
}.

(** [lines.indexOf(line) + 1] *)
Definition lineNumber (lines : list string) (line : string) : nat :=
  match Js.indexOf lines line with
  | Some i => S i
  | None => 0
  end.

Definition chunkStep (lines : list string) (chunkSize overlap : nat)
    (st : LoopState) (line : string) : LoopState :=
  let lineLength := (String.length line + 1)%nat in
  let st1 :=
    if (chunkSize <? String.length (currentChunk st) + lineLength)%nat
       && (0 <? String.length (currentChunk st))%nat
    then
      let '(overlapLines, overlapText) :=
        overlapLoop lines overlap (rev (currentLines st)) [] EmptyString in
      mkLoop (chunks st ++ [mkChunkOf (currentChunk st) (currentLines st)])
             overlapText overlapLines
    else st in
  mkLoop (chunks st1)
         (currentChunk st1 ++ line ++ nlStr)
         (currentLines st1 ++ [lineNumber lines line]).

Definition finish (st : LoopState) : list Chunk :=
  if String.eqb (Js.trim (currentChunk st)) EmptyString then chunks st
  else chunks st ++ [mkChunkOf (currentChunk st) (currentLines st)].

(** [IntelligentSync.chunkText(text, chunkSize = 1000, overlap = 200)];
    [PineconeCatalogSyncer.chunkText] is the same function. *)
Definition chunkText (text : string) (chunkSize overlap : nat) : list Chunk :=
  let lines := Js.split Js.nl text in
  finish (fold_left (chunkStep lines chunkSize overlap) lines (mkLoop [] EmptyString [])).

Definition defaultChunkSize : nat := 1000.
Definition defaultOverlap : nat := 200.

(** *** [DocumentChunker.chunkText] of [indexer/chunker.js] *)

(** [text.split(/\s+/)] *)
Fixpoint splitWsAux (inSpace : bool) (s : string) : list string :=
  match s with
  | EmptyString => [EmptyString]
  | String c t =>
      if Js.isSpace c
      then if inSpace then splitWsAux true t else EmptyString :: splitWsAux true t
      else match splitWsAux false t with
           | l :: ls => String c l :: ls
           | [] => [String c EmptyString]
           end
  end.

Definition splitWs (s : string) : list string := splitWsAux false s.

Definition joinSp (ws : list string) : string := String.concat " " ws.

Record WordChunk : Type := mkWordChunk {
  wc_text : string;
  chunk_index : nat;
  char_start : nat;
  char_end : nat
}.

Record WordState : Type := mkWordState {
  w_chunks : list WordChunk;
  w_current : list string;
  w_length : nat;
  w_index : nat;
  w_i : nat
}.

(** [arr.slice(-n)] *)
Definition sliceLast {A : Type} (n : nat) (l : list A) : list A :=
  if (n =? 0)%nat then l else skipn (List.length l - n) l.

Definition wordStep (chunkSize overlap : nat) (st : WordState) (word : string) : WordState :=
  let wordLength := String.length word in
  let i := w_i st in
  let st1 :=
    if (chunkSize <? w_length st + wordLength)%nat && (0 <? List.length (w_current st))%nat
    then
      let overlapWords := (overlap / 5)%nat in
      let cur := sliceLast overlapWords (w_current st) in
      mkWordState
        (w_chunks st ++ [mkWordChunk (joinSp (w_current st)) (w_index st)
                                     (i - List.length (w_current st)) i])
        cur (String.length (joinSp cur)) (S (w_index st)) i
    else st in
  mkWordState (w_chunks st1) (w_current st1 ++ [word])
              (w_length st1 + wordLength + 1) (w_index st1) (S i).

Definition wordChunkText (text : string) (chunkSize overlap : nat) : list WordChunk :=
  let words := splitWs text in
  let st := fold_left (wordStep chunkSize overlap) words (mkWordState [] [] 0 0 0) in
  match w_current st with
  | [] => w_chunks st
  | _ => w_chunks st ++
         [mkWordChunk (joinSp (w_current st)) (w_index st)
                      (List.length words - List.length (w_current st)) (List.length words)]
  end.

(** Whether the last [n] or more characters of [a] are the first ones of [b]. *)
Definition suffixOf (k : nat) (a : string) : string :=
  substring (String.length a - k) k a.

Definition sharesAtLeast (n : nat) (a b : string) : bool :=
  existsb (fun k => (n <=? k)%nat && (k <=? String.length b)%nat
                    && String.eqb (suffixOf k a) (substring 0 k b))
          (seq 0 (S (String.length a))).

Fixpoint repeatChar (n : nat) (c : ascii) : string :=
  match n with
  | O => EmptyString
  | S n' => String c (repeatChar n' c)
  end.

End Chunking.

(* ------------------------------------------------------------------ *)
(** ** Indexing driver of [IntelligentSync] *)

(** Calls that mutate the index, in the order they are issued. *)
Inductive IndexOp : Type :=
| OpUpsert (batch : list Vec)
| OpDeleteMany (ids : list VecId).

(** The index, the position of the [uuidv4] generator and the log of the
    mutating calls issued so far. *)
Record World : Type := mkWorld {
  index : Index;
  nextUuid : nat;
  ops : list IndexOp
}.

(** The external collaborators. An extraction or an embedding either returns
    or throws; [upsertThrows] and [deleteManyThrows] tell which calls of the
    index client are rejected. *)
Record Collaborators : Type := mkCollaborators {
  extractGoogleDoc : string -> result string;
  extractGoogleSlides : string -> result string;
  extractGoogleSheets : string -> result string;
  extractPDF : string -> result string;
  createEmbedding : string -> result Embedding;
  upsertThrows : list Vec -> bool;
  deleteManyThrows : list VecId -> bool
}.

Record IndexResult : Type := mkIndexResult {
  success : bool;
  reason : option string;
  res_chunks : nat;
  res_vectors : nat
}.

Record Counters : Type := mkCounters {
  newIndexed : nat;
  newFailed : nat;
  modifiedReIndexed : nat;
  modifiedFailed : nat
}.

Record RunOutcome : Type := mkOutcome {
  exitCode : Z;
  counters : Counters;
  changes : Changes;
  attempts : list (DriveFile * IndexResult)
}.

Section Driver.

Variable env : Collaborators.

(** The metadata written by [createVectors]; [today] is the day of the run. *)
Definition vectorMetadata (file : DriveFile) (today : Z) (chunk : Chunking.Chunk) : Metadata :=
  {| File_id := Some (file_id file);
     File_name := Some (file_name file);
     File_modifiedDate := Some (dateOf (file_modifiedTime file));
     File_lastSyncDate := Some today;
     File_version := None;
     File_md5 := None;
     File_size := None;
     File_createdDate := Some (dateOf (file_createdTime file));
     File_webviewlink := file_webViewLink file;
     md_text := Chunking.chunk_text chunk;
     blobType := file_mimeType file;
     loc_lines_from := Chunking.lineFrom chunk;
     loc_lines_to := Chunking.lineTo chunk |}.

(** The loop of [createVectors] from chunk number [i] on, writing the
    metadata [meta chunk]; the second component is the generator position
    afterwards. *)
Fixpoint createVectorsFrom (meta : Chunking.Chunk -> Metadata) (fileId : string) (i : nat)
    (chunks : list Chunking.Chunk) (next : nat) : result (list Vec) * nat :=
  match chunks with
  | [] => (Ok [], next)
  | chunk :: rest =>
      match createEmbedding env (Chunking.chunk_text chunk) with
      | Throw m => (Throw m, next)
      | Ok embedding =>
          let v := mkVec (GenId fileId i next) embedding (meta chunk) in
          match createVectorsFrom meta fileId (S i) rest (S next) with
          | (Ok vs, next') => (Ok (v :: vs), next')
          | (Throw m, next') => (Throw m, next')
          end
      end
  end.

Definition createVectors (file : DriveFile) (today : Z) (chunks : list Chunking.Chunk)
    (next : nat) : result (list Vec) * nat :=
  createVectorsFrom (vectorMetadata file today) (file_id file) 0 chunks next.

Definition batchSize : nat := 200.

(** [vectors.slice(i, i + batchSize)] for [i = 0, batchSize, ...] *)
Fixpoint batchesOf (fuel : nat) (vectors : list Vec) : list (list Vec) :=
  match fuel with
  | O => []
  | S fuel' =>
      match vectors with
      | [] => []
      | _ => firstn batchSize vectors :: batchesOf fuel' (skipn batchSize vectors)
      end
  end.

Fixpoint upsertBatches (bs : list (list Vec)) (w : World) : result unit * World :=
  match bs with
  | [] => (Ok tt, w)
  | batch :: rest =>
      let w1 := mkWorld (index w) (nextUuid w) (ops w ++ [OpUpsert batch]) in
      if upsertThrows env batch then (Throw "upsert failed", w1)
      else upsertBatches rest (mkWorld (upsert batch (index w)) (nextUuid w) (ops w1))
  end.

Definition uploadToPinecone (vectors : list Vec) (w : World) : result unit * World :=
  upsertBatches (batchesOf (List.length vectors) vectors) w.

(** [deleteFileVectors(fileId)]: the number of deleted vectors. *)
Definition deleteFileVectors (fileId : string) (w : World) : result nat * World :=
  let found := query (fileIdEq fileId) (index w) in
  match found with
  | [] => (Ok 0%nat, w)
  | _ =>
      let vectorIds := map vid found in
      let w1 := mkWorld (index w) (nextUuid w) (ops w ++ [OpDeleteMany vectorIds]) in
      if deleteManyThrows env vectorIds then (Throw "deleteMany failed", w1)
      else (Ok (List.length vectorIds),
            mkWorld (deleteMany vectorIds (index w)) (nextUuid w) (ops w1))
  end.

Definition extractText (file : DriveFile) : result string :=
  if String.eqb (file_mimeType file) Mime.document then extractGoogleDoc env (file_id file)
  else if String.eqb (file_mimeType file) Mime.presentation
  then extractGoogleSlides env (file_id file)
  else if String.eqb (file_mimeType file) Mime.spreadsheet
  then extractGoogleSheets env (file_id file)
  else if String.eqb (file_mimeType file) Mime.pdf then extractPDF env (file_id file)
  else Throw "Unsupported file type".

Definition minContent : nat := 50.

Definition failure (msg : string) : IndexResult := mkIndexResult false (Some msg) 0 0.

(** [indexFile(file)]: everything that throws inside is caught and reported
    as [{ success: false, reason }]. *)
Definition indexFile (now : Z) (file : DriveFile) (w : World) : IndexResult * World :=
  match extractText file with
  | Throw m => (failure m, w)
  | Ok text =>
      if (String.length (Js.trim text) <? minContent)%nat
      then (failure "Text too short", w)
      else
        let chunks := Chunking.chunkText text Chunking.defaultChunkSize
                                         Chunking.defaultOverlap in
        match createVectors file (dateOf now) chunks (nextUuid w) with
        | (Throw m, next') => (failure m, mkWorld (index w) next' (ops w))
        | (Ok vectors, next') =>
            match uploadToPinecone vectors (mkWorld (index w) next' (ops w)) with
            | (Throw m, w') => (failure m, w')
            | (Ok _, w') =>
                (mkIndexResult true None (List.length chunks) (List.length vectors), w')
            end
        end
  end.

Record LoopAcc : Type := mkAcc {
  acc_ok : nat;
  acc_failed : nat;
  acc_attempts : list (DriveFile * IndexResult)
}.

Definition record (acc : LoopAcc) (file : DriveFile) (r : IndexResult) : LoopAcc :=
  if success r
  then mkAcc (S (acc_ok acc)) (acc_failed acc) (acc_attempts acc ++ [(file, r)])
  else mkAcc (acc_ok acc) (S (acc_failed acc)) (acc_attempts acc ++ [(file, r)]).

(** Phase 2: the loop over [newFiles]. *)
Fixpoint indexNew (now : Z) (files : list DriveFile) (acc : LoopAcc) (w : World)
  : LoopAcc * World :=
  match files with
  | [] => (acc, w)
  | file :: rest =>
      let '(r, w1) := indexFile now file w in
      indexNew now rest (record acc file r) w1
  end.

(** Phase 3: the loop over [modifiedFiles]; [deleteFileVectors] is called
    outside of any [try]. *)
Fixpoint reindexModified (now : Z) (entries : list ModifiedEntry) (acc : LoopAcc)
    (w : World) : result LoopAcc * World :=
  match entries with
  | [] => (Ok acc, w)
  | entry :: rest =>
      let file := mod_file entry in
      match deleteFileVectors (file_id file) w with
      | (Throw m, w1) => (Throw m, w1)
      | (Ok _, w1) =>
          let '(r, w2) := indexFile now file w1 in
          reindexModified now rest (record acc file r) w2
      end
  end.

(** [run()], started at instant [now] on the listing [allFiles]. *)
Definition run (now : Z) (allFiles : list DriveFile) (w : World)
  : result RunOutcome * World :=
  let pineconeState := loadPineconeState (index w) in
  let filtered := filterFiles allFiles in
  let deduplicated := detectDuplicates filtered in
  match classifyChanges deduplicated pineconeState now with
  | Throw m => (Throw m, w)
  | Ok ch =>
      let '(accNew, w1) := indexNew now (newFiles ch) (mkAcc 0 0 []) w in
      match reindexModified now (modifiedFiles ch) (mkAcc 0 0 []) w1 with
      | (Throw m, w2) => (Throw m, w2)
      | (Ok accMod, w2) =>
          let results := mkCounters (acc_ok accNew) (acc_failed accNew)
                                    (acc_ok accMod) (acc_failed accMod) in
          let totalFailed := (newFailed results + modifiedFailed results)%nat in
          (Ok (mkOutcome (if (0 <? totalFailed)%nat then 1%Z else 0%Z) results ch
                         (acc_attempts accNew ++ acc_attempts accMod)), w2)
      end
  end.

(** [sync.run().then(code => process.exit(code)).catch(() => process.exit(1))] *)
Definition processExitCode (r : result RunOutcome) : Z :=
  match r with
  | Ok o => exitCode o
  | Throw _ => 1%Z
  end.

End Driver.

(* ------------------------------------------------------------------ *)
(** ** The catalog syncer: [PineconeCatalogSyncer] *)

Record PineconeFile : Type := mkPineconeFile {
  pf_name : option string;
  pf_modifiedDate : option Z;
  vectorIds : list VecId
}.

Record ModifiedFile : Type := mkModifiedFile {
  mf_file : DriveFile;
  oldVectorIds : list VecId
}.

Record DeletedFile : Type := mkDeletedFile {
  del_fileId : string;
  del_name : option string;
  del_vectorIds : list VecId
}.

Record Stats : Type := mkStats {
  st_newFiles : list DriveFile;
  st_modifiedFiles : list ModifiedFile;
  st_deletedFiles : list DeletedFile;
  st_indexed : nat;
  st_reindexed : nat;
  st_deleted : nat;
  st_errors : list (string * string)
}.

Definition supportedTypes : list string :=
  [Mime.document; Mime.presentation; Mime.spreadsheet; Mime.pdf].

(** The filter at the end of [getDriveFiles]. *)
Definition supportedFiles (allFiles : list DriveFile) : list DriveFile :=
  filter (fun f => existsb (String.eqb (file_mimeType f)) supportedTypes) allFiles.

Definition pushVectorId (i : VecId) (pf : PineconeFile) : PineconeFile :=
  mkPineconeFile (pf_name pf) (pf_modifiedDate pf) (vectorIds pf ++ [i]).

Definition getStep (filesMap : JsMap.t PineconeFile) (mt : Vec) : JsMap.t PineconeFile :=
  let m := metadata mt in
  if negb (Js.truthy (File_id m)) then filesMap
  else match File_id m with
       | None => filesMap
       | Some fileId =>
           let filesMap' :=
             if negb (JsMap.has filesMap fileId)
             then JsMap.set filesMap fileId
                    (mkPineconeFile (File_name m) (File_modifiedDate m) [])
             else filesMap in
           JsMap.update filesMap' fileId (pushVectorId (vid mt))
       end.

Definition getPineconeFiles (idx : Index) : JsMap.t PineconeFile :=
  fold_left getStep (queryAll idx) [].

Definition compareDriveFile (pineconeFiles : JsMap.t PineconeFile) (st : Stats)
    (driveFile : DriveFile) : Stats :=
  match JsMap.get pineconeFiles (file_id driveFile) with
  | None =>
      mkStats (st_newFiles st ++ [driveFile]) (st_modifiedFiles st) (st_deletedFiles st)
              (st_indexed st) (st_reindexed st) (st_deleted st) (st_errors st)
  | Some pineconeFile =>
      let isModified :=
        match pf_modifiedDate pineconeFile with
        | Some d => (midnightUTC d <? file_modifiedTime driveFile)%Z
        | None => false
        end in
      if isModified
      then mkStats (st_newFiles st)
                   (st_modifiedFiles st ++ [mkModifiedFile driveFile (vectorIds pineconeFile)])
                   (st_deletedFiles st)
                   (st_indexed st) (st_reindexed st) (st_deleted st) (st_errors st)
      else st
  end.

Definition compareDeleted (driveFiles : list DriveFile) (st : Stats)
    (entry : string * PineconeFile) : Stats :=
  let '(fileId, pineconeFile) := entry in
  if negb (existsb (String.eqb fileId) (map file_id driveFiles))
  then mkStats (st_newFiles st) (st_modifiedFiles st)
               (st_deletedFiles st ++
                  [mkDeletedFile fileId (pf_name pineconeFile) (vectorIds pineconeFile)])
               (st_indexed st) (st_reindexed st) (st_deleted st) (st_errors st)
  else st.

Definition compareFiles (driveFiles : list DriveFile) (pineconeFiles : JsMap.t PineconeFile)
    (st : Stats) : Stats :=
  fold_left (compareDeleted driveFiles) pineconeFiles
            (fold_left (compareDriveFile pineconeFiles) driveFiles st).

Definition emptyStats : Stats := mkStats [] [] [] 0 0 0 [].

Definition addError (st : Stats) (fileName msg : string) : Stats :=
  mkStats (st_newFiles st) (st_modifiedFiles st) (st_deletedFiles st)
          (st_indexed st) (st_reindexed st) (st_deleted st)
          (st_errors st ++ [(fileName, msg)]).

Section CatalogSyncer.

Variable env : Collaborators.
Variable dryRun : bool.

(** The syncer writes no [File.lastSyncDate]. *)
Definition catalogMetadata (file : DriveFile) (chunk : Chunking.Chunk) : Metadata :=
  {| File_id := Some (file_id file);
     File_name := Some (file_name file);
     File_modifiedDate := Some (dateOf (file_modifiedTime file));
     File_lastSyncDate := None;
     File_version := None;
     File_md5 := None;
     File_size := None;
     File_createdDate := Some (dateOf (file_createdTime file));
     File_webviewlink := file_webViewLink file;
     md_text := Chunking.chunk_text chunk;
     blobType := file_mimeType file;
     loc_lines_from := Chunking.lineFrom chunk;
     loc_lines_to := Chunking.lineTo chunk |}.

(** [indexNewFiles]: the constructor never sets [this.driveIndexer], so the
    first statement of the [try] block raises a [TypeError] that the [catch]
    records. *)
Fixpoint indexNewFiles (files : list DriveFile) (st : Stats) : Stats :=
  match files with
  | [] => st
  | file :: rest =>
      if dryRun then indexNewFiles rest st
      else indexNewFiles rest
             (addError st (file_name file)
                "Cannot read properties of undefined (reading 'downloadFile')")
  end.

(** The body of the [try] block of [reindexModifiedFiles] for one file. *)
Definition reindexOne (file : ModifiedFile) (st : Stats) (w : World) : Stats * World :=
  let f := mf_file file in
  let w1 := mkWorld (index w) (nextUuid w) (ops w ++ [OpDeleteMany (oldVectorIds file)]) in
  if deleteManyThrows env (oldVectorIds file)
  then (addError st (file_name f) "deleteMany failed", w1)
  else
    let w2 := mkWorld (deleteMany (oldVectorIds file) (index w)) (nextUuid w) (ops w1) in
    match extractText env f with
    | Throw m => (addError st (file_name f) m, w2)
    | Ok text =>
        if (String.length (Js.trim text) <? minContent)%nat
        then (addError st (file_name f) "Content too short after update", w2)
        else
          let chunks := Chunking.chunkText text Chunking.defaultChunkSize
                                           Chunking.defaultOverlap in
          match createVectorsFrom env (catalogMetadata f) (file_id f) 0 chunks (nextUuid w2) with
          | (Throw m, next') =>
              (addError st (file_name f) m, mkWorld (index w2) next' (ops w2))
          | (Ok vectors, next') =>
              match uploadToPinecone env vectors (mkWorld (index w2) next' (ops w2)) with
              | (Throw m, w3) => (addError st (file_name f) m, w3)
              | (Ok _, w3) =>
                  (mkStats (st_newFiles st) (st_modifiedFiles st) (st_deletedFiles st)
                           (st_indexed st) (S (st_reindexed st)) (st_deleted st)
                           (st_errors st), w3)
              end
          end
    end.

Fixpoint reindexModifiedFiles (files : list ModifiedFile) (st : Stats) (w : World)
  : Stats * World :=
  match files with
  | [] => (st, w)
  | file :: rest =>
      if dryRun then reindexModifiedFiles rest st w
      else let '(st1, w1) := reindexOne file st w in
           reindexModifiedFiles rest st1 w1
  end.

Fixpoint deleteRemovedFiles (files : list DeletedFile) (st : Stats) (w : World)
  : Stats * World :=
  match files with
  | [] => (st, w)
  | file :: rest =>
      if dryRun then deleteRemovedFiles rest st w
      else
        let w1 := mkWorld (index w) (nextUuid w)
                          (ops w ++ [OpDeleteMany (del_vectorIds file)]) in
        if deleteManyThrows env (del_vectorIds file)
        then deleteRemovedFiles rest
               (addError st (match del_name file with Some n => n | None => "undefined" end)
                         "deleteMany failed") w1
        else deleteRemovedFiles rest
               (mkStats (st_newFiles st) (st_modifiedFiles st) (st_deletedFiles st)
                        (st_indexed st) (st_reindexed st) (S (st_deleted st)) (st_errors st))
               (mkWorld (deleteMany (del_vectorIds file) (index w)) (nextUuid w) (ops w1))
  end.

(** [sync()] on the listing [allFiles]: steps 1 to 6. *)
Definition sync (allFiles : list DriveFile) (w : World) : Stats * World :=
  let driveFiles := supportedFiles allFiles in
  let pineconeFiles := getPineconeFiles (index w) in
  let st := compareFiles driveFiles pineconeFiles emptyStats in
  let st1 := indexNewFiles (st_newFiles st) st in
  let '(st2, w2) := reindexModifiedFiles (st_modifiedFiles st1) st1 w in
  deleteRemovedFiles (st_deletedFiles st2) st2 w2.

End CatalogSyncer.


(* ------------------------------------------------------------------ *)
(** ** Vocabulary of the statements *)

Import Chunking.

Definition Contains (s sub : string) : Prop :=
  exists pre post, s = (pre ++ sub ++ post)%string.

Definition lastSyncOf (v : Vec) : option Z := File_lastSyncDate (metadata v).

Definition SimilarTo (fileName : string) (p : PineconeData) : Prop :=
  exists n, pd_name p = Some n /\ Names.isSimilarName fileName n = true.

Definition updAll {V} (k : string) (f : V -> V) (e : string * V) : string * V :=
  if String.eqb (fst e) k then (fst e, f (snd e)) else e.

Definition keyOf (f : DriveFile) : string := Names.normalizeNameDup (file_name f).

Definition hasKey (k : string) (f : DriveFile) : bool := String.eqb (keyOf f) k.

(** [a] is at least as good as [b]: a strictly better format, or the same
    format and not older. *)
Definition Preferred (a b : DriveFile) : Prop :=
  (priorityOf (file_mimeType a) < priorityOf (file_mimeType b))%Z
  \/ (priorityOf (file_mimeType a) = priorityOf (file_mimeType b)
      /\ (file_modifiedTime b <= file_modifiedTime a)%Z).

(** No two distinct members of a group agree on both format and date. *)
Definition NoFullTie (files : list DriveFile) : Prop :=
  forall a b, In a files -> In b files -> keyOf a = keyOf b ->
    priorityOf (file_mimeType a) = priorityOf (file_mimeType b) ->
    file_modifiedTime a = file_modifiedTime b -> a = b.

(** The lines of a window, each followed by its line break. *)
Fixpoint joinLines (run : list string) : string :=
  match run with
  | [] => EmptyString
  | l :: rest => (l ++ nlStr ++ joinLines rest)%string
  end.

(** A window: the text carried over from the previous window and the run of
    input lines it adds. *)
Definition Window : Type := (string * list string)%type.

Definition render (p : Window) : string := Js.trim (fst p ++ joinLines (snd p)).

Definition WindowOk (overlap : nat) (p : Window) : Prop :=
  String.length (fst p) <= overlap /\ snd p <> [].

Record LoopInv (chunkSize overlap : nat) (bounded : bool) (st : LoopState)
    (pieces : list Window) (carry : string) (run : list string) : Prop := mkInv {
  inv_current : currentChunk st = (carry ++ joinLines run)%string;
  inv_carry : String.length carry <= overlap;
  inv_chunks : map chunk_text (chunks st) = map render pieces;
  inv_pieces : Forall (WindowOk overlap) pieces;
  inv_start : run = [] -> carry = EmptyString;
  inv_first : pieces = [] -> carry = EmptyString;
  inv_size : bounded = true ->
             String.length (currentChunk st) <= chunkSize
             /\ Forall (fun c => String.length (chunk_text c) <= chunkSize) (chunks st)
}.


(** Every generated id in the index was drawn before position [next]. *)
Definition FreshFrom (next : nat) (idx : Index) : Prop :=
  forall v f i u, In v idx -> vid v = GenId f i u -> u < next.

(** Vector ids are keys of the index, and [uuidv4] never repeats a value. *)
Definition WfWorld (w : World) : Prop :=
  NoDup (map vid (index w)) /\ FreshFrom (nextUuid w) (index w).

Definition isUpsert (o : IndexOp) : bool :=
  match o with OpUpsert _ => true | OpDeleteMany _ => false end.

(** The attempts that ended in [{ success: false }]. *)
Definition failures (l : list (DriveFile * IndexResult)) : list (DriveFile * IndexResult) :=
  filter (fun fr => negb (success (snd fr))) l.

Definition AccCounts (acc : LoopAcc) : Prop :=
  acc_failed acc = List.length (failures (acc_attempts acc)).

(** The result recorded for an attempt is what [indexFile] returned. *)
Definition FromIndexFile (env : Collaborators) (now : Z) (fr : DriveFile * IndexResult) : Prop :=
  exists w0, fst (indexFile env now (fst fr) w0) = snd fr.

(** A string made of white space only. *)
Fixpoint blank (s : string) : bool :=
  match s with
  | EmptyString => true
  | String c t => Js.isSpace c && blank t
  end.

(** Some record carries the file id [id]. *)
Definition HasId (id : string) (idx : Index) : Prop :=
  exists v, In v idx /\ fileIdEq id v = true.

(** Some record was synced on day [d]. *)
Definition HasSync (d : Z) (idx : Index) : Prop :=
  exists v, In v idx /\ lastSyncOf v = Some d.

(** Some record without a usable id carries the name [n]. *)
Definition HasLegacyName (n : string) (idx : list Vec) : Prop :=
  exists v, In v idx /\ Js.truthy (File_id (metadata v)) = false
            /\ File_name (metadata v) = Some n.
(* ------------------------------------------------------------------ *)
(** ** Further vocabulary: classes, loader entries *)

(** The three lists returned by [classifyChanges]. *)
Inductive Kind : Type := KNew | KModified | KUnchanged.

Definition kindOf (c : Classification) : Kind :=
  match c with
  | NEW => KNew
  | MODIFIED _ _ _ => KModified
  | UNCHANGED _ => KUnchanged
  end.

Definition Kind_eqb (a b : Kind) : bool :=
  match a, b with
  | KNew, KNew | KModified, KModified | KUnchanged, KUnchanged => true
  | _, _ => false
  end.

(** Whether [classifyChanges] puts the item on the list [k]. *)
Definition classifiedAs (k : Kind) (st : PineconeState) (now : Z) (f : DriveFile) : bool :=
  match classifyFile st now f with
  | Ok c => Kind_eqb (kindOf c) k
  | Throw _ => false
  end.

(** The loader's record [p] with its [vectorCount] set to [n]. *)
Definition withCount (n : nat) (p : PineconeData) : PineconeData :=
  {| pd_id := pd_id p; pd_name := pd_name p; pd_modifiedDate := pd_modifiedDate p;
     pd_lastSyncDate := pd_lastSyncDate p; pd_version := pd_version p;
     pd_md5 := pd_md5 p; pd_size := pd_size p;
     vectorCount := n; hasFileId := hasFileId p |}.

(** A record without a usable [File.id] whose [File.name] is [n]. *)
Definition legacyNameEq (n : string) (v : Vec) : bool :=
  negb (Js.truthy (File_id (metadata v)))
  && match File_name (metadata v) with
     | Some s => String.eqb s n
     | None => false
     end.

(** A record that the loader files under no document. *)
Definition unkeyed (v : Vec) : bool :=
  negb (Js.truthy (File_id (metadata v))) && negb (Js.truthy (File_name (metadata v))).

Definition sumCounts (m : JsMap.t PineconeData) : nat :=
  list_sum (map vectorCount (JsMap.values m)).

(** The record kept for a document, given the scanned records [ms]. *)
Definition entryOf (flt : Vec -> bool) (fileId : option string) (withId : bool)
    (ms : list Vec) : option PineconeData :=
  match find flt ms with
  | Some v => Some (withCount (List.length (filter flt ms))
                              (newPineconeData (metadata v) fileId withId))
  | None => None
  end.

(** [Progress k st st']: the syncer went from statistics [st] to [st'] by
    handling [k] items: the three lists are untouched, [indexed] too, no
    counter went down, and each handled item raised exactly one of
    [reindexed], [deleted] and the number of recorded errors. *)
Record Progress (k : nat) (st st' : Stats) : Prop := mkProgress {
  pr_new : st_newFiles st' = st_newFiles st;
  pr_modified : st_modifiedFiles st' = st_modifiedFiles st;
  pr_deleted : st_deletedFiles st' = st_deletedFiles st;
  pr_indexed : st_indexed st' = st_indexed st;
  pr_reindexed : st_reindexed st <= st_reindexed st';
  pr_removed : st_deleted st <= st_deleted st';
  pr_errors : List.length (st_errors st) <= List.length (st_errors st');
  pr_sum : st_reindexed st' + st_deleted st' + List.length (st_errors st')
           = st_reindexed st + st_deleted st + List.length (st_errors st) + k
}.

(** [c] is the run of words [ws] of [l] that starts at position
    [char_start c] and stops before position [char_end c]. *)
Definition IsWindow (l : list string) (c : WordChunk) : Prop :=
  exists a ws b,
    l = a ++ ws ++ b /\ ws <> []
    /\ wc_text c = joinSp ws
    /\ char_start c = List.length a
    /\ char_end c = List.length a + List.length ws.

(** The state of the loop of [DocumentChunker.chunkText] after the words
    [pre], for a given number of overlap words. *)
Record WordInv (overlapWords : nat) (pre : list string) (st : WordState) : Prop := mkWordInv {
  wi_i : w_i st = List.length pre;
  wi_suffix : exists front, pre = front ++ w_current st;
  wi_nonempty : pre <> [] -> w_current st <> [];
  wi_index : w_index st = List.length (w_chunks st);
  wi_indices : map chunk_index (w_chunks st) = seq 0 (List.length (w_chunks st));
  wi_windows : Forall (IsWindow pre) (w_chunks st);
  wi_covered : forall k, k < List.length pre ->
                 (exists c, In c (w_chunks st) /\ char_start c <= k < char_end c)
                 \/ List.length pre - List.length (w_current st) <= k;
  wi_cumulative : overlapWords = 0 ->
                  w_current st = pre /\ Forall (fun c => char_start c = 0) (w_chunks st)
}.

(** Whether [s] begins with the literal [p], letter case apart when [ci]. *)
Fixpoint startsWith (ci : bool) (p s : string) : bool :=
  match p with
  | EmptyString => true
  | String c p' =>
      match s with
      | String d s' => Regex.litMatches ci c d && startsWith ci p' s'
      | EmptyString => false
      end
  end.

(** Whether the literal [p] occurs in [s]. *)
Fixpoint containsLit (ci : bool) (p s : string) : bool :=
  startsWith ci p s
  || match s with
     | String _ t => containsLit ci p t
     | EmptyString => false
     end.

(** Where a match of the literal [p] at the head of [s] ends: the last
    character consumed and the rest. *)
Fixpoint afterLit (p : string) (prev : option ascii) (s : string) : option ascii * string :=
  match p, s with
  | String _ p', String d s' => afterLit p' (Some d) s'
  | _, _ => (prev, s)
  end.

(* ------------------------------------------------------------------ *)
(** ** Text extraction: [extractTextFromDocContent] and the extractors

    The responses of the Google APIs are records whose optional fields are
    [option]s; an object is truthy, so [if (x.field)] tests presence. *)

Module Extract.

Record TextRun : Type := mkTextRun {
  tr_content : option string
}.

(** An entry of [paragraph.elements]. *)
Record ParagraphElement : Type := mkParagraphElement {
  pe_textRun : option TextRun
}.

Record Paragraph : Type := mkParagraph {
  par_elements : option (list ParagraphElement)
}.

(** An entry of [body.content] (which has a [paragraph]) or of
    [shape.text.textElements] (which has a [textRun]). *)
Record StructuralElement : Type := mkElement {
  el_paragraph : option Paragraph;
  el_textRun : option TextRun
}.

Record TextContent : Type := mkTextContent {
  textElements : option (list StructuralElement)
}.

Record Shape : Type := mkShape {
  shape_text : option TextContent
}.

Record PageElement : Type := mkPageElement {
  pe_shape : option Shape
}.

Record Slide : Type := mkSlide {
  pageElements : option (list PageElement)
}.

(** [text += run.content]: a missing [content] is appended as ['undefined']. *)
Definition contentOf (t : TextRun) : string :=
  match tr_content t with
  | Some s => s
  | None => "undefined"
  end.

(** [if (x.textRun) text += x.textRun.content] *)
Definition addRun (text : string) (r : option TextRun) : string :=
  match r with
  | Some t => text ++ contentOf t
  | None => text
  end.

(** The body of the loop over [content]. *)
Definition addElement (text : string) (element : StructuralElement) : string :=
  match el_paragraph element with
  | Some p =>
      fold_left (fun t textElement => addRun t (pe_textRun textElement))
                (match par_elements p with Some l => l | None => [] end)
                text
  | None => addRun text (el_textRun element)
  end.

Definition extractTextFromDocContent (content : option (list StructuralElement)) : string :=
  match content with
  | None => EmptyString
  | Some l => fold_left addElement l EmptyString
  end.

Definition twoLineBreaks : string := nlStr ++ nlStr.

(** The body of the loop over [slide.pageElements]. *)
Definition addPageElement (text : string) (element : PageElement) : string :=
  match pe_shape element with
  | Some sh =>
      match shape_text sh with
      | Some tc => text ++ (extractTextFromDocContent (textElements tc) ++ twoLineBreaks)
      | None => text
      end
  | None => text
  end.

Definition addSlide (text : string) (slide : Slide) : string :=
  match pageElements slide with
  | Some l => fold_left addPageElement l text
  | None => text
  end.

Definition slidesText (slides : list Slide) : string :=
  fold_left addSlide slides EmptyString.

(** The services behind the extractors.  [documentsGet] is
    [doc.data.body.content], [presentationsGet] is [presentation.data.slides]
    (absent for a deck without slides), [spreadsheetsGet] gives the sheet
    titles, [valuesGet] is [result.data.values] of a sheet, [parsePdf] is the
    text found by [pdf-parse] in the downloaded file, and [ocrPages] the
    texts recognised on the rendered pages. *)
Record GoogleApis : Type := mkGoogleApis {
  documentsGet : string -> result (option (list StructuralElement));
  presentationsGet : string -> result (option (list Slide));
  spreadsheetsGet : string -> result (list string);
  valuesGet : string -> string -> result (option (list (list string)));
  parsePdf : string -> result string;
  ocrPages : string -> result (list string)
}.

Section Extractors.

Variable api : GoogleApis.

Definition extractGoogleDoc (fileId : string) : result string :=
  bindR (documentsGet api fileId) (fun content => Ok (extractTextFromDocContent content)).

(** [for (const slide of undefined)] raises a [TypeError]. *)
Definition extractGoogleSlides (fileId : string) : result string :=
  bindR (presentationsGet api fileId)
        (fun slides =>
           match slides with
           | Some l => Ok (slidesText l)
           | None => Throw "presentation.data.slides is not iterable"
           end).

(** [text += row.join(' | ') + '\n'] *)
Definition addRow (text : string) (row : list string) : string :=
  text ++ (String.concat " | " row ++ nlStr).

(** The loop over [spreadsheet.data.sheets], from the text built so far. *)
Fixpoint sheetsLoop (fileId : string) (sheets : list string) (text : string)
  : result string :=
  match sheets with
  | [] => Ok text
  | sheetName :: rest =>
      let text1 := (text ++ ("Sheet: " ++ sheetName ++ twoLineBreaks))%string in
      match valuesGet api fileId sheetName with
      | Throw m => Throw m
      | Ok values =>
          let text2 := match values with
                       | Some rows => fold_left addRow rows text1
                       | None => text1
                       end in
          sheetsLoop fileId rest (text2 ++ twoLineBreaks)%string
      end
  end.

Definition extractGoogleSheets (fileId : string) : result string :=
  bindR (spreadsheetsGet api fileId) (fun sheets => sheetsLoop fileId sheets EmptyString).

(** [fullText += text + '\n\n'] over the recognised pages. *)
Definition pagesText (pages : list string) : string :=
  fold_left (fun fullText text => (fullText ++ (text ++ twoLineBreaks))%string)
            pages EmptyString.

(** [IntelligentSync.extractPDF]: the parsed text when its trimmed length is
    over 50, the recognised text otherwise. *)
Definition extractPDF (fileId : string) : result string :=
  bindR (parsePdf api fileId)
        (fun text =>
           if (50 <? String.length (Js.trim text))%nat then Ok text
           else bindR (ocrPages api fileId) (fun pages => Ok (pagesText pages))).

(** [PineconeCatalogSyncer.extractPDF] has no fallback. *)
Definition catalogExtractPDF (fileId : string) : result string :=
  parsePdf api fileId.

(** The collaborators of [IntelligentSync] over these services. *)
Definition collaborators (embed : string -> result Embedding)
    (rejectUpsert : list Vec -> bool) (rejectDelete : list VecId -> bool) : Collaborators :=
  mkCollaborators extractGoogleDoc extractGoogleSlides extractGoogleSheets extractPDF
                  embed rejectUpsert rejectDelete.

(** The collaborators of [PineconeCatalogSyncer]. *)
Definition catalogCollaborators (embed : string -> result Embedding)
    (rejectUpsert : list Vec -> bool) (rejectDelete : list VecId -> bool) : Collaborators :=
  mkCollaborators extractGoogleDoc extractGoogleSlides extractGoogleSheets catalogExtractPDF
                  embed rejectUpsert rejectDelete.

End Extractors.

(** The strings of a list, one after the other. *)
Definition joinAll (l : list string) : string := fold_right String.append EmptyString l.

(** The texts of the shapes that have one, slide after slide. *)
Definition shapeTexts (slides : list Slide) : list string :=
  flat_map (fun slide =>
              flat_map (fun element =>
                          match pe_shape element with
                          | Some sh =>
                              match shape_text sh with
                              | Some tc => [extractTextFromDocContent (textElements tc)]
                              | None => []
                              end
                          | None => []
                          end)
                       (match pageElements slide with Some l => l | None => [] end))
           slides.

(** The text contributed by one element of a content array. *)
Definition elementText (element : StructuralElement) : string :=
  addElement EmptyString element.

(** The text of one sheet, given its rows. *)
Definition sheetText (sheetName : string) (values : option (list (list string))) : string :=
  (("Sheet: " ++ sheetName ++ twoLineBreaks)
   ++ joinAll (map (fun row => String.concat " | " row ++ nlStr)%string
                   (match values with Some rows => rows | None => [] end))
   ++ twoLineBreaks)%string.

(** What [values.get] returned for a sheet, when it returned. *)
Definition valuesOf (api : GoogleApis) (fileId sheetName : string)
  : option (list (list string)) :=
  match valuesGet api fileId sheetName with
  | Ok v => v
  | Throw _ => None
  end.

End Extract.

(* ------------------------------------------------------------------ *)
(** ** The Drive scan: [scanGoogleDrive]

    The Drive below the root folder, as the listing calls see it.  A node is
    an item together with the answer of [drive.files.list] for its id, which
    is consulted only when the item is a folder: either the call is rejected
    (with a message), or it returns the items of the folder.  The request
    has [pageSize: 1000] and the response's page token is never followed, so
    a call yields the first 1000 items of a longer folder. *)

Module Scan.

#[local] Set Warnings "-register-all".
Inductive DriveNode : Type :=
| Node (item : DriveFile) (rejected : option string) (children : list DriveNode).

Definition itemOf (n : DriveNode) : DriveFile :=
  match n with Node item _ _ => item end.

Definition pageSize : nat := 1000.

(** [{ ...item, path: filePath, folderId }]; [folderId], which nothing reads,
    is left out. *)
Definition withPath (item : DriveFile) (path : string) : DriveFile :=
  mkDriveFile (file_id item) (file_name item) (file_mimeType item)
              (file_modifiedTime item) (file_createdTime item) (file_webViewLink item)
              (file_size item) (file_version item) (file_md5Checksum item) path.

Record FolderInfo : Type := mkFolderInfo {
  folder_id : string;
  folder_name : string;
  folder_path : string
}.

(** [allFiles] and [this.folderTree]. *)
Record ScanState : Type := mkScan {
  allFiles : list DriveFile;
  folderTree : JsMap.t FolderInfo
}.

Definition isEmpty (s : string) : bool := String.eqb s EmptyString.

(** [path ? `${path}/${item.name}` : item.name] *)
Definition folderPathOf (path : string) (item : DriveFile) : string :=
  if isEmpty path then file_name item else (path ++ "/" ++ file_name item)%string.

(** [path || 'Root'] *)
Definition filePathOf (path : string) : string :=
  if isEmpty path then "Root" else path.

Definition enterFolder (st : ScanState) (item : DriveFile) (folderPath : string) : ScanState :=
  mkScan (allFiles st)
         (JsMap.set (folderTree st) (file_id item)
                    (mkFolderInfo (file_id item) (file_name item) folderPath)).

Definition pushFile (st : ScanState) (item : DriveFile) (path : string) : ScanState :=
  mkScan (allFiles st ++ [withPath item (filePathOf path)]) (folderTree st).

(** One turn of the loop of [scanFolder(folderId, path)] on the item of node
    [n]; for a folder, the recursive call runs through the first page of its
    listing. *)
Fixpoint scanItem (path : string) (n : DriveNode) (st : ScanState) {struct n}
  : result ScanState :=
  match n with
  | Node item rejected children =>
      if String.eqb (file_mimeType item) Mime.folder then
        let folderPath := folderPathOf path item in
        match rejected with
        | Some m => Throw m
        | None =>
            (fix scanPage (k : nat) (l : list DriveNode) (s : ScanState) {struct l}
               : result ScanState :=
               match k, l with
               | S k', c :: l' =>
                   match scanItem folderPath c s with
                   | Throw m => Throw m
                   | Ok s' => scanPage k' l' s'
                   end
               | _, _ => Ok s
               end) pageSize children (enterFolder st item folderPath)
        end
      else Ok (pushFile st item path)
  end.

(** The loop over at most [k] items of a listing. *)
Fixpoint scanItems (path : string) (k : nat) (l : list DriveNode) (st : ScanState)
  : result ScanState :=
  match k, l with
  | S k', c :: l' =>
      match scanItem path c st with
      | Throw m => Throw m
      | Ok st' => scanItems path k' l' st'
      end
  | _, _ => Ok st
  end.

(** [scanGoogleDrive(rootFolderId)], given the answer of the listing of the
    root folder. *)
Definition scanGoogleDrive (rejected : option string) (children : list DriveNode)
  : result (list DriveFile) :=
  match rejected with
  | Some m => Throw m
  | None => bindR (scanItems EmptyString pageSize children (mkScan [] []))
                  (fun st => Ok (allFiles st))
  end.

(** An item that the scan hands on: not a folder, and with a path. *)
Definition Listed (f : DriveFile) : Prop :=
  file_mimeType f <> Mime.folder /\ file_path f <> EmptyString.

Definition isFile (n : DriveNode) : bool :=
  negb (String.eqb (file_mimeType (itemOf n)) Mime.folder).

End Scan.

(* ------------------------------------------------------------------ *)
(** ** The first scanner: [GoogleDriveScanner] (indexer/google-drive.js) *)

Module Legacy.
Import Regex.
Import Scan.

(** [archived?] *)
Definition archived : regex := Cat (Str "archive") (Opt (Lit "d")).

(** [[_-]] *)
Definition isSeparator (c : ascii) : bool := Ascii.eqb c "_" || Ascii.eqb c "-".

(** [excludePatterns]; each has the [i] flag. *)
Definition excludePatterns : list regex :=
  [ archived;
    Str "old";
    Str "deprecated";
    Cat (Lit "[") (Cat archived (Lit "]"));
    Cat (Lit "_") (Cat archived (Lit "_"));
    Cat archived (Class isSeparator);
    Cat (Class isSeparator) archived;
    Str "backup" ].

(** [excludePatterns.some(pattern => pattern.test(name))] *)
Definition shouldExclude (name : string) : bool :=
  existsb (fun pattern => test true pattern name) excludePatterns.

(** An entry of the result of [listFiles]. *)
Record ListedFile : Type := mkListedFile {
  lf_id : string;
  lf_name : string;
  lf_mimeType : string;
  lf_modifiedTime : Z;
  lf_path : string;
  lf_url : string
}.

Definition typeError : string :=
  "Cannot read properties of undefined (reading 'shouldExclude')".

Section ListFiles.

(** [path.join] of Node. *)
Variable pathJoin : string -> string -> string.

Definition listedOf (file : DriveFile) (currentPath : string) : ListedFile :=
  mkListedFile (file_id file) (file_name file) (file_mimeType file)
               (file_modifiedTime file) currentPath
               ("https://drive.google.com/file/d/" ++ file_id file ++ "/view").

(** One turn of the loop of [scanFolder(drive, parentId, parentPath)] on the
    item of node [c].  [scanFolder] is a plain function: [this] says whether
    the call at hand has the scanner as its [this].  The first call is made
    with [scanFolder.call(this, ...)]; the recursive one is a plain call, in
    which [this] is [undefined] (the file is a module), so that there
    [this.shouldExclude] raises a [TypeError]. *)
Fixpoint visit (this : bool) (parentPath : string) (c : DriveNode) (acc : list ListedFile)
    {struct c} : result (list ListedFile) :=
  match c with
  | Node file rejected children =>
      let currentPath := pathJoin parentPath (file_name file) in
      if negb this then Throw typeError
      else if shouldExclude (file_name file) then Ok acc
      else if String.eqb (file_mimeType file) Mime.folder then
        match rejected with
        | Some m => Throw m
        | None =>
            (fix page (k : nat) (l : list DriveNode) (a : list ListedFile) {struct l}
               : result (list ListedFile) :=
               match k, l with
               | S k', d :: l' =>
                   match visit false currentPath d a with
                   | Throw m => Throw m
                   | Ok a' => page k' l' a'
                   end
               | _, _ => Ok a
               end) pageSize children acc
        end
      else Ok (acc ++ [listedOf file currentPath])
  end.

(** The loop over at most [k] items of a listing. *)
Fixpoint visitAll (this : bool) (parentPath : string) (k : nat) (l : list DriveNode)
    (acc : list ListedFile) : result (list ListedFile) :=
  match k, l with
  | S k', c :: l' =>
      match visit this parentPath c acc with
      | Throw m => Throw m
      | Ok acc' => visitAll this parentPath k' l' acc'
      end
  | _, _ => Ok acc
  end.

(** [listFiles(folderId)], given the answer of the listing of that folder. *)
Definition listFiles (rejected : option string) (children : list DriveNode)
  : result (list ListedFile) :=
  match rejected with
  | Some m => Throw m
  | None => visitAll true EmptyString pageSize children []
  end.

(** The items of the first page whose names are not excluded. *)
Definition seen (children : list DriveNode) : list DriveNode :=
  filter (fun c => negb (shouldExclude (file_name (itemOf c)))) (firstn pageSize children).

(** A folder whose listing is answered with no item. *)
Definition isEmptyFolder (c : DriveNode) : bool :=
  match c with
  | Node file None [] => String.eqb (file_mimeType file) Mime.folder
  | _ => false
  end.

Definition rootEntry (c : DriveNode) : ListedFile :=
  listedOf (itemOf c) (pathJoin EmptyString (file_name (itemOf c))).

End ListFiles.

End Legacy.

(* ------------------------------------------------------------------ *)
(** ** The cutoff over the indexed documents, and [run] from the scan on *)

(** The cutoff as the specification words it: the greatest
    [File.lastSyncDate] among the indexed documents (the entries of the two
    tables of the loader), and the 30-day lookback when no document has one.
    The code uses [cutoffDate (latestSyncDate st)], where [latestSyncDate]
    is tracked over every scanned record. *)
Definition latestDocumentSync (st : PineconeState) : option Z :=
  fold_left trackLatest (map pd_lastSyncDate (allPineconeFiles st)) None.

Definition documentCutoff (st : PineconeState) (now : Z) : Z :=
  cutoffDate (latestDocumentSync st) now.

(** [run()] with its first step,
    [const allFiles = await this.scanGoogleDrive(rootFolderId)]: a rejected
    listing rejects [run] before the index is read. *)
Definition runOnDrive (env : Collaborators) (now : Z) (rejected : option string)
    (children : list Scan.DriveNode) (w : World) : result RunOutcome * World :=
  match Scan.scanGoogleDrive rejected children with
  | Throw m => (Throw m, w)
  | Ok allFiles => run env now allFiles w
  end.


(* ------------------------------------------------------------------ *)
(** ** Sample data used by the worked examples *)

Module Sample.

Definition day (d : Z) : Z := midnightUTC d.

Definition file (id name mime : string) (modified : Z) : DriveFile :=
  mkDriveFile id name mime modified modified EmptyString None None None "Root".

Definition sizedFile (id name mime : string) (modified size : Z) : DriveFile :=
  mkDriveFile id name mime modified modified EmptyString (Some size) None None "Root".

Definition meta (id name : option string) (modifiedDay syncDay : option Z)
    (size : option Z) : Metadata :=
  mkMetadata id name modifiedDay syncDay None None size None EmptyString "chunk text" Mime.pdf 1 1.

Definition vec (i : string) (m : Metadata) : Vec := mkVec (ExtId i) [] m.

(** Collaborators that always succeed: every document has the text [body]. *)
Definition collaborators (body : string) : Collaborators :=
  mkCollaborators (fun _ => Ok body) (fun _ => Ok body) (fun _ => Ok body)
                  (fun _ => Ok body) (fun _ => Ok []) (fun _ => false) (fun _ => false).

Definition body : string :=
  "Quarterly pricing guidance for the enterprise tier, with regional discounts and approval steps.".

Definition world (idx : Index) : World := mkWorld idx 0 [].

Definition changesOf (r : result Changes) : Changes :=
  match r with Ok ch => ch | Throw _ => mkChanges [] [] [] end.

(** An index holding one document synced on day 20010, and the same Drive
    item, last modified on day 20005 but 4000 bytes larger. *)
Definition pricingIndex : Index :=
  [vec "v1" (meta (Some "A") (Some "Pricing") (Some 20000%Z) (Some 20010%Z) (Some 5000%Z))].

Definition pricingFile : DriveFile :=
  sizedFile "A" "Pricing" Mime.pdf (day 20005 + 1000) 9000.

Definition pricingDoc : PineconeData :=
  mkPineconeData (Some "A") (Some "Pricing") (Some 20000%Z) (Some 20010%Z) 0
                 None (Some 5000%Z) 1 true.

Definition someNow : Z := day 20020 + 3600000.

(** Two indexed documents whose names both contain the name of [playbook]. *)
Definition playbookIndex : Index :=
  [vec "x1" (meta (Some "X") (Some "Retail Media Measurement Playbook for Brands - EMEA")
                  (Some 20000%Z) (Some 20010%Z) None);
   vec "y1" (meta (Some "Y") (Some "Retail Media Measurement Playbook for Brands - APAC")
                  (Some 20000%Z) (Some 20010%Z) None)].

Definition playbook : DriveFile :=
  file "Z" "Retail Media Measurement Playbook for Brands" Mime.presentation (day 20001).

(** The three renditions of one report. *)
Definition reportPdf : DriveFile := file "r1" "Report.pdf" Mime.pdf (day 20003).
Definition reportPptx : DriveFile := file "r2" "Report.pptx" Mime.pptx (day 20004).
Definition reportSlides : DriveFile := file "r3" "Report" Mime.presentation (day 20001).

(** Two copies of one document, saved at the same instant in two folders. *)
Definition planA : DriveFile := file "pA" "Plan" Mime.document (day 20002).
Definition planB : DriveFile := file "pB" "Plan" Mime.document (day 20002).

Definition outcomeOf (r : result RunOutcome * World) : RunOutcome :=
  match fst r with
  | Ok o => o
  | Throw _ => mkOutcome 1 (mkCounters 0 0 0 0) (mkChanges [] [] []) []
  end.

(** Collaborators whose document extraction fails for the item "bad". *)
Definition flaky : Collaborators :=
  mkCollaborators
    (fun id => if String.eqb id "bad" then Throw "extraction failed" else Ok body)
    (fun _ => Ok body) (fun _ => Ok body) (fun _ => Ok body)
    (fun _ => Ok []) (fun _ => false) (fun _ => false).

Definition goodDoc : DriveFile := file "good" "Launch Plan" Mime.document (day 20015).
Definition badDoc : DriveFile := file "bad" "Partner Brief" Mime.document (day 20015).

(** A chunk written by an older tool: it has a name but no [File.id]. *)
Definition legacyVec : Vec :=
  vec "legacy-1" (meta None (Some "Onboarding Deck") (Some 19990%Z) None None).

Definition deck : DriveFile :=
  file "D1" "Onboarding Deck" Mime.presentation (day 20015).

(** A chunk record with neither [File.id] nor [File.name], synced on day 20010. *)
Definition orphan : Vec := vec "o1" (meta None None None (Some 20010%Z) None).

(** A document synced on day 20000 and its Drive item, modified on day 20008. *)
Definition guideVec : Vec :=
  vec "g1" (meta (Some "G") (Some "Setup Guide") (Some 20000%Z) (Some 20000%Z) None).

Definition guide : DriveFile := file "G" "Setup Guide" Mime.document (day 20008 + 1000).

(** A document of the index that is no longer in the Drive listing. *)
Definition oldDeckVec : Vec :=
  vec "x1" (meta (Some "X") (Some "Old Deck") (Some 20000%Z) (Some 20010%Z) None).

(** A first run on an empty index at [someNow], and a second one an hour later. *)
Definition laterNow : Z := someNow + 3600000.

Definition firstRun : result RunOutcome * World :=
  run (collaborators body) someNow [guide] (world []).

(** An item modified at 00:00:01 on the very day of the runs. *)
Definition releaseNotes : DriveFile :=
  file "T" "Release Notes" Mime.document (day 20020 + 1000).

(** An indexed deck that was renamed in Drive, and another item whose name
    the old title contains. *)
Definition emeaVec : Vec :=
  vec "p1" (meta (Some "G") (Some "Retail Media Measurement Playbook for Brands - EMEA")
                 (Some 20000%Z) (Some 20010%Z) None).

Definition renamedDeck : DriveFile :=
  file "G" "EMEA Playbook" Mime.presentation (day 20015).

End Sample.
(* ------------------------------------------------------------------ *)
(** ** Further sample data *)

Module Sample2.

(** The indexed chunk of the item "bad", whose extraction fails under
    [Sample.flaky], and its entry on the MODIFIED list. *)
Definition badVec : Vec :=
  Sample.vec "b1" (Sample.meta (Some "bad") (Some "Partner Brief") (Some 20000%Z)
                               (Some 20010%Z) None).

Definition badEntry : ModifiedEntry :=
  mkModified Sample.badDoc legacySignals
             (newPineconeData (metadata badVec) (Some "bad") true) false.

End Sample2.

(** Services for the extraction examples: a deck of pictures, a spreadsheet
    with a sheet of prices and an empty sheet, and a scanned contract whose
    text comes from the recognition of its page. *)
Module SampleDocs.

Definition pictureDeck : list Extract.Slide :=
  [Extract.mkSlide None;
   Extract.mkSlide (Some [Extract.mkPageElement None;
                          Extract.mkPageElement (Some (Extract.mkShape None))])].

Definition api : Extract.GoogleApis :=
  Extract.mkGoogleApis
    (fun _ => Ok None)
    (fun _ => Ok (Some pictureDeck))
    (fun _ => Ok ["Prices"; "Notes"])
    (fun _ sheetName =>
       if String.eqb sheetName "Prices"
       then Ok (Some [["SKU"; "Price"]; ["A1"; "10"]])
       else Ok None)
    (fun _ => Ok "scan")
    (fun _ => Ok [Sample.body]).

Definition env : Collaborators :=
  Extract.collaborators api (fun _ => Ok []) (fun _ => false) (fun _ => false).

Definition scannedPdf : DriveFile :=
  Sample.file "P1" "Scanned Contract" Mime.pdf (Sample.day 20015).

End SampleDocs.

(** A Drive with a document at the root, a folder of decks next to it and
    an archive. *)
Module SampleDrive.

Definition decks : DriveFile :=
  Sample.file "F1" "Decks" Mime.folder (Sample.day 20001).

Definition oldDecks : DriveFile :=
  Sample.file "F2" "Decks (archived)" Mime.folder (Sample.day 19000).

Definition atRoot : Scan.DriveNode := Scan.Node Sample.goodDoc None [].

Definition deckFolder : Scan.DriveNode :=
  Scan.Node decks None [Scan.Node Sample.deck None []].

Definition archive : Scan.DriveNode :=
  Scan.Node oldDecks None [Scan.Node Sample.reportSlides None []].

(** [path.join] on names that need no normalisation. *)
Definition join (a b : string) : string :=
  if String.eqb a EmptyString then b else (a ++ "/" ++ b)%string.

End SampleDrive.

(** A document written to the index without a sync date, next to a record
    with neither id nor name that was synced on day 19960; and the Drive
    item of the document, modified on day 19980. *)
Module SampleCutoff.

Definition undatedVec : Vec :=
  Sample.vec "u1" (Sample.meta (Some "U") (Some "Field Guide") (Some 19970%Z) None None).

Definition oldOrphan : Vec :=
  Sample.vec "o2" (Sample.meta None None None (Some 19960%Z) None).

Definition fieldGuide : DriveFile :=
  Sample.file "U" "Field Guide" Mime.document (Sample.day 19980).

End SampleCutoff.

(** An index that rejects every [deleteMany]. *)
Module SampleAbort.

Definition readOnly : Collaborators :=
  mkCollaborators (fun _ => Ok Sample.body) (fun _ => Ok Sample.body)
                  (fun _ => Ok Sample.body) (fun _ => Ok Sample.body)
                  (fun _ => Ok []) (fun _ => false) (fun _ => true).

End SampleAbort.

(* ================================================================== *)
(** * Properties *)

(** ** Strings *)

Lemma prefix_app (sub s : string) :
  prefix sub s = true <-> exists post, s = (sub ++ post)%string.
Proof.
  revert s. induction sub as [|c sub IH]; intros s; simpl.
  - destruct s; simpl; split; eauto.
  - destruct s as [|d s]; simpl.
    + split; [discriminate | intros [post H]; discriminate].
    + destruct (ascii_dec c d) as [->|Hne].
      * rewrite IH. split; intros [post H]; exists post; congruence.
      * split; [discriminate | intros [post H]; congruence].
Qed.

(** [includes] decides the substring relation. *)
Lemma includes_spec (s sub : string) :
  Js.includes s sub = true <-> exists pre post, s = (pre ++ sub ++ post)%string.
Proof.
  induction s as [|c s IH]; cbn [Js.includes].
  - rewrite orb_false_r, prefix_app. split.
    + intros [post H]. exists EmptyString, post. exact H.
    + intros [pre [post H]]. destruct pre; simpl in H; [eauto | discriminate].
  - rewrite orb_true_iff, prefix_app, IH. split.
    + intros [[post H] | [pre [post H]]].
      * exists EmptyString, post. exact H.
      * exists (String c pre), post. simpl. congruence.
    + intros [pre [post H]]. destruct pre as [|d pre]; simpl in H.
      * left. eauto.
      * right. exists pre, post. congruence.
Qed.


(** ** C6: the fuzzy matcher *)

(** C6. Fuzzy-match threshold of [isSimilarName]: when either normalised name
    has at least 30 characters and one normalised name contains the other, the
    two names are reported as the same document; when both normalised names
    are shorter than 30 characters, the names match exactly when the
    normalised names are equal, so containment alone never merges them. *)
Theorem C6_fuzzy_match_threshold (name1 name2 : string) :
  let n1 := Names.normalizeName name1 in
  let n2 := Names.normalizeName name2 in
  ((30 <= String.length n1 \/ 30 <= String.length n2) ->
   (Contains n1 n2 \/ Contains n2 n1) ->
   Names.isSimilarName name1 name2 = true)
  /\
  (String.length n1 < 30 -> String.length n2 < 30 ->
   (Names.isSimilarName name1 name2 = true <-> n1 = n2))
  /\
  (String.length n1 < 30 -> String.length n2 < 30 -> n1 <> n2 ->
   Names.isSimilarName name1 name2 = false).
Proof.
  intros n1 n2. unfold Names.isSimilarName. fold n1 n2.
  destruct (String.eqb_spec n1 n2) as [Heq|Hne].
  - repeat split; auto; intros; congruence.
  - split; [|split].
    + intros Hlen Hc.
      assert (Hl : (30 <=? String.length n1)%nat || (30 <=? String.length n2)%nat = true).
      { apply orb_true_iff. destruct Hlen; [left|right]; now apply Nat.leb_le. }
      rewrite Hl. apply orb_true_iff.
      destruct Hc as [Hc|Hc]; [left|right]; now apply includes_spec.
    + intros H1 H2.
      assert (Hl : (30 <=? String.length n1)%nat || (30 <=? String.length n2)%nat = false).
      { apply orb_false_iff. split; apply Nat.leb_gt; assumption. }
      rewrite Hl. split; [discriminate | intros; contradiction].
    + intros H1 H2 _.
      assert (Hl : (30 <=? String.length n1)%nat || (30 <=? String.length n2)%nat = false).
      { apply orb_false_iff. split; apply Nat.leb_gt; assumption. }
      now rewrite Hl.
Qed.

Lemma C6_fuzzy_match_threshold_witness :
  Names.isSimilarName "Retail Media Measurement Playbook for Brands"
                      "Retail Media Measurement Playbook for Brands - EMEA edition.pdf" = true
  /\ Names.isSimilarName "Pricing" "Pricing FAQ" = false.
Proof.
  split.
  - apply (proj1 (C6_fuzzy_match_threshold
                    "Retail Media Measurement Playbook for Brands"
                    "Retail Media Measurement Playbook for Brands - EMEA edition.pdf")).
    + left. vm_compute. lia.
    + right. apply includes_spec. vm_compute. reflexivity.
  - apply (proj2 (proj2 (C6_fuzzy_match_threshold "Pricing" "Pricing FAQ"))).
    + vm_compute. lia.
    + vm_compute. lia.
    + vm_compute. discriminate.
Defined.

(** ** The change classifier *)

Lemma classifyLoop_members st now files : forall acc ch,
  classifyLoop st now files acc = Ok ch ->
  (forall f, In f (newFiles ch) <->
             In f (newFiles acc) \/ (In f files /\ classifyFile st now f = Ok NEW))
  /\ (forall e, In e (modifiedFiles ch) <->
                In e (modifiedFiles acc) \/
                (In (mod_file e) files /\
                 classifyFile st now (mod_file e) =
                   Ok (MODIFIED (mod_signals e) (mod_pineconeData e) (mod_legacy e))))
  /\ (forall f r, In (f, r) (unchangedFiles ch) <->
                  In (f, r) (unchangedFiles acc) \/
                  (In f files /\ classifyFile st now f = Ok (UNCHANGED r)))
  /\ (forall f, In f files -> exists c, classifyFile st now f = Ok c).
Proof.
  induction files as [|file rest IH]; intros acc ch H; simpl in H.
  - inversion H; subst. simpl. repeat split; intros; tauto.
  - destruct (classifyFile st now file) as [c|m] eqn:Hc; simpl in H; [|discriminate].
    specialize (IH _ _ H). destruct IH as (IHn & IHm & IHu & IHt).
    split; [|split; [|split]].
    + intros f. rewrite IHn. simpl.
      destruct c; simpl; rewrite ?in_app_iff; simpl.
      * split; [intros [[?|[?|[]]]|[? ?]] | intros [?|[[?|?] ?]]]; subst; auto.
      * split; [intros [?|[? ?]] | intros [?|[[?|?] ?]]]; subst; auto; congruence.
      * split; [intros [?|[? ?]] | intros [?|[[?|?] ?]]]; subst; auto; congruence.
    + intros e. rewrite IHm. simpl.
      destruct c; simpl; rewrite ?in_app_iff; simpl.
      * split; [intros [?|[? ?]] | intros [?|[[?|?] ?]]]; subst; auto; congruence.
      * split; [intros [[?|[?|[]]]|[? ?]] | intros [?|[[?|?] ?]]]; subst; simpl; auto.
        destruct e as [ef es ep el]; simpl in *. subst.
        rewrite Hc in H1. inversion H1; subst. auto.
      * split; [intros [?|[? ?]] | intros [?|[[?|?] ?]]]; subst; auto; congruence.
    + intros f r. rewrite IHu. simpl.
      destruct c; simpl; rewrite ?in_app_iff; simpl.
      * split; [intros [?|[? ?]] | intros [?|[[?|?] ?]]]; subst; auto; congruence.
      * split; [intros [?|[? ?]] | intros [?|[[?|?] ?]]]; subst; auto; congruence.
      * split; [intros [[?|[?|[]]]|[? ?]] | intros [?|[[?|?] ?]]]; subst; auto.
        -- inversion H0; subst. auto.
        -- rewrite Hc in H1. inversion H1; subst. auto.
    + intros f [<-|Hin]; eauto.
Qed.

Lemma classifyChanges_members driveFiles st now ch :
  classifyChanges driveFiles st now = Ok ch ->
  (forall f, In f (newFiles ch) <-> In f driveFiles /\ classifyFile st now f = Ok NEW)
  /\ (forall e, In e (modifiedFiles ch) <->
                In (mod_file e) driveFiles /\
                classifyFile st now (mod_file e) =
                  Ok (MODIFIED (mod_signals e) (mod_pineconeData e) (mod_legacy e)))
  /\ (forall f r, In (f, r) (unchangedFiles ch) <->
                  In f driveFiles /\ classifyFile st now f = Ok (UNCHANGED r))
  /\ (forall f, In f driveFiles -> exists c, classifyFile st now f = Ok c).
Proof.
  intros H. apply classifyLoop_members in H. simpl in H.
  destruct H as (Hn & Hm & Hu & Ht). split; [|split; [|split]].
  - intros f. rewrite Hn. tauto.
  - intros e. rewrite Hm. tauto.
  - intros f r. rewrite Hu. tauto.
  - exact Ht.
Qed.

Lemma classifyLoop_total st now files : forall acc,
  (forall f, In f files -> exists c, classifyFile st now f = Ok c) ->
  exists ch, classifyLoop st now files acc = Ok ch.
Proof.
  induction files as [|file rest IH]; intros acc H; simpl.
  - eauto.
  - destruct (H file (or_introl eq_refl)) as [c Hc]. rewrite Hc. simpl.
    apply IH. intros f Hf. apply H. now right.
Qed.

(** ** The index state loader *)


Lemma loadStep_latest st mt :
  latestSyncDate (loadStep st mt) = trackLatest (latestSyncDate st) (lastSyncOf mt).
Proof.
  unfold loadStep, lastSyncOf.
  destruct (Js.truthy (File_id (metadata mt))).
  - destruct (File_id (metadata mt)); [|reflexivity].
    destruct (negb _); reflexivity.
  - destruct (Js.truthy (File_name (metadata mt))); [|reflexivity].
    destruct (File_name (metadata mt)); [|reflexivity].
    destruct (negb _); reflexivity.
Qed.

Lemma fold_loadStep_latest ms : forall st,
  latestSyncDate (fold_left loadStep ms st) =
  fold_left trackLatest (map lastSyncOf ms) (latestSyncDate st).
Proof.
  induction ms as [|m ms IH]; intros st; simpl; [reflexivity|].
  rewrite IH, loadStep_latest. reflexivity.
Qed.

Lemma trackLatest_fold_spec ds : forall init,
  match fold_left trackLatest ds init with
  | Some l =>
      (init = Some l \/ In (Some l) ds)
      /\ (forall d, init = Some d \/ In (Some d) ds -> (d <= l)%Z)
  | None => init = None /\ forall d, ~ In (Some d) ds
  end.
Proof.
  induction ds as [|o ds IH]; intros init; simpl.
  - destruct init as [l|]; [|split; auto].
    split; [auto|]. intros d [H|[]]. inversion H. lia.
  - specialize (IH (trackLatest init o)).
    destruct (fold_left trackLatest ds (trackLatest init o)) as [l|].
    + destruct IH as [Hatt Hub]. split.
      * destruct Hatt as [Hatt|Hatt]; [|auto].
        unfold trackLatest in Hatt. destruct o as [d|]; [|auto].
        destruct init as [i|]; [|inversion Hatt; subst; auto].
        destruct (i <? d)%Z; [inversion Hatt; subst; auto | auto].
      * intros d Hd.
        assert (Hmono : forall x, init = Some x ->
                  exists y, trackLatest init o = Some y /\ (x <= y)%Z).
        { intros x ->. unfold trackLatest. destruct o as [d'|]; [|exists x; split; [auto|lia]].
          destruct (Z.ltb_spec x d'); [exists d'|exists x]; split; auto; lia. }
        destruct Hd as [Hd|[Hd|Hd]].
        -- destruct (Hmono _ Hd) as [y [Hy Hle]].
           specialize (Hub y (or_introl Hy)). lia.
        -- subst o. unfold trackLatest in Hub.
           destruct init as [i|].
           ++ destruct (Z.ltb_spec i d).
              ** apply Hub. auto.
              ** specialize (Hub i (or_introl eq_refl)). lia.
           ++ apply Hub. auto.
        -- apply Hub. auto.
    + destruct IH as [Hn Hnone]. unfold trackLatest in Hn.
      destruct o as [d|].
      * destruct init as [i|]; [destruct (i <? d)%Z|]; discriminate.
      * split; [assumption|]. intros d [H|H]; [discriminate | exact (Hnone d H)].
Qed.

(** The global cutoff source: the greatest [File.lastSyncDate] among the
    records returned by the scan, if any record has one. *)
Lemma latestSyncDate_spec (ms : list Vec) :
  match latestSyncDate (loadFromMatches ms) with
  | Some l =>
      (exists v, In v ms /\ lastSyncOf v = Some l)
      /\ (forall v d, In v ms -> lastSyncOf v = Some d -> (d <= l)%Z)
  | None => forall v, In v ms -> lastSyncOf v = None
  end.
Proof.
  unfold loadFromMatches. rewrite fold_loadStep_latest. simpl.
  pose proof (trackLatest_fold_spec (map lastSyncOf ms) None) as H.
  destruct (fold_left trackLatest (map lastSyncOf ms) None) as [l|].
  - destruct H as [[H|H] Hub]; [discriminate|]. split.
    + apply in_map_iff in H. destruct H as [v [Hv Hin]]. eauto.
    + intros v d Hin Hd. apply Hub. right. rewrite <- Hd. now apply in_map.
  - destruct H as [_ H]. intros v Hin.
    destruct (lastSyncOf v) as [d|] eqn:Hd; [|reflexivity].
    exfalso. apply (H d). rewrite <- Hd. now apply in_map.
Qed.

(** ** C4: the cutoff short-circuit *)

(** C4 (as the code has it).  Cutoff short-circuit of [classifyChanges]: an
    item that is matched to an indexed document and whose modification
    instant is at or before the global sync cutoff is classified UNCHANGED
    ("not modified since last sync"), whatever its size, version, digest or
    date signals would be; it is neither NEW nor MODIFIED.  The cutoff is
    midnight UTC of the greatest [File.lastSyncDate] among the records
    returned by the index scan, whether or not the record belongs to an
    indexed document, or thirty days before the run when no scanned record
    carries one. *)
Theorem C4_cutoff_short_circuit
    (idx : Index) (now : Z) (driveFiles : list DriveFile) (ch : Changes)
    (file : DriveFile) (p : PineconeData) :
  let st := loadPineconeState idx in
  let cutoff := cutoffDate (latestSyncDate st) now in
  classifyChanges driveFiles st now = Ok ch ->
  In file driveFiles ->
  matchFile st file = Ok (Some p) ->
  (file_modifiedTime file <= cutoff)%Z ->
  (In (file, NotModifiedSinceLastSync (dateOf cutoff)) (unchangedFiles ch)
   /\ ~ In file (newFiles ch)
   /\ ~ In file (map mod_file (modifiedFiles ch)))
  /\ ((forall v, In v (queryAll idx) -> lastSyncOf v = None) ->
      cutoff = (now - 30 * msPerDay)%Z)
  /\ (forall v d, In v (queryAll idx) -> lastSyncOf v = Some d ->
      (midnightUTC d <= cutoff)%Z
      /\ exists v' d', In v' (queryAll idx) /\ lastSyncOf v' = Some d'
                       /\ cutoff = midnightUTC d').
Proof.
  intros st cutoff Hch Hin Hm Hle.
  assert (Hc : classifyFile st now file =
               Ok (UNCHANGED (NotModifiedSinceLastSync (dateOf cutoff)))).
  { unfold classifyFile. rewrite Hm. simpl. fold cutoff.
    apply Z.leb_le in Hle. rewrite Hle. reflexivity. }
  destruct (classifyChanges_members _ _ _ _ Hch) as (Hn & Hmo & Hu & _).
  split; [split; [|split]|].
  - apply Hu. auto.
  - intros H. apply Hn in H. destruct H as [_ H]. congruence.
  - intros H. apply in_map_iff in H. destruct H as [e [He Hie]].
    apply Hmo in Hie. destruct Hie as [_ Hie]. rewrite He in Hie. congruence.
  - pose proof (latestSyncDate_spec (queryAll idx)) as Hl.
    unfold cutoff, st, loadPineconeState.
    destruct (latestSyncDate (loadFromMatches (queryAll idx))) as [l|]; simpl.
    + destruct Hl as [[v0 [Hv0 Hl0]] Hub]. split.
      * intros Hnone. rewrite (Hnone v0 Hv0) in Hl0. discriminate.
      * intros v d Hv Hd. split.
        -- unfold midnightUTC, msPerDay. specialize (Hub v d Hv Hd). lia.
        -- exists v0, l. auto.
    + split.
      * intros _. unfold msPerDay. lia.
      * intros v d Hv Hd. rewrite (Hl v Hv) in Hd. discriminate.
Qed.

Lemma C4_cutoff_short_circuit_witness :
  In (Sample.pricingFile, NotModifiedSinceLastSync 20010)
     (unchangedFiles
        (Sample.changesOf
           (classifyChanges [Sample.pricingFile] (loadPineconeState Sample.pricingIndex)
                            Sample.someNow)))
  /\ sizeChanged (computeSignals Sample.pricingFile Sample.pricingDoc) = true.
Proof.
  split; [|reflexivity].
  refine (proj1 (proj1 (C4_cutoff_short_circuit Sample.pricingIndex Sample.someNow
                          [Sample.pricingFile] _ Sample.pricingFile Sample.pricingDoc
                          _ _ _ _))).
  - vm_compute. reflexivity.
  - left. reflexivity.
  - vm_compute. reflexivity.
  - vm_compute. discriminate.
Defined.

(** C4 as stated fails on the cutoff.  The one indexed document has no
    sync date, so that the cutoff over the indexed documents is the 30-day
    lookback; the item matched to it by id was modified forty days before
    the run, at or before that cutoff.  But the scan also returns a record
    with neither id nor name that was synced on day 19960: the code takes
    its cutoff from that record, the item is past it, the date signal is
    evaluated and the item is MODIFIED. *)
Lemma C4_cutoff_over_documents_counterexample :
  let st := loadPineconeState [SampleCutoff.undatedVec; SampleCutoff.oldOrphan] in
  let ch := Sample.changesOf (classifyChanges [SampleCutoff.fieldGuide] st Sample.someNow) in
  map pd_id (allPineconeFiles st) = [Some "U"]
  /\ map pd_lastSyncDate (allPineconeFiles st) = [None]
  /\ documentCutoff st Sample.someNow = (Sample.someNow - 30 * msPerDay)%Z
  /\ (exists p, matchFile st SampleCutoff.fieldGuide = Ok (Some p))
  /\ (file_modifiedTime SampleCutoff.fieldGuide <= documentCutoff st Sample.someNow)%Z
  /\ cutoffDate (latestSyncDate st) Sample.someNow = Sample.day 19960
  /\ map mod_file (modifiedFiles ch) = [SampleCutoff.fieldGuide]
  /\ unchangedFiles ch = [].
Proof.
  vm_compute. repeat split; try reflexivity.
  - eexists. reflexivity.
  - discriminate.
Qed.

(** ** C8: fuzzy candidates *)


Lemma findSimilar_first (fileName : string) (all : list PineconeData) :
  (forall q, In q all -> pd_name q <> None) ->
  match findSimilar all fileName with
  | Ok (Some p) =>
      exists pre post, all = pre ++ p :: post /\ SimilarTo fileName p
                       /\ forall x, In x pre -> ~ SimilarTo fileName x
  | Ok None => forall x, In x all -> ~ SimilarTo fileName x
  | Throw _ => False
  end.
Proof.
  induction all as [|p rest IH]; intros Hnames; cbn [findSimilar].
  - intros x [].
  - destruct (pd_name p) as [n|] eqn:Hn.
    + destruct (Names.isSimilarName fileName n) eqn:Hs.
      * exists [], rest. split; [reflexivity|]. split; [exists n; auto | intros x []].
      * assert (Hp : ~ SimilarTo fileName p).
        { intros [m [Hm Hsm]]. congruence. }
        specialize (IH (fun q Hq => Hnames q (or_intror Hq))).
        destruct (findSimilar rest fileName) as [[q|]|]; [| |contradiction].
        -- destruct IH as (pre & post & -> & Hq & Hpre).
           exists (p :: pre), post. split; [reflexivity|]. split; [assumption|].
           intros x [<-|Hx]; [exact Hp | exact (Hpre x Hx)].
        -- intros x [<-|Hx]; [exact Hp | exact (IH x Hx)].
    + exfalso. apply (Hnames p); [left; reflexivity | exact Hn].
Qed.

(** C8 (as the code has it). When an item has no id match and no exact-name
    match, and every indexed document carries a name: if at least one indexed
    document fuzzy-matches the item's name, the classifier accepts the first
    fuzzy-matching document in scan order (the id-keyed documents in insertion
    order, then the name-keyed ones), and the item is not NEW; the item is NEW
    exactly when no indexed document fuzzy-matches. *)
Theorem C8_first_fuzzy_candidate_accepted
    (st : PineconeState) (now : Z) (file : DriveFile) :
  JsMap.get (pineconeFiles st) (file_id file) = None ->
  JsMap.get (pineconeFilesByName st) (file_name file) = None ->
  (forall q, In q (allPineconeFiles st) -> pd_name q <> None) ->
  ((exists p, In p (allPineconeFiles st) /\ SimilarTo (file_name file) p) ->
   exists pre q post,
     allPineconeFiles st = pre ++ q :: post
     /\ SimilarTo (file_name file) q
     /\ (forall x, In x pre -> ~ SimilarTo (file_name file) x)
     /\ matchFile st file = Ok (Some q)
     /\ classifyFile st now file =
          Ok (classifyMatched (cutoffDate (latestSyncDate st) now) file (Some q))
     /\ classifyFile st now file <> Ok NEW)
  /\ ((forall p, In p (allPineconeFiles st) -> ~ SimilarTo (file_name file) p) ->
      classifyFile st now file = Ok NEW).
Proof.
  intros Hid Hname Hnames.
  pose proof (findSimilar_first (file_name file) _ Hnames) as Hf.
  unfold classifyFile, matchFile. rewrite Hid, Hname.
  destruct (findSimilar (allPineconeFiles st) (file_name file)) as [[q|]|];
    [| |contradiction].
  - destruct Hf as (pre & post & Hall & Hq & Hpre). split.
    + intros _. exists pre, q, post. simpl. repeat split; auto.
      destruct (file_modifiedTime file <=? _)%Z; [discriminate|].
      destruct (negb (hasFileId q)); [discriminate|].
      destruct (_ || _); discriminate.
    + intros Hnone. exfalso. apply (Hnone q); auto.
      rewrite Hall. apply in_or_app. right. left. reflexivity.
  - split.
    + intros [p [Hp Hs]]. exfalso. exact (Hf p Hp Hs).
    + intros _. reflexivity.
Qed.

Lemma C8_first_fuzzy_candidate_accepted_witness :
  classifyFile (loadPineconeState Sample.playbookIndex) Sample.someNow Sample.playbook
  <> Ok NEW.
Proof.
  destruct (C8_first_fuzzy_candidate_accepted
              (loadPineconeState Sample.playbookIndex) Sample.someNow Sample.playbook)
    as [H _].
  - vm_compute. reflexivity.
  - vm_compute. reflexivity.
  - intros q Hq. vm_compute in Hq. destruct Hq as [<-|[<-|[]]]; discriminate.
  - destruct H as (pre & q & post & _ & _ & _ & _ & _ & Hnew).
    + exists (mkPineconeData (Some "Y")
                (Some "Retail Media Measurement Playbook for Brands - APAC")
                (Some 20000%Z) (Some 20010%Z) 0 None None 1 true).
      split.
      * vm_compute. right. left. reflexivity.
      * eexists. split; [reflexivity|]. vm_compute. reflexivity.
    + exact Hnew.
Defined.

(** C8 as stated fails: two distinct indexed documents fuzzy-match the item,
    which has no id match and no exact-name match, and the classifier accepts
    the first of them instead of reporting the item as NEW. *)
Lemma C8_ambiguous_fuzzy_match_counterexample :
  let st := loadPineconeState Sample.playbookIndex in
  let docX := mkPineconeData (Some "X")
                (Some "Retail Media Measurement Playbook for Brands - EMEA")
                (Some 20000%Z) (Some 20010%Z) 0 None None 1 true in
  let docY := mkPineconeData (Some "Y")
                (Some "Retail Media Measurement Playbook for Brands - APAC")
                (Some 20000%Z) (Some 20010%Z) 0 None None 1 true in
  allPineconeFiles st = [docX; docY]
  /\ JsMap.get (pineconeFiles st) (file_id Sample.playbook) = None
  /\ JsMap.get (pineconeFilesByName st) (file_name Sample.playbook) = None
  /\ Names.isSimilarName (file_name Sample.playbook)
       "Retail Media Measurement Playbook for Brands - EMEA" = true
  /\ Names.isSimilarName (file_name Sample.playbook)
       "Retail Media Measurement Playbook for Brands - APAC" = true
  /\ matchFile st Sample.playbook = Ok (Some docX)
  /\ newFiles (Sample.changesOf (classifyChanges [Sample.playbook] st Sample.someNow)) = []
  /\ map fst (unchangedFiles
                (Sample.changesOf (classifyChanges [Sample.playbook] st Sample.someNow)))
     = [Sample.playbook].
Proof. vm_compute. repeat split; reflexivity. Qed.

(** ** Insertion-ordered maps *)

Lemma has_false_iff {V} (m : JsMap.t V) k :
  JsMap.has m k = false <-> ~ In k (JsMap.keys m).
Proof.
  unfold JsMap.has. induction m as [|[k' v] m IH]; simpl.
  - tauto.
  - destruct (String.eqb_spec k' k) as [->|Hne].
    + split; [discriminate | intros H; exfalso; auto].
    + rewrite IH. tauto.
Qed.

Lemma set_absent {V} (m : JsMap.t V) k v :
  ~ In k (JsMap.keys m) -> JsMap.set m k v = m ++ [(k, v)].
Proof.
  induction m as [|[k' v'] m IH]; simpl; intros H; [reflexivity|].
  destruct (String.eqb_spec k' k) as [->|Hne]; [exfalso; auto|].
  rewrite IH; auto.
Qed.

Lemma update_absent {V} (m : JsMap.t V) k f :
  ~ In k (JsMap.keys m) -> JsMap.update m k f = m.
Proof.
  induction m as [|[k' v'] m IH]; simpl; intros H; [reflexivity|].
  destruct (String.eqb_spec k' k) as [->|Hne]; [exfalso; auto|].
  rewrite IH; auto.
Qed.

Lemma update_app_last {V} (m : JsMap.t V) k v f :
  ~ In k (JsMap.keys m) -> JsMap.update (m ++ [(k, v)]) k f = m ++ [(k, f v)].
Proof.
  induction m as [|[k' v'] m IH]; simpl; intros H.
  - now rewrite String.eqb_refl.
  - destruct (String.eqb_spec k' k) as [->|Hne]; [exfalso; auto|].
    rewrite IH; auto.
Qed.


Lemma update_as_map {V} (m : JsMap.t V) k f :
  NoDup (JsMap.keys m) -> JsMap.update m k f = map (updAll k f) m.
Proof.
  induction m as [|[k' v'] m IH]; simpl; intros H; [reflexivity|].
  inversion H as [|? ? Hnotin Hnd]; subst. unfold updAll at 1. simpl.
  destruct (String.eqb_spec k' k) as [->|Hne].
  - f_equal. rewrite <- (update_absent m k f Hnotin) at 1.
    rewrite IH by assumption. reflexivity.
  - f_equal. apply IH. assumption.
Qed.

Lemma keys_map_updAll {V} (m : JsMap.t V) k f :
  JsMap.keys (map (updAll k f) m) = JsMap.keys m.
Proof.
  unfold JsMap.keys. rewrite map_map. apply map_ext.
  intros [k' v]. unfold updAll. simpl. destruct (String.eqb k' k); reflexivity.
Qed.

Lemma get_in {V} (m : JsMap.t V) k v :
  JsMap.get m k = Some v -> In (k, v) m.
Proof.
  induction m as [|[k' v'] m IH]; simpl; [discriminate|].
  destruct (String.eqb_spec k' k) as [->|Hne].
  - intros H; inversion H; auto.
  - auto.
Qed.

Lemma in_get {V} (m : JsMap.t V) k v :
  NoDup (JsMap.keys m) -> In (k, v) m -> JsMap.get m k = Some v.
Proof.
  induction m as [|[k' v'] m IH]; simpl; intros Hnd Hin; [contradiction|].
  inversion Hnd as [|? ? Hnotin Hnd']; subst.
  destruct Hin as [Heq|Hin].
  - inversion Heq; subst. now rewrite String.eqb_refl.
  - destruct (String.eqb_spec k' k) as [->|Hne].
    + exfalso. apply Hnotin. apply (in_map fst) in Hin. exact Hin.
    + auto.
Qed.

Lemma get_none_iff {V} (m : JsMap.t V) k :
  JsMap.get m k = None <-> ~ In k (JsMap.keys m).
Proof.
  rewrite <- has_false_iff. unfold JsMap.has. destruct (JsMap.get m k); split; congruence.
Qed.

(** ** The duplicate resolver *)





Lemma compare_le_iff a b :
  (0 <? byPriorityThenNewest a b)%Z = false <-> Preferred a b.
Proof.
  unfold byPriorityThenNewest, Preferred. rewrite Z.ltb_ge.
  destruct (Z.eqb_spec (priorityOf (file_mimeType a)) (priorityOf (file_mimeType b))); lia.
Qed.

Lemma Preferred_refl a : Preferred a a.
Proof. unfold Preferred. right. split; [reflexivity | lia]. Qed.

Lemma Preferred_trans a b c : Preferred a b -> Preferred b c -> Preferred a c.
Proof. unfold Preferred. lia. Qed.

Lemma Preferred_total a b : Preferred a b \/ Preferred b a.
Proof. unfold Preferred. lia. Qed.

Lemma jsSort_snoc {A} (cmp : A -> A -> Z) l x :
  jsSort cmp (l ++ [x]) = insertSorted cmp x (jsSort cmp l).
Proof. unfold jsSort. rewrite fold_left_app. reflexivity. Qed.

Lemma insertSorted_perm {A} (cmp : A -> A -> Z) x l :
  Permutation (insertSorted cmp x l) (x :: l).
Proof.
  induction l as [|y ys IH]; simpl; [reflexivity|].
  destruct (0 <? cmp y x)%Z; [reflexivity|].
  rewrite IH. apply perm_swap.
Qed.

Lemma jsSort_perm {A} (cmp : A -> A -> Z) l : Permutation (jsSort cmp l) l.
Proof.
  induction l as [|x l IH] using rev_ind; [reflexivity|].
  rewrite jsSort_snoc, insertSorted_perm, IH.
  apply Permutation_cons_append.
Qed.

(** The first element after sorting: a member preferred to every member,
    and the first such one in input order. *)
Lemma jsSort_head (l : list DriveFile) :
  l <> [] ->
  exists w rest, jsSort byPriorityThenNewest l = w :: rest
                 /\ In w l /\ forall y, In y l -> Preferred w y.
Proof.
  induction l as [|x l IH] using rev_ind; [congruence|]. intros _.
  rewrite jsSort_snoc.
  assert (Hl : l = [] \/ l <> []) by (destruct l; [left; reflexivity | right; discriminate]).
  destruct Hl as [->|Hl].
  - simpl. exists x, []. split; [reflexivity|]. split; [left; reflexivity|].
    intros y [<-|[]]. apply Preferred_refl.
  - destruct (IH Hl) as (w & rest & Hs & Hin & Hbest).
    rewrite Hs. simpl.
    destruct (0 <? byPriorityThenNewest w x)%Z eqn:Hc.
    + exists x, (w :: rest). split; [reflexivity|]. split.
      * apply in_or_app. right. left. reflexivity.
      * assert (Hxw : Preferred x w).
        { destruct (Preferred_total x w) as [H|H]; [exact H|].
          apply compare_le_iff in H. congruence. }
        intros y Hy. apply in_app_or in Hy. destruct Hy as [Hy|[<-|[]]].
        -- eapply Preferred_trans; [exact Hxw | apply Hbest; exact Hy].
        -- apply Preferred_refl.
    + exists w, (insertSorted byPriorityThenNewest x rest).
      split; [reflexivity|]. split.
      * apply in_or_app. left. exact Hin.
      * intros y Hy. apply in_app_or in Hy. destruct Hy as [Hy|[<-|[]]].
        -- apply Hbest; exact Hy.
        -- apply compare_le_iff. exact Hc.
Qed.

Lemma pickWinner_spec (g : list DriveFile) :
  g <> [] ->
  exists w, pickWinner g = [w] /\ In w g /\ forall y, In y g -> Preferred w y.
Proof.
  intros Hne. destruct g as [|x [|y g']]; [congruence| |].
  - exists x. split; [reflexivity|]. split; [left; reflexivity|].
    intros y [<-|[]]. apply Preferred_refl.
  - destruct (jsSort_head (x :: y :: g') Hne) as (w & rest & Hs & Hin & Hbest).
    exists w. unfold pickWinner. rewrite Hs. auto.
Qed.

Lemma pushGroup_cases (G : JsMap.t (list DriveFile)) x :
  NoDup (JsMap.keys G) ->
  (~ In (keyOf x) (JsMap.keys G) /\ pushGroup G x = G ++ [(keyOf x, [x])])
  \/ (In (keyOf x) (JsMap.keys G)
      /\ pushGroup G x = map (updAll (keyOf x) (fun g => g ++ [x])) G).
Proof.
  intros Hnd. unfold pushGroup. fold (keyOf x).
  destruct (JsMap.has G (keyOf x)) eqn:Hh; simpl.
  - right. split.
    + destruct (in_dec string_dec (keyOf x) (JsMap.keys G)) as [H|H]; [exact H|].
      apply has_false_iff in H. congruence.
    + apply update_as_map. exact Hnd.
  - left. apply has_false_iff in Hh. split; [exact Hh|].
    rewrite set_absent by exact Hh. rewrite update_app_last by exact Hh. reflexivity.
Qed.

Lemma filter_hasKey_none k l :
  (forall f, In f l -> keyOf f <> k) -> filter (hasKey k) l = [].
Proof.
  induction l as [|a l IH]; simpl; intros H; [reflexivity|].
  unfold hasKey at 1. destruct (String.eqb_spec (keyOf a) k) as [E|E].
  - exfalso. apply (H a); auto.
  - apply IH. intros f Hf. apply H. auto.
Qed.

(** The groups built by the first loop of [detectDuplicates]: one entry per
    distinct normalised name, holding the files of that name in input order. *)
Lemma groupFiles_spec (files : list DriveFile) :
  let G := groupFiles files in
  NoDup (JsMap.keys G)
  /\ (forall k g, In (k, g) G -> g = filter (hasKey k) files /\ g <> [])
  /\ (forall f, In f files -> In (keyOf f) (JsMap.keys G)).
Proof.
  induction files as [|x l IH] using rev_ind.
  - simpl. split; [constructor|]. split; intros; contradiction.
  - unfold groupFiles in *. rewrite fold_left_app. simpl.
    set (G := fold_left pushGroup l []) in *. simpl in IH.
    destruct IH as (Hnd & Hgr & Hk).
    destruct (pushGroup_cases G x Hnd) as [[Hnew ->]|[Hold ->]].
    + split; [|split].
      * unfold JsMap.keys. rewrite map_app. simpl.
        apply NoDup_app; [exact Hnd | constructor; [simpl; tauto|constructor] |].
        intros a Ha [<-|[]]. exact (Hnew Ha).
      * intros k g Hin. apply in_app_or in Hin. destruct Hin as [Hin|[Heq|[]]].
        -- destruct (Hgr k g Hin) as [Hg Hne]. split; [|exact Hne].
           rewrite filter_app. simpl. unfold hasKey at 2.
           destruct (String.eqb_spec (keyOf x) k) as [E|E].
           ++ exfalso. apply Hnew. rewrite E. apply (in_map fst) in Hin. exact Hin.
           ++ rewrite app_nil_r. exact Hg.
        -- inversion Heq; subst. split; [|discriminate].
           rewrite filter_app. simpl. unfold hasKey at 2. rewrite String.eqb_refl.
           rewrite filter_hasKey_none; [reflexivity|].
           intros f Hf E. apply Hnew. rewrite <- E. apply Hk. exact Hf.
      * intros f Hf. unfold JsMap.keys. rewrite map_app. apply in_or_app.
        apply in_app_or in Hf. destruct Hf as [Hf|[<-|[]]].
        -- left. apply Hk. exact Hf.
        -- right. left. reflexivity.
    + split; [|split].
      * rewrite keys_map_updAll. exact Hnd.
      * intros k g Hin. apply in_map_iff in Hin. destruct Hin as [[k' g'] [Hu Hin]].
        destruct (Hgr k' g' Hin) as [Hg Hne]. unfold updAll in Hu. simpl in Hu.
        rewrite filter_app. simpl. unfold hasKey at 2.
        destruct (String.eqb_spec k' (keyOf x)) as [E|E]; inversion Hu; subst.
        -- rewrite String.eqb_refl. split; [reflexivity|].
           intros H. apply app_eq_nil in H. destruct H; discriminate.
        -- destruct (String.eqb_spec (keyOf x) k) as [E'|E']; [congruence|].
           rewrite app_nil_r. auto.
      * intros f Hf. rewrite keys_map_updAll.
        apply in_app_or in Hf. destruct Hf as [Hf|[<-|[]]]; [apply Hk; exact Hf | exact Hold].
Qed.

Lemma winners_of_groups (files : list DriveFile) (G : JsMap.t (list DriveFile)) :
  (forall k g, In (k, g) G -> g = filter (hasKey k) files /\ g <> []) ->
  let ws := flat_map pickWinner (JsMap.values G) in
  map keyOf ws = JsMap.keys G
  /\ forall w, In w ws ->
       In w files /\ forall y, In y files -> keyOf y = keyOf w -> Preferred w y.
Proof.
  induction G as [|[k g] G IH]; intros Hgr; simpl.
  - split; [reflexivity | intros w []].
  - destruct (Hgr k g (or_introl eq_refl)) as [Hg Hne].
    destruct (pickWinner_spec g Hne) as (w0 & Hw0 & Hin0 & Hbest0).
    destruct (IH (fun k' g' H => Hgr k' g' (or_intror H))) as [IHk IHw].
    rewrite Hw0. simpl.
    assert (Hw0k : In w0 files /\ keyOf w0 = k).
    { rewrite Hg in Hin0. apply filter_In in Hin0. destruct Hin0 as [Hf Hk].
      unfold hasKey in Hk. apply String.eqb_eq in Hk. auto. }
    destruct Hw0k as [Hw0f Hw0k]. split.
    + f_equal; [exact Hw0k | exact IHk].
    + intros w [<-|Hw]; [|apply IHw; exact Hw].
      split; [exact Hw0f|]. intros y Hy Hky. apply Hbest0.
      rewrite Hg. apply filter_In. split; [exact Hy|].
      unfold hasKey. apply String.eqb_eq. congruence.
Qed.

Lemma detectDuplicates_spec (files : list DriveFile) :
  let winners := detectDuplicates files in
  NoDup (map keyOf winners)
  /\ (forall w, In w winners ->
        In w files /\ forall y, In y files -> keyOf y = keyOf w -> Preferred w y)
  /\ (forall f, In f files -> exists w, In w winners /\ keyOf w = keyOf f).
Proof.
  destruct (groupFiles_spec files) as (Hnd & Hgr & Hk).
  destruct (winners_of_groups files (groupFiles files) Hgr) as [Hkeys Hw].
  unfold detectDuplicates. simpl. split; [|split].
  - rewrite Hkeys. exact Hnd.
  - exact Hw.
  - intros f Hf. specialize (Hk f Hf). rewrite <- Hkeys in Hk.
    apply in_map_iff in Hk. destruct Hk as [w [E Hin]]. eauto.
Qed.

Lemma Preferred_antisym a b :
  Preferred a b -> Preferred b a ->
  priorityOf (file_mimeType a) = priorityOf (file_mimeType b)
  /\ file_modifiedTime a = file_modifiedTime b.
Proof. unfold Preferred. lia. Qed.

Lemma winner_iff_best (files : list DriveFile) :
  NoFullTie files ->
  forall w, In w (detectDuplicates files) <->
            In w files /\ forall y, In y files -> keyOf y = keyOf w -> Preferred w y.
Proof.
  intros Htie w. destruct (detectDuplicates_spec files) as (_ & Hw & Hex).
  split; [apply Hw|]. intros [Hin Hbest].
  destruct (Hex w Hin) as (w' & Hw' & Hk).
  destruct (Hw w' Hw') as [Hin' Hbest'].
  destruct (Preferred_antisym w w') as [Hp Ht].
  - apply Hbest; assumption.
  - apply Hbest'; [assumption | congruence].
  - rewrite (Htie w w' Hin Hin' (eq_sym Hk) Hp Ht). exact Hw'.
Qed.

Lemma NoFullTie_perm files files' :
  Permutation files files' -> NoFullTie files -> NoFullTie files'.
Proof.
  intros Hp H a b Ha Hb. apply H; eapply Permutation_in; try eassumption;
    apply Permutation_sym; exact Hp.
Qed.

(** C5 (as the code has it). Duplicate resolution of [detectDuplicates]:
    every group of items with the same normalised name gets exactly one
    winner, a member of the group with the best format priority and, among
    those, the newest modification instant.  The format and the instant of a
    group's winner do not depend on the input order, and the winners
    themselves do not depend on it as long as no two distinct members of a
    group agree on both format and instant.  For "Report.pdf", "Report.pptx"
    and the native slide deck "Report", the winner has the native slide
    format in every input order, and it is the deck "Report" when
    "Report.pptx" is an Office file. *)
Theorem C5_duplicate_resolution (files : list DriveFile) :
  let winners := detectDuplicates files in
  (NoDup (map keyOf winners)
   /\ (forall f, In f files -> exists w, In w winners /\ keyOf w = keyOf f)
   /\ (forall w, In w winners -> In w files))
  /\ (forall w f, In w winners -> In f files -> keyOf f = keyOf w -> Preferred w f)
  /\ (forall files', Permutation files files' ->
        (forall w, In w winners ->
              exists w', In w' (detectDuplicates files') /\ keyOf w' = keyOf w
                      /\ priorityOf (file_mimeType w') = priorityOf (file_mimeType w)
                      /\ file_modifiedTime w' = file_modifiedTime w)
        /\ (NoFullTie files ->
            forall w, In w winners <-> In w (detectDuplicates files')))
  /\ (forall pdf pptx slides,
        file_name pdf = "Report.pdf" -> file_mimeType pdf = Mime.pdf ->
        file_name pptx = "Report.pptx" ->
        (file_mimeType pptx = Mime.pptx \/ file_mimeType pptx = Mime.presentation) ->
        file_name slides = "Report" -> file_mimeType slides = Mime.presentation ->
        Permutation files [pdf; pptx; slides] ->
        exists w, winners = [w]
                  /\ file_mimeType w = Mime.presentation
                  /\ (file_mimeType pptx = Mime.pptx -> w = slides)).
Proof.
  intros winners.
  destruct (detectDuplicates_spec files) as (Hnd & Hw & Hex). fold winners in Hnd, Hw, Hex.
  assert (Hattr : forall files', Permutation files files' ->
            forall w, In w winners ->
              exists w', In w' (detectDuplicates files') /\ keyOf w' = keyOf w
                         /\ priorityOf (file_mimeType w') = priorityOf (file_mimeType w)
                         /\ file_modifiedTime w' = file_modifiedTime w).
  { intros files' Hp w Hin.
    destruct (detectDuplicates_spec files') as (_ & Hw' & Hex').
    destruct (Hw w Hin) as [Hf Hbest].
    destruct (Hex' w (Permutation_in _ Hp Hf)) as (w' & Hin' & Hk).
    destruct (Hw' w' Hin') as [Hf' Hbest'].
    exists w'. split; [exact Hin'|]. split; [exact Hk|].
    apply Preferred_antisym.
    - apply Hbest'; [eapply Permutation_in; eassumption | congruence].
    - apply Hbest; [eapply Permutation_in; [apply Permutation_sym|]; eassumption
                   | exact Hk]. }
  split; [|split; [|split]].
  - split; [exact Hnd|]. split; [exact Hex | intros w H; apply Hw; exact H].
  - intros w f Hin Hf Hk. apply (Hw w Hin); assumption.
  - intros files' Hp. split.
    + apply Hattr. exact Hp.
    + intros Htie w. unfold winners.
      rewrite (winner_iff_best files Htie).
      rewrite (winner_iff_best files' (NoFullTie_perm _ _ Hp Htie)).
      split; intros [Hin Hbest]; (split;
        [eapply Permutation_in; [|exact Hin]; auto using Permutation_sym
        | intros y Hy; apply Hbest; eapply Permutation_in; [|exact Hy];
          auto using Permutation_sym]).
  - intros pdf pptx slides Hn1 Hm1 Hn2 Hm2 Hn3 Hm3 Hp.
    assert (Hkey : forall f, In f files -> keyOf f = "report").
    { intros f Hf. apply (Permutation_in _ Hp) in Hf.
      destruct Hf as [<-|[<-|[<-|[]]]]; unfold keyOf;
        [rewrite Hn1 | rewrite Hn2 | rewrite Hn3]; reflexivity. }
    assert (Hs : In slides files).
    { apply (Permutation_in _ (Permutation_sym Hp)). simpl. auto. }
    destruct (Hex slides Hs) as (w & Hin & Hk).
    assert (Hws : file_mimeType w = Mime.presentation
                  /\ (file_mimeType pptx = Mime.pptx -> w = slides)).
    { destruct (Hw w Hin) as [Hf Hbest].
      specialize (Hbest slides Hs (eq_sym Hk)).
      apply (Permutation_in _ Hp) in Hf.
      destruct Hf as [<-|[<-|[<-|[]]]].
      - exfalso. unfold Preferred in Hbest. rewrite Hm1, Hm3 in Hbest.
        vm_compute in Hbest. destruct Hbest as [H|[H _]]; discriminate.
      - destruct Hm2 as [Hm2|Hm2].
        + exfalso. unfold Preferred in Hbest. rewrite Hm2, Hm3 in Hbest.
          vm_compute in Hbest. destruct Hbest as [H|[H _]]; discriminate.
        + split; [exact Hm2|]. intros Hx. rewrite Hx in Hm2. discriminate.
      - split; [exact Hm3 | reflexivity]. }
    exists w. split; [|exact Hws].
    destruct winners as [|a [|b ws]] eqn:E.
    + contradiction.
    + destruct Hin as [->|[]]. reflexivity.
    + exfalso. simpl in Hnd.
      assert (Ha : keyOf a = "report") by (apply Hkey, Hw; left; reflexivity).
      assert (Hb : keyOf b = "report") by (apply Hkey, Hw; right; left; reflexivity).
      inversion Hnd as [|? ? Hnotin _]; subst. apply Hnotin. left. congruence.
Qed.

Lemma C5_duplicate_resolution_witness :
  detectDuplicates [Sample.reportPdf; Sample.reportSlides; Sample.reportPptx]
  = [Sample.reportSlides]
  /\ (forall w, In w (detectDuplicates
                        [Sample.reportPdf; Sample.reportSlides; Sample.reportPptx]) <->
                In w (detectDuplicates
                        [Sample.reportPptx; Sample.reportPdf; Sample.reportSlides])).
Proof.
  pose proof (C5_duplicate_resolution
                [Sample.reportPdf; Sample.reportSlides; Sample.reportPptx])
    as (_ & _ & Hperm & Hreport).
  split.
  - destruct (Hreport Sample.reportPdf Sample.reportPptx Sample.reportSlides
                      eq_refl eq_refl eq_refl (or_introl eq_refl) eq_refl eq_refl
                      (perm_skip _ (perm_swap _ _ _)))
      as (w & Hw & _ & Hslides).
    rewrite Hw. f_equal. apply Hslides. reflexivity.
  - apply Hperm.
    + apply Permutation_sym.
      apply (Permutation_cons_append [Sample.reportPdf; Sample.reportSlides]
                                     Sample.reportPptx).
    + intros a b Ha Hb _ Hprio _.
      simpl in Ha, Hb.
      destruct Ha as [<-|[<-|[<-|[]]]]; destruct Hb as [<-|[<-|[<-|[]]]];
        try reflexivity; vm_compute in Hprio; discriminate.
Defined.

(** C5 as stated fails: the two items below collide on their normalised
    name, have the same format and the same modification instant, and the
    winner is whichever comes first in the input. *)
Lemma C5_order_dependence_counterexample :
  keyOf Sample.planA = keyOf Sample.planB
  /\ file_mimeType Sample.planA = file_mimeType Sample.planB
  /\ file_modifiedTime Sample.planA = file_modifiedTime Sample.planB
  /\ Sample.planA <> Sample.planB
  /\ detectDuplicates [Sample.planA; Sample.planB] = [Sample.planA]
  /\ detectDuplicates [Sample.planB; Sample.planA] = [Sample.planB].
Proof.
  vm_compute. repeat split; try reflexivity. discriminate.
Qed.

(** ** Chunking *)

Lemma sappend_assoc (a b c : string) : ((a ++ b) ++ c = a ++ (b ++ c))%string.
Proof. induction a as [|x a IH]; simpl; [reflexivity | now rewrite IH]. Qed.

Lemma sappend_nil_r (a : string) : (a ++ EmptyString)%string = a.
Proof. induction a as [|x a IH]; simpl; [reflexivity | now rewrite IH]. Qed.

Lemma slength_append (a b : string) :
  String.length (a ++ b) = String.length a + String.length b.
Proof. induction a as [|x a IH]; simpl; [reflexivity | now rewrite IH]. Qed.

Lemma trimStart_length (s : string) : String.length (Js.trimStart s) <= String.length s.
Proof.
  induction s as [|c s IH]; simpl; [lia|].
  destruct (Js.isSpace c); simpl; lia.
Qed.

Lemma trimEnd_length (s : string) : String.length (Js.trimEnd s) <= String.length s.
Proof.
  induction s as [|c s IH]; simpl; [lia|].
  destruct (Js.trimEnd s); [destruct (Js.isSpace c)|]; simpl in *; lia.
Qed.

Lemma trim_length (s : string) : String.length (Js.trim s) <= String.length s.
Proof.
  unfold Js.trim. etransitivity; [apply trimEnd_length | apply trimStart_length].
Qed.



Lemma joinLines_snoc run l : joinLines (run ++ [l]) = (joinLines run ++ l ++ nlStr)%string.
Proof.
  induction run as [|x run IH].
  - reflexivity.
  - cbn [joinLines app]. rewrite IH. now rewrite !sappend_assoc.
Qed.




Lemma overlapLoop_length lines overlap revLines : forall overlapLines overlapText,
  String.length overlapText <= overlap ->
  String.length (snd (overlapLoop lines overlap revLines overlapLines overlapText)) <= overlap.
Proof.
  induction revLines as [|ci rest IH]; intros ol ot H; simpl; [exact H|].
  destruct (nth_error lines ci) as [l|]; [|exact H].
  destruct (Js.indexOf lines l) as [idx|]; [|exact H].
  destruct (nth_error lines idx) as [lidx|]; [|exact H].
  destruct (Nat.ltb_spec (String.length ot + String.length lidx) overlap); [|exact H].
  apply IH. rewrite !slength_append. simpl. lia.
Qed.


Lemma chunkStep_inv lines chunkSize overlap bounded st pieces carry run line :
  (bounded = true -> String.length line + 1 + overlap <= chunkSize) ->
  LoopInv chunkSize overlap bounded st pieces carry run ->
  exists pieces' carry' run',
    LoopInv chunkSize overlap bounded (chunkStep lines chunkSize overlap st line)
            pieces' carry' run'
    /\ run' <> []
    /\ List.concat (map snd pieces') ++ run' = (List.concat (map snd pieces) ++ run) ++ [line].
Proof.
  intros Hshort [Hcur Hcarry Hchunks Hpieces Hstart Hfirst Hsize].
  unfold chunkStep.
  destruct ((chunkSize <? String.length (currentChunk st) + (String.length line + 1))%nat
            && (0 <? String.length (currentChunk st))%nat) eqn:Hflush.
  - apply andb_true_iff in Hflush. destruct Hflush as [_ Hpos].
    apply Nat.ltb_lt in Hpos.
    assert (Hrun : run <> []).
    { intros ->. rewrite (Hstart eq_refl) in Hcur. simpl in Hcur.
      rewrite Hcur in Hpos. simpl in Hpos. lia. }
    pose proof (overlapLoop_length lines overlap (rev (currentLines st)) [] EmptyString
                  (Nat.le_0_l _)) as Hov.
    destruct (overlapLoop lines overlap (rev (currentLines st)) [] EmptyString)
      as [overlapLines overlapText]. simpl in Hov. simpl.
    exists (pieces ++ [(carry, run)]), overlapText, [line].
    split; [|split].
    + constructor; simpl.
      * unfold nlStr. simpl. reflexivity.
      * exact Hov.
      * rewrite !map_app. simpl. rewrite Hchunks. unfold render at 2. simpl.
        now rewrite Hcur.
      * apply Forall_app. split; [exact Hpieces|]. constructor; [|constructor].
        split; assumption.
      * discriminate.
      * intros H. apply app_eq_nil in H. destruct H; discriminate.
      * intros Hb. specialize (Hshort Hb). destruct (Hsize Hb) as [Hc Hall]. split.
        -- rewrite !slength_append. simpl. lia.
        -- apply Forall_app. split; [exact Hall|]. constructor; [|constructor].
           simpl. pose proof (trim_length (currentChunk st)). lia.
    + discriminate.
    + rewrite map_app, concat_app. simpl. rewrite app_nil_r.
      now rewrite <- !app_assoc.
  - simpl. exists pieces, carry, (run ++ [line]).
    split; [|split].
    + constructor; simpl.
      * rewrite Hcur, joinLines_snoc. now rewrite !sappend_assoc.
      * exact Hcarry.
      * exact Hchunks.
      * exact Hpieces.
      * intros H. apply app_eq_nil in H. destruct H; discriminate.
      * exact Hfirst.
      * intros Hb. specialize (Hshort Hb). destruct (Hsize Hb) as [Hc Hall].
        split; [|exact Hall].
        rewrite !slength_append. simpl.
        apply andb_false_iff in Hflush. destruct Hflush as [H|H].
        -- apply Nat.ltb_ge in H. lia.
        -- apply Nat.ltb_ge in H. lia.
    + intros H. apply app_eq_nil in H. destruct H; discriminate.
    + now rewrite app_assoc.
Qed.

Lemma chunkLoop_inv lines chunkSize overlap bounded todo :
  (bounded = true -> forall l, In l todo -> String.length l + 1 + overlap <= chunkSize) ->
  forall st pieces carry run,
  LoopInv chunkSize overlap bounded st pieces carry run ->
  exists pieces' carry' run',
    LoopInv chunkSize overlap bounded
            (fold_left (chunkStep lines chunkSize overlap) todo st) pieces' carry' run'
    /\ (todo <> [] \/ run <> [] -> run' <> [])
    /\ List.concat (map snd pieces') ++ run' = (List.concat (map snd pieces) ++ run) ++ todo.
Proof.
  induction todo as [|line todo IH]; intros Hshort st pieces carry run Hinv; simpl.
  - exists pieces, carry, run. split; [exact Hinv|]. split; [intros [H|H]; congruence|].
    now rewrite app_nil_r.
  - destruct (chunkStep_inv lines chunkSize overlap bounded st pieces carry run line)
      as (p1 & c1 & r1 & Hinv1 & Hr1 & Hcat1); [|exact Hinv|].
    { intros Hb. apply (Hshort Hb). left. reflexivity. }
    destruct (IH (fun Hb l Hl => Hshort Hb l (or_intror Hl)) _ _ _ _ Hinv1)
      as (p2 & c2 & r2 & Hinv2 & Hr2 & Hcat2).
    exists p2, c2, r2. split; [exact Hinv2|]. split.
    + intros _. apply Hr2. right. exact Hr1.
    + rewrite Hcat2, Hcat1. now rewrite <- !app_assoc.
Qed.

Lemma split_nonempty sep s : Js.split sep s <> [].
Proof.
  destruct s as [|c s]; simpl; [discriminate|].
  destruct (Ascii.eqb c sep); [discriminate|].
  destruct (Js.split sep s); discriminate.
Qed.

Lemma chunkText_windows (bounded : bool) (text : string) (chunkSize overlap : nat) :
  let lines := Js.split Js.nl text in
  (bounded = true -> forall l, In l lines -> String.length l + 1 + overlap <= chunkSize) ->
  (bounded = true ->
   forall c, In c (chunkText text chunkSize overlap) ->
             String.length (chunk_text c) <= chunkSize)
  /\ exists front final,
       List.concat (map snd (front ++ [final])) = lines
       /\ Forall (WindowOk overlap) (front ++ [final])
       /\ map chunk_text (chunkText text chunkSize overlap) =
          map render front ++
          (if String.eqb (render final) EmptyString then [] else [render final])
       /\ (front = [] -> fst final = EmptyString).
Proof.
  intros lines Hshort.
  assert (Hinit : LoopInv chunkSize overlap bounded (mkLoop [] EmptyString []) [] EmptyString []).
  { constructor; simpl; auto; try lia. intros _. split; [lia | constructor]. }
  destruct (chunkLoop_inv lines chunkSize overlap bounded lines Hshort _ _ _ _ Hinit)
    as (pieces & carry & run & [Hcur Hcarry Hchunks Hpieces Hstart Hfirst Hsize] & Hrun & Hcat).
  specialize (Hrun (or_introl (split_nonempty _ _))). simpl in Hcat.
  unfold chunkText. fold lines.
  set (st := fold_left (chunkStep lines chunkSize overlap) lines (mkLoop [] EmptyString [])) in *.
  split.
  - intros Hb c Hc. destruct (Hsize Hb) as [Hlen Hall]. unfold finish in Hc.
    destruct (String.eqb (Js.trim (currentChunk st)) EmptyString).
    + rewrite Forall_forall in Hall. apply Hall. exact Hc.
    + apply in_app_or in Hc. destruct Hc as [Hc|[<-|[]]].
      * rewrite Forall_forall in Hall. apply Hall. exact Hc.
      * simpl. pose proof (trim_length (currentChunk st)). lia.
  - exists pieces, (carry, run). split; [|split; [|split]].
    + rewrite map_app, concat_app. simpl. rewrite app_nil_r. exact Hcat.
    + apply Forall_app. split; [exact Hpieces|]. constructor; [|constructor].
      split; assumption.
    + unfold finish, render at 2 3. simpl. rewrite <- Hcur.
      destruct (String.eqb (Js.trim (currentChunk st)) EmptyString).
      * rewrite app_nil_r. exact Hchunks.
      * rewrite map_app. simpl. now rewrite Hchunks.
    + exact Hfirst.
Qed.

(** C7 (as the code has it). Chunking contract of [chunkText]: the text is
    cut at line breaks into windows produced in document order; the runs of
    lines added by the successive windows are non-empty and, concatenated,
    are exactly the lines of the text; each window starts with a carried-over
    text of at most [overlap] characters, and a chunk is the trimmed window
    (a blank final window yields no chunk).  Lines are never split: every
    chunk has at most [chunkSize] characters provided every line, with its
    line break and the overlap, fits in [chunkSize]. *)
Theorem C7_chunking_contract (text : string) (chunkSize overlap : nat) :
  let lines := Js.split Js.nl text in
  let produced := chunkText text chunkSize overlap in
  ((forall l, In l lines -> String.length l + 1 + overlap <= chunkSize) ->
   forall c, In c produced -> String.length (chunk_text c) <= chunkSize)
  /\ exists front final,
       List.concat (map snd (front ++ [final])) = lines
       /\ Forall (WindowOk overlap) (front ++ [final])
       /\ map chunk_text produced =
          map render front ++
          (if String.eqb (render final) EmptyString then [] else [render final]).
Proof.
  intros lines produced. split.
  - intros Hshort. apply (chunkText_windows true text chunkSize overlap); auto.
  - destruct (chunkText_windows false text chunkSize overlap) as [_ H]; [discriminate|].
    destruct H as (front & final & H1 & H2 & H3 & _). exists front, final. auto.
Qed.


Lemma C7_chunking_contract_witness :
  Forall (fun c => String.length (chunk_text c) <= defaultChunkSize)
         (chunkText Sample.body defaultChunkSize defaultOverlap).
Proof.
  apply Forall_forall.
  apply (proj1 (C7_chunking_contract Sample.body defaultChunkSize defaultOverlap)).
  intros l Hl. vm_compute in Hl. destruct Hl as [<-|[]].
  apply Nat.leb_le. vm_compute. reflexivity.
Defined.

(** C7 as stated fails, in both chunkers.  A line (or a word) longer than
    the maximum makes a chunk longer than the maximum; and two consecutive
    chunks can share no text at all. *)
Lemma C7_chunk_bounds_counterexample :
  map (fun c => String.length (chunk_text c))
      (chunkText (repeatChar 1001 "a") defaultChunkSize defaultOverlap) = [1001]
  /\ map chunk_text
         (chunkText (repeatChar 600 "a" ++ nlStr ++ repeatChar 600 "b")
                    defaultChunkSize defaultOverlap)
     = [repeatChar 600 "a"; repeatChar 600 "b"]
  /\ sharesAtLeast defaultOverlap (repeatChar 600 "a") (repeatChar 600 "b") = false
  /\ map (fun c => String.length (wc_text c))
         (wordChunkText (repeatChar 600 "a" ++ " " ++ repeatChar 600 "b")
                        defaultChunkSize defaultOverlap) = [600; 1201].
Proof. vm_compute. repeat split; reflexivity. Qed.

(** ** The vector index *)

Lemma VecId_eqb_spec (a b : VecId) : reflect (a = b) (VecId_eqb a b).
Proof.
  destruct a as [f i u|s], b as [f' i' u'|s']; simpl; try (constructor; discriminate).
  - destruct (String.eqb_spec f f'); simpl; [|constructor; congruence].
    destruct (Nat.eqb_spec i i'); simpl; [|constructor; congruence].
    destruct (Nat.eqb_spec u u'); constructor; congruence.
  - destruct (String.eqb_spec s s'); constructor; congruence.
Qed.

Lemma memId_iff (i : VecId) (ids : list VecId) : memId i ids = true <-> In i ids.
Proof.
  unfold memId. rewrite existsb_exists. split.
  - intros [x [Hx He]]. destruct (VecId_eqb_spec i x); [subst; exact Hx | discriminate].
  - intros H. exists i. split; [exact H|]. destruct (VecId_eqb_spec i i); congruence.
Qed.

Lemma in_query (flt : Vec -> bool) (idx : Index) (v : Vec) :
  In v (query flt idx) -> In v idx /\ flt v = true.
Proof.
  unfold query. intros H. apply filter_In.
  rewrite <- (firstn_skipn topK (filter flt idx)). apply in_or_app. left. exact H.
Qed.

Lemma query_within_topK (flt : Vec -> bool) (idx : Index) :
  List.length idx <= topK -> query flt idx = filter flt idx.
Proof.
  intros H. unfold query. apply firstn_all2.
  pose proof (filter_length_le flt idx). lia.
Qed.

Lemma in_deleteMany (ids : list VecId) (idx : Index) (v : Vec) :
  In v (deleteMany ids idx) <-> In v idx /\ ~ In (vid v) ids.
Proof.
  unfold deleteMany. rewrite filter_In, negb_true_iff, <- memId_iff.
  destruct (memId (vid v) ids); split; intros [H1 H2]; split; congruence.
Qed.

Lemma upsertOne_fresh (v : Vec) (idx : Index) :
  ~ In (vid v) (map vid idx) -> upsertOne v idx = idx ++ [v].
Proof.
  induction idx as [|x idx IH]; simpl; intros H; [reflexivity|].
  destruct (VecId_eqb_spec (vid x) (vid v)) as [E|E]; [exfalso; auto|].
  rewrite IH; auto.
Qed.

Lemma upsert_fresh (batch : list Vec) : forall idx,
  NoDup (map vid batch) ->
  (forall v, In v batch -> ~ In (vid v) (map vid idx)) ->
  upsert batch idx = idx ++ batch.
Proof.
  unfold upsert. induction batch as [|v batch IH]; intros idx Hnd Hfresh; simpl.
  - now rewrite app_nil_r.
  - inversion Hnd as [|? ? Hv Hnd']; subst.
    rewrite upsertOne_fresh by (apply Hfresh; left; reflexivity).
    rewrite IH; [now rewrite <- app_assoc | exact Hnd' |].
    intros x Hx Hin. rewrite map_app in Hin. apply in_app_or in Hin.
    destruct Hin as [Hin|[Hin|[]]].
    + apply (Hfresh x (or_intror Hx)). exact Hin.
    + apply Hv. rewrite Hin. apply in_map. exact Hx.
Qed.

Lemma NoDup_map_inj {A B} (f : A -> B) (l : list A) (x y : A) :
  NoDup (map f l) -> In x l -> In y l -> f x = f y -> x = y.
Proof.
  induction l as [|a l IH]; simpl; intros Hnd Hx Hy E; [contradiction|].
  inversion Hnd as [|? ? Hnotin Hnd']; subst.
  destruct Hx as [->|Hx], Hy as [->|Hy]; auto.
  - exfalso. apply Hnotin. rewrite E. now apply in_map.
  - exfalso. apply Hnotin. rewrite <- E. now apply in_map.
Qed.

Lemma filter_keeps_unique_ids (keep : Vec -> bool) (idx : Index) :
  NoDup (map vid idx) -> NoDup (map vid (filter keep idx)).
Proof.
  induction idx as [|a idx IH]; simpl; intros Hnd; [constructor|].
  inversion Hnd as [|? ? Hnotin Hnd']; subst.
  destruct (keep a); simpl; [|auto].
  constructor; [|auto]. intros H. apply Hnotin.
  apply in_map_iff in H. destruct H as [x [E Hx]]. apply filter_In in Hx.
  rewrite <- E. apply in_map. tauto.
Qed.

Lemma NoDup_app_disjoint {A} (l1 l2 : list A) (x : A) :
  NoDup (l1 ++ l2) -> In x l1 -> In x l2 -> False.
Proof.
  induction l1 as [|a l1 IH]; simpl; intros Hnd H1 H2; [contradiction|].
  inversion Hnd as [|? ? Hnotin Hnd']; subst. destruct H1 as [->|H1].
  - apply Hnotin. apply in_or_app. now right.
  - exact (IH Hnd' H1 H2).
Qed.

(** ** The indexing driver *)

Section DriverFacts.

Variable env : Collaborators.

Lemma createVectorsFrom_next meta fid chunks : forall i next res next',
  createVectorsFrom env meta fid i chunks next = (res, next') -> next <= next'.
Proof.
  induction chunks as [|c chunks IH]; intros i next res next' H; simpl in H.
  - inversion H. lia.
  - destruct (createEmbedding env (Chunking.chunk_text c)); [|inversion H; lia].
    destruct (createVectorsFrom env meta fid (S i) chunks (S next)) as [r n] eqn:E.
    apply IH in E. destruct r; inversion H; subst; lia.
Qed.

Lemma createVectorsFrom_ok meta fid chunks : forall i next vs next',
  createVectorsFrom env meta fid i chunks next = (Ok vs, next') ->
  next' = next + List.length chunks
  /\ List.length vs = List.length chunks
  /\ (forall v, In v vs ->
        exists j u c, vid v = GenId fid j u /\ next <= u < next'
                      /\ In c chunks /\ metadata v = meta c)
  /\ NoDup (map vid vs).
Proof.
  induction chunks as [|c chunks IH]; intros i next vs next' H; simpl in H.
  - inversion H; subst. simpl. split; [lia|]. split; [reflexivity|].
    split; [intros v []|constructor].
  - destruct (createEmbedding env (Chunking.chunk_text c)) as [e|]; [|discriminate].
    destruct (createVectorsFrom env meta fid (S i) chunks (S next)) as [r n] eqn:E.
    destruct r as [vs'|]; [|discriminate]. inversion H; subst. clear H.
    destruct (IH _ _ _ _ E) as (Hn & Hl & Hv & Hnd). simpl.
    split; [lia|]. split; [lia|]. split.
    + intros v [<-|Hin].
      * exists i, next, c. simpl. repeat split; auto; lia.
      * destruct (Hv v Hin) as (j & u & c' & H1 & H2 & H3 & H4).
        exists j, u, c'. repeat split; auto; lia.
    + constructor; [|exact Hnd]. intros Hin. apply in_map_iff in Hin.
      destruct Hin as [v [E' Hin]]. destruct (Hv v Hin) as (j & u & c' & H1 & H2 & _).
      rewrite H1 in E'. inversion E'. lia.
Qed.

Lemma batchesOf_cons fuel v vs :
  batchesOf (S fuel) (v :: vs) =
  firstn batchSize (v :: vs) :: batchesOf fuel (skipn batchSize (v :: vs)).
Proof. reflexivity. Qed.

Lemma batchesOf_concat : forall fuel vectors,
  List.length vectors <= fuel -> List.concat (batchesOf fuel vectors) = vectors.
Proof.
  induction fuel as [|fuel IH]; intros vectors H.
  - destruct vectors; [reflexivity | simpl in H; lia].
  - destruct vectors as [|v vs]; [reflexivity|].
    rewrite batchesOf_cons, concat_cons, IH.
    + apply firstn_skipn.
    + rewrite length_skipn. unfold batchSize. simpl List.length in *. lia.
Qed.

Lemma upsertBatches_spec bs : forall w res w',
  upsertBatches env bs w = (res, w') ->
  NoDup (map vid (List.concat bs)) ->
  (forall v, In v (List.concat bs) -> ~ In (vid v) (map vid (index w))) ->
  exists done rest,
    List.concat bs = done ++ rest
    /\ index w' = index w ++ done
    /\ nextUuid w' = nextUuid w
    /\ (res = Ok tt -> rest = [])
    /\ (forall r, res = Ok r -> rest = [])
    /\ exists called, ops w' = ops w ++ map OpUpsert called.
Proof.
  induction bs as [|b bs IH]; intros w res w' H Hnd Hfresh; simpl in H.
  - inversion H; subst. exists [], []. simpl. rewrite app_nil_r.
    repeat split; auto. exists []. simpl. now rewrite app_nil_r.
  - destruct (upsertThrows env b) eqn:Hthrow.
    + inversion H; subst. simpl. exists [], (b ++ List.concat bs). simpl.
      rewrite app_nil_r. repeat split; auto; try discriminate.
      exists [b]. reflexivity.
    + simpl in Hnd, Hfresh. rewrite map_app in Hnd.
      assert (Hup : upsert b (index w) = index w ++ b).
      { apply upsert_fresh.
        - eapply NoDup_app_remove_r. exact Hnd.
        - intros v Hv. apply Hfresh. apply in_or_app. now left. }
      rewrite Hup in H. apply IH in H.
      * destruct H as (done & rest & Hc & Hi & Hn & Hr & Hr' & called & Ho).
        simpl in *. exists (b ++ done), rest.
        split; [rewrite Hc; now rewrite app_assoc|].
        split; [rewrite Hi; now rewrite app_assoc|].
        split; [exact Hn|]. split; [exact Hr|]. split; [exact Hr'|].
        exists (b :: called). rewrite Ho. simpl. now rewrite <- app_assoc.
      * eapply NoDup_app_remove_l. exact Hnd.
      * simpl. intros v Hv Hin. rewrite map_app in Hin. apply in_app_or in Hin.
        destruct Hin as [Hin|Hin].
        -- apply (Hfresh v); [apply in_or_app; now right | exact Hin].
        -- apply (NoDup_app_disjoint _ _ (vid v) Hnd); [exact Hin|].
           apply in_map. exact Hv.
Qed.


Lemma FreshFrom_mono next next' idx :
  next <= next' -> FreshFrom next idx -> FreshFrom next' idx.
Proof. intros Hle H v f i u Hv E. specialize (H v f i u Hv E). lia. Qed.

Lemma WfWorld_ops idx next o o' :
  WfWorld (mkWorld idx next o) -> WfWorld (mkWorld idx next o').
Proof. intros H. exact H. Qed.

(** What one call of [indexFile] does to the world: it only appends records,
    all of them carrying the item's id, name and dates and the day of the
    run, and it issues nothing but upserts. *)
Lemma indexFile_spec now f w r w' :
  WfWorld w ->
  indexFile env now f w = (r, w') ->
  WfWorld w'
  /\ nextUuid w <= nextUuid w'
  /\ exists written,
       index w' = index w ++ written
       /\ (forall v, In v written ->
             exists c, metadata v = vectorMetadata f (dateOf now) c)
       /\ (exists called, ops w' = ops w ++ map OpUpsert called)
       /\ (success r = true ->
           exists text,
             extractText env f = Ok text
             /\ minContent <= String.length (Js.trim text)
             /\ List.length written =
                List.length (Chunking.chunkText text Chunking.defaultChunkSize
                                                Chunking.defaultOverlap)).
Proof.
  intros [Hnd Hfresh] H. unfold indexFile in H.
  assert (Hsame : forall r0, (r0, w) = (r, w') -> success r0 = false ->
            WfWorld w' /\ nextUuid w <= nextUuid w' /\
            exists written, index w' = index w ++ written
              /\ (forall v, In v written ->
                    exists c, metadata v = vectorMetadata f (dateOf now) c)
              /\ (exists called, ops w' = ops w ++ map OpUpsert called)
              /\ (success r = true ->
                  exists text, extractText env f = Ok text
                    /\ minContent <= String.length (Js.trim text)
                    /\ List.length written =
                       List.length (Chunking.chunkText text Chunking.defaultChunkSize
                                                       Chunking.defaultOverlap))).
  { intros r0 E Hs. inversion E; subst. split; [split; assumption|]. split; [lia|].
    exists []. rewrite app_nil_r. split; [reflexivity|]. split; [intros v []|].
    split; [exists []; simpl; now rewrite app_nil_r | congruence]. }
  destruct (extractText env f) as [text|m] eqn:Hx; [|apply (Hsame _ H); reflexivity].
  destruct (Nat.ltb_spec (String.length (Js.trim text)) minContent) as [Hshort|Hlong];
    [apply (Hsame _ H); reflexivity|].
  clear Hsame. unfold createVectors in H.
  set (chunks := Chunking.chunkText text Chunking.defaultChunkSize Chunking.defaultOverlap) in *.
  destruct (createVectorsFrom env (vectorMetadata f (dateOf now)) (file_id f) 0 chunks
              (nextUuid w)) as [cv next'] eqn:Hcv.
  pose proof (createVectorsFrom_next _ _ _ _ _ _ _ Hcv) as Hnext.
  destruct cv as [vectors|m].
  - destruct (createVectorsFrom_ok _ _ _ _ _ _ _ Hcv) as (Hn' & Hlen & Hvs & Hndv).
    destruct (uploadToPinecone env vectors (mkWorld (index w) next' (ops w)))
      as [up w1] eqn:Hup.
    unfold uploadToPinecone in Hup.
    apply upsertBatches_spec in Hup.
    + destruct Hup as (done & rest & Hc & Hi & Hn & _ & Hr & called & Ho).
      rewrite batchesOf_concat in Hc by lia. simpl in Hi, Hn, Ho.
      assert (Hw1 : WfWorld w1 /\ nextUuid w <= nextUuid w1 /\
                exists written, index w1 = index w ++ written
                  /\ (forall v, In v written ->
                        exists c, metadata v = vectorMetadata f (dateOf now) c)
                  /\ (exists called, ops w1 = ops w ++ map OpUpsert called)
                  /\ written = done).
      { split; [split|split; [lia|]].
        - rewrite Hi, map_app. apply NoDup_app; [exact Hnd | |].
          + rewrite Hc, map_app in Hndv. eapply NoDup_app_remove_r. exact Hndv.
          + intros a Ha Hb. apply in_map_iff in Hb. destruct Hb as [v [E Hv]].
            destruct (Hvs v) as (j & u & c & H1 & H2 & _).
            { rewrite Hc. apply in_or_app. now left. }
            apply in_map_iff in Ha. destruct Ha as [x [Ex Hx']].
            assert (u < nextUuid w) by (apply (Hfresh x (file_id f) j u Hx'); congruence).
            lia.
        - rewrite Hi, Hn. intros v f0 i u Hv E. apply in_app_or in Hv.
          destruct Hv as [Hv|Hv].
          + specialize (Hfresh v f0 i u Hv E). lia.
          + destruct (Hvs v) as (j & u' & c & H1 & H2 & _).
            { rewrite Hc. apply in_or_app. now left. }
            rewrite H1 in E. inversion E; subst. lia.
        - exists done. split; [exact Hi|]. split.
          + intros v Hv. destruct (Hvs v) as (j & u & c & _ & _ & _ & Hm).
            { rewrite Hc. apply in_or_app. now left. }
            exists c. exact Hm.
          + split; [exists called; exact Ho | reflexivity]. }
      destruct Hw1 as (Hwf1 & Hle1 & written & Hidx & Hmeta & Hops & Hwd).
      rewrite Hwd in Hidx, Hmeta. clear Hwd written.
      destruct up as [u|m]; injection H as <- <-.
      * split; [exact Hwf1|]. split; [exact Hle1|]. exists done.
        split; [exact Hidx|]. split; [exact Hmeta|]. split; [exact Hops|].
        intros _. exists text. split; [reflexivity|]. split; [exact Hlong|].
        rewrite (Hr u eq_refl), app_nil_r in Hc. rewrite <- Hc. exact Hlen.
      * split; [exact Hwf1|]. split; [exact Hle1|]. exists done.
        split; [exact Hidx|]. split; [exact Hmeta|]. split; [exact Hops|].
        simpl. congruence.
    + rewrite batchesOf_concat by lia. exact Hndv.
    + rewrite batchesOf_concat by lia. simpl. intros v Hv Hin.
      destruct (Hvs v Hv) as (j & u & c & H1 & H2 & _).
      apply in_map_iff in Hin. destruct Hin as [x [Ex Hx']].
      assert (u < nextUuid w) by (apply (Hfresh x (file_id f) j u Hx'); congruence).
      lia.
  - inversion H; subst; clear H. simpl. split; [split; [exact Hnd|]|].
    + simpl. eapply FreshFrom_mono; eassumption.
    + split; [exact Hnext|]. exists []. rewrite app_nil_r.
      split; [reflexivity|]. split; [intros v []|].
      split; [exists []; simpl; now rewrite app_nil_r | simpl; congruence].
Qed.

(** What [deleteFileVectors] does: it removes records carrying the given
    file id, and nothing else. *)
Lemma deleteFileVectors_spec fileId w res w' :
  WfWorld w ->
  deleteFileVectors env fileId w = (res, w') ->
  WfWorld w'
  /\ nextUuid w' = nextUuid w
  /\ (forall v, In v (index w') -> In v (index w))
  /\ (forall v, In v (index w) -> fileIdEq fileId v = false -> In v (index w'))
  /\ (ops w' = ops w \/ exists ids, ops w' = ops w ++ [OpDeleteMany ids])
  /\ ((exists n, res = Ok n) -> List.length (index w) <= topK ->
      forall v, In v (index w') -> fileIdEq fileId v = false).
Proof.
  intros [Hnd Hfresh] H. unfold deleteFileVectors in H.
  destruct (query (fileIdEq fileId) (index w)) as [|x found] eqn:Hq.
  - injection H as <- <-. split; [split; assumption|]. split; [reflexivity|].
    split; [auto|]. split; [auto|]. split; [auto|].
    intros _ Hk v Hv. rewrite query_within_topK in Hq by exact Hk.
    destruct (fileIdEq fileId v) eqn:E; [|reflexivity].
    assert (Hvf : In v (filter (fileIdEq fileId) (index w))) by (apply filter_In; auto).
    rewrite Hq in Hvf. contradiction.
  - rewrite <- Hq in H. clear x found Hq.
    set (found := query (fileIdEq fileId) (index w)) in *.
    destruct (deleteManyThrows env (map vid found)).
    + injection H as <- <-. simpl. split; [split; assumption|]. split; [reflexivity|].
      split; [auto|]. split; [auto|]. split; [eauto|].
      intros [n Hn]. discriminate.
    + injection H as <- <-. simpl.
      assert (Hin : forall v, In v (deleteMany (map vid found) (index w)) <->
                              In v (index w) /\ ~ In v found).
      { intros v. rewrite in_deleteMany. split; intros [H1 H2]; split; auto.
        - intros Hf. apply H2. now apply in_map.
        - intros Hf. apply in_map_iff in Hf. destruct Hf as [y [E Hy]].
          apply H2. destruct (in_query _ _ _ Hy) as [Hy' _].
          rewrite <- (NoDup_map_inj vid (index w) y v Hnd Hy' H1 E). exact Hy. }
      split; [split|].
      * simpl. apply filter_keeps_unique_ids. exact Hnd.
      * simpl. intros v f i u Hv E. apply Hin in Hv. apply (Hfresh v f i u); tauto.
      * split; [reflexivity|].
        split; [intros v Hv; apply Hin in Hv; tauto|].
        split.
        { intros v Hv Hf. apply Hin. split; [exact Hv|]. intros Hc.
          apply in_query in Hc. destruct Hc. congruence. }
        split; [right; eauto|].
        intros _ Hk v Hv. apply Hin in Hv. destruct Hv as [Hv Hnf].
        destruct (fileIdEq fileId v) eqn:E; [|reflexivity].
        exfalso. apply Hnf. unfold found. rewrite query_within_topK by exact Hk.
        apply filter_In. auto.
Qed.

End DriverFacts.

(** ** C9: per-item failures and the exit code *)

Section RunFacts.

Variable env : Collaborators.
Variable now : Z.

Lemma record_spec acc f r :
  AccCounts acc ->
  AccCounts (record acc f r)
  /\ acc_attempts (record acc f r) = acc_attempts acc ++ [(f, r)].
Proof.
  unfold AccCounts, record, failures. intros H.
  destruct (success r) eqn:Hs; simpl; rewrite filter_app, length_app; simpl;
    rewrite Hs; simpl; split; auto; lia.
Qed.

Lemma indexNew_attempts files : forall acc w acc' w',
  indexNew env now files acc w = (acc', w') ->
  AccCounts acc ->
  Forall (FromIndexFile env now) (acc_attempts acc) ->
  AccCounts acc'
  /\ map fst (acc_attempts acc') = map fst (acc_attempts acc) ++ files
  /\ Forall (FromIndexFile env now) (acc_attempts acc').
Proof.
  induction files as [|f files IH]; intros acc w acc' w' H Hc Hf; simpl in H.
  - injection H as <- <-. rewrite app_nil_r. auto.
  - destruct (indexFile env now f w) as [r w1] eqn:Hi.
    destruct (record_spec acc f r Hc) as [Hc1 Ha1].
    apply IH in H; [|exact Hc1|].
    + destruct H as (H1 & H2 & H3). split; [exact H1|]. split; [|exact H3].
      rewrite H2, Ha1, map_app. simpl. now rewrite <- app_assoc.
    + rewrite Ha1. apply Forall_app. split; [exact Hf|].
      constructor; [|constructor]. exists w. simpl. now rewrite Hi.
Qed.

Lemma reindexModified_attempts entries : forall acc w acc' w',
  reindexModified env now entries acc w = (Ok acc', w') ->
  AccCounts acc ->
  Forall (FromIndexFile env now) (acc_attempts acc) ->
  AccCounts acc'
  /\ map fst (acc_attempts acc') = map fst (acc_attempts acc) ++ map mod_file entries
  /\ Forall (FromIndexFile env now) (acc_attempts acc').
Proof.
  induction entries as [|e entries IH]; intros acc w acc' w' H Hc Hf; simpl in H.
  - injection H as <- <-. rewrite app_nil_r. auto.
  - destruct (deleteFileVectors env (file_id (mod_file e)) w) as [[n|m] w1]; [|discriminate].
    destruct (indexFile env now (mod_file e) w1) as [r w2] eqn:Hi.
    destruct (record_spec acc (mod_file e) r Hc) as [Hc1 Ha1].
    apply IH in H; [|exact Hc1|].
    + destruct H as (H1 & H2 & H3). split; [exact H1|]. split; [|exact H3].
      rewrite H2, Ha1, map_app. simpl. now rewrite <- app_assoc.
    + rewrite Ha1. apply Forall_app. split; [exact Hf|].
      constructor; [|constructor]. exists w1. simpl. now rewrite Hi.
Qed.

Lemma reindexModified_completes entries :
  (forall ids, deleteManyThrows env ids = false) ->
  forall acc w, exists acc' w', reindexModified env now entries acc w = (Ok acc', w').
Proof.
  intros Hdel. induction entries as [|e entries IH]; intros acc w; simpl.
  - eauto.
  - unfold deleteFileVectors.
    destruct (query (fileIdEq (file_id (mod_file e))) (index w)) as [|x found].
    + destruct (indexFile env now (mod_file e) w) as [r w2]. apply IH.
    + rewrite Hdel. destruct (indexFile env now (mod_file e) _) as [r w2]. apply IH.
Qed.

Lemma failures_nonempty l :
  0 < List.length (failures l) <-> exists f r, In (f, r) l /\ success r = false.
Proof.
  unfold failures. split.
  - destruct (filter _ l) as [|[f r] rest] eqn:E; simpl; [lia|]. intros _.
    assert (H : In (f, r) (filter (fun fr => negb (success (snd fr))) l))
      by (rewrite E; left; reflexivity).
    apply filter_In in H. simpl in H. destruct H as [H1 H2].
    exists f, r. split; [exact H1|]. now apply negb_true_iff.
  - intros (f & r & Hin & Hs).
    assert (H : In (f, r) (filter (fun fr => negb (success (snd fr))) l)).
    { apply filter_In. simpl. rewrite Hs. auto. }
    destruct (filter _ l); [contradiction | simpl; lia].
Qed.

End RunFacts.

(** C9 (as the code has it).  Per-item failure isolation and exit status of
    [run].  Whatever the extraction, embedding and upsert collaborators do,
    [indexFile] returns a result (a failed extraction, a text below 50
    characters, a failed embedding and a rejected upsert all become
    [{ success: false }]), so once the classification is available and the
    deletions of old vectors go through, the run completes; a completed run
    has attempted every NEW and every MODIFIED item, in order, and its exit
    code is 1 when at least one attempt failed and 0 otherwise.  A run that
    is rejected, by an error raised outside [indexFile], exits with code 1
    as well: the exit code is non-zero exactly when an attempt failed or the
    run was rejected, and a rejected listing of the Drive folder rejects the
    run before anything is attempted. *)
Theorem C9_failure_isolation_and_exit_code
    (env : Collaborators) (now : Z) (allFiles : list DriveFile) (w : World) :
  (forall ch,
     classifyChanges (detectDuplicates (filterFiles allFiles))
                     (loadPineconeState (index w)) now = Ok ch ->
     (forall ids, deleteManyThrows env ids = false) ->
     exists out w', run env now allFiles w = (Ok out, w'))
  /\ (forall out w',
        run env now allFiles w = (Ok out, w') ->
        classifyChanges (detectDuplicates (filterFiles allFiles))
                        (loadPineconeState (index w)) now = Ok (changes out)
        /\ map fst (attempts out) =
           newFiles (changes out) ++ map mod_file (modifiedFiles (changes out))
        /\ Forall (FromIndexFile env now) (attempts out)
        /\ (exitCode out <> 0%Z <->
            exists f r, In (f, r) (attempts out) /\ success r = false)
        /\ (exitCode out = 0%Z \/ exitCode out = 1%Z)
        /\ processExitCode (Ok out) = exitCode out)
  /\ (forall f w0,
        success (fst (indexFile env now f w0)) = true <->
        exists text vectors next',
          extractText env f = Ok text
          /\ minContent <= String.length (Js.trim text)
          /\ createVectors env f (dateOf now)
               (Chunking.chunkText text Chunking.defaultChunkSize Chunking.defaultOverlap)
               (nextUuid w0) = (Ok vectors, next')
          /\ fst (uploadToPinecone env vectors (mkWorld (index w0) next' (ops w0))) = Ok tt)
  /\ (processExitCode (fst (run env now allFiles w)) <> 0%Z <->
      (exists m, fst (run env now allFiles w) = Throw m)
      \/ (exists out f r, fst (run env now allFiles w) = Ok out
                          /\ In (f, r) (attempts out) /\ success r = false))
  /\ (forall rejected children,
        (forall m, Scan.scanGoogleDrive rejected children = Throw m ->
           runOnDrive env now rejected children w = (Throw m, w)
           /\ processExitCode (fst (runOnDrive env now rejected children w)) = 1%Z)
        /\ (Scan.scanGoogleDrive rejected children = Ok allFiles ->
            runOnDrive env now rejected children w = run env now allFiles w)).
Proof.
  match goal with |- _ /\ ?P /\ _ => assert (Hdone : P) end; [|split; [|split; [exact Hdone|split; [|split]]]].
  - intros out w' H. unfold run in H.
    destruct (classifyChanges _ _ now) as [ch|m] eqn:Hch; [|discriminate].
    destruct (indexNew env now (newFiles ch) (mkAcc 0 0 []) w) as [accNew w1] eqn:Hnew.
    destruct (reindexModified env now (modifiedFiles ch) (mkAcc 0 0 []) w1)
      as [[accMod|m] w2] eqn:Hmod; [|discriminate].
    injection H as <- <-. simpl.
    assert (Hinit : AccCounts (mkAcc 0 0 [])) by reflexivity.
    destruct (indexNew_attempts env now _ _ _ _ _ Hnew Hinit (Forall_nil _))
      as (Hcn & Han & Hfn).
    destruct (reindexModified_attempts env now _ _ _ _ _ Hmod Hinit (Forall_nil _))
      as (Hcm & Ham & Hfm).
    simpl in Han, Ham.
    split; [reflexivity|]. split; [now rewrite map_app, Han, Ham|].
    split; [apply Forall_app; split; assumption|].
    assert (Hcount : acc_failed accNew + acc_failed accMod =
                     List.length (failures (acc_attempts accNew ++ acc_attempts accMod))).
    { unfold AccCounts in Hcn, Hcm. unfold failures in *.
      rewrite filter_app, length_app. lia. }
    split; [|split].
    + rewrite <- failures_nonempty, <- Hcount.
      destruct (Nat.ltb_spec 0 (acc_failed accNew + acc_failed accMod)); split;
        intros; try lia; try discriminate; congruence.
    + destruct (0 <? _)%nat; auto.
    + reflexivity.
  - intros ch Hch Hdel. unfold run. rewrite Hch.
    destruct (indexNew env now (newFiles ch) (mkAcc 0 0 []) w) as [accNew w1].
    destruct (reindexModified_completes env now (modifiedFiles ch) Hdel (mkAcc 0 0 []) w1)
      as (accMod & w2 & ->). eauto.
  - intros f w0. unfold indexFile.
    destruct (extractText env f) as [text|m] eqn:Hx.
    + destruct (Nat.ltb_spec (String.length (Js.trim text)) minContent) as [Hs|Hl].
      * simpl. split; [discriminate|]. intros (t & vs & n & E & Hlen & _).
        inversion E; subst. lia.
      * destruct (createVectors env f (dateOf now) _ (nextUuid w0)) as [[vs|m] n] eqn:Hcv.
        -- destruct (uploadToPinecone env vs _) as [[u|m] w1] eqn:Hup; simpl.
           ++ split; [|reflexivity]. intros _. exists text, vs, n.
              rewrite Hup. destruct u. auto.
           ++ split; [discriminate|]. intros (t & vs' & n' & E & _ & Hcv' & Hup').
              inversion E; subst. rewrite Hcv in Hcv'. inversion Hcv'; subst.
              rewrite Hup in Hup'. discriminate.
        -- simpl. split; [discriminate|]. intros (t & vs' & n' & E & _ & Hcv' & _).
           inversion E; subst. rewrite Hcv in Hcv'. discriminate.
    + simpl. split; [discriminate|]. intros (t & vs & n & E & _). discriminate.
  - destruct (run env now allFiles w) as [[out|m] w'] eqn:E; cbn [fst processExitCode].
    + destruct (Hdone out w' eq_refl) as (_ & _ & _ & Hcode & _). rewrite Hcode. split.
      * intros (f & r & Hin & Hs). right. exists out, f, r. auto.
      * intros [[m Hm]|(o & f & r & Ho & Hin & Hs)]; [discriminate|].
        injection Ho as <-. eauto.
    + split; [intros _; left; eauto | discriminate].
  - intros rejected children. unfold runOnDrive. split.
    + intros m ->. split; reflexivity.
    + intros ->. reflexivity.
Qed.

Lemma C9_failure_isolation_and_exit_code_witness :
  (exists out w',
     run Sample.flaky Sample.someNow [Sample.goodDoc; Sample.badDoc] (Sample.world [])
     = (Ok out, w'))
  /\ map fst (attempts (Sample.outcomeOf
                 (run Sample.flaky Sample.someNow [Sample.goodDoc; Sample.badDoc]
                      (Sample.world []))))
     = [Sample.goodDoc; Sample.badDoc]
  /\ exitCode (Sample.outcomeOf
                 (run Sample.flaky Sample.someNow [Sample.goodDoc; Sample.badDoc]
                      (Sample.world []))) <> 0%Z.
Proof.
  pose proof (C9_failure_isolation_and_exit_code Sample.flaky Sample.someNow
                [Sample.goodDoc; Sample.badDoc] (Sample.world [])) as (Hrun & Hdone & _).
  destruct (Hrun (mkChanges [Sample.goodDoc; Sample.badDoc] [] [])) as (out & w' & E).
  - vm_compute. reflexivity.
  - intros ids. reflexivity.
  - split; [exists out, w'; exact E|].
    destruct (Hdone out w' E) as (_ & Hatt & _ & Hcode & _).
    unfold Sample.outcomeOf. rewrite E. simpl fst.
    split.
    + rewrite Hatt. vm_compute in E. injection E as <- _. reflexivity.
    + apply Hcode. exists Sample.badDoc, (failure "extraction failed").
      split; [|reflexivity].
      vm_compute in E. injection E as <- _. vm_compute. right. left. reflexivity.
Defined.

(** C9 as stated fails on the exit code.  The listing of the Drive folder
    is rejected: [run] is rejected with it and the process exits with code
    1, although no item was attempted, no index call was issued and the
    index is as it was. *)
Lemma C9_fatal_error_exit_counterexample :
  let w := Sample.world [Sample.guideVec] in
  let r := runOnDrive (Sample.collaborators Sample.body) Sample.someNow
                      (Some "The caller does not have permission") [] w in
  fst r = Throw "The caller does not have permission"
  /\ processExitCode (fst r) = 1%Z
  /\ snd r = w
  /\ ops (snd r) = [].
Proof. vm_compute. repeat split; reflexivity. Qed.

(** ** C3: delete-before-write for MODIFIED items *)

(** C3 at a legacy match.  The indexed document has a name but no [File.id];
    the Drive item of that name, modified after the cutoff, is classified
    MODIFIED as a legacy record.  The run reindexes it with exit code 0,
    issues no [deleteMany] at all, and the chunk of the prior version is
    still in the index next to the new ones. *)
Theorem C3_legacy_chunks_survive_reindex :
  let r := run (Sample.collaborators Sample.body) Sample.someNow [Sample.deck]
               (Sample.world [Sample.legacyVec]) in
  map (fun e => (mod_file e, mod_legacy e)) (modifiedFiles (changes (Sample.outcomeOf r)))
  = [(Sample.deck, true)]
  /\ exitCode (Sample.outcomeOf r) = 0%Z
  /\ map success (map snd (attempts (Sample.outcomeOf r))) = [true]
  /\ map isUpsert (ops (snd r)) = [true]
  /\ map vid (index (snd r)) = [ExtId "legacy-1"; GenId "D1" 0 0]
  /\ In Sample.legacyVec (index (snd r)).
Proof. vm_compute. repeat split; try reflexivity. left. reflexivity. Qed.

(** ** C10: chunk records with neither id nor name *)

Lemma loadStep_maps st st' mt :
  pineconeFiles st = pineconeFiles st' ->
  pineconeFilesByName st = pineconeFilesByName st' ->
  pineconeFiles (loadStep st mt) = pineconeFiles (loadStep st' mt)
  /\ pineconeFilesByName (loadStep st mt) = pineconeFilesByName (loadStep st' mt).
Proof.
  intros H1 H2. unfold loadStep. rewrite H1, H2.
  destruct (Js.truthy (File_id (metadata mt))).
  - destruct (File_id (metadata mt)); [|auto]. destruct (negb _); auto.
  - destruct (Js.truthy (File_name (metadata mt))); [|auto].
    destruct (File_name (metadata mt)); [|auto]. destruct (negb _); auto.
Qed.

Lemma fold_loadStep_maps ms : forall st st',
  pineconeFiles st = pineconeFiles st' ->
  pineconeFilesByName st = pineconeFilesByName st' ->
  pineconeFiles (fold_left loadStep ms st) = pineconeFiles (fold_left loadStep ms st')
  /\ pineconeFilesByName (fold_left loadStep ms st)
     = pineconeFilesByName (fold_left loadStep ms st').
Proof.
  induction ms as [|m ms IH]; intros st st' H1 H2; simpl; [auto|].
  destruct (loadStep_maps st st' m H1 H2). apply IH; assumption.
Qed.

Lemma loadStep_orphan st r :
  Js.truthy (File_id (metadata r)) = false ->
  Js.truthy (File_name (metadata r)) = false ->
  pineconeFiles (loadStep st r) = pineconeFiles st
  /\ pineconeFilesByName (loadStep st r) = pineconeFilesByName st.
Proof. intros H1 H2. unfold loadStep. rewrite H1, H2. auto. Qed.

Section RetentionFacts.

Variable env : Collaborators.
Variable now : Z.

Lemma indexNew_retains files : forall acc w acc' w',
  WfWorld w ->
  indexNew env now files acc w = (acc', w') ->
  WfWorld w' /\ forall v, In v (index w) -> In v (index w').
Proof.
  induction files as [|f files IH]; intros acc w acc' w' Hwf H; simpl in H.
  - injection H as <- <-. auto.
  - destruct (indexFile env now f w) as [r w1] eqn:Hi.
    destruct (indexFile_spec env now f w r w1 Hwf Hi) as (Hwf1 & _ & written & Hidx & _).
    destruct (IH _ _ _ _ Hwf1 H) as [Hwf' Hkeep]. split; [exact Hwf'|].
    intros v Hv. apply Hkeep. rewrite Hidx. apply in_or_app. now left.
Qed.

Lemma reindexModified_retains entries : forall acc w res w',
  WfWorld w ->
  reindexModified env now entries acc w = (res, w') ->
  WfWorld w'
  /\ forall v, In v (index w) ->
       (forall e, In e entries -> fileIdEq (file_id (mod_file e)) v = false) ->
       In v (index w').
Proof.
  induction entries as [|e entries IH]; intros acc w res w' Hwf H; simpl in H.
  - injection H as <- <-. auto.
  - destruct (deleteFileVectors env (file_id (mod_file e)) w) as [d w1] eqn:Hd.
    destruct (deleteFileVectors_spec env _ w d w1 Hwf Hd) as (Hwf1 & _ & _ & Hkeep1 & _).
    destruct d as [n|m].
    + destruct (indexFile env now (mod_file e) w1) as [r w2] eqn:Hi.
      destruct (indexFile_spec env now _ w1 r w2 Hwf1 Hi) as (Hwf2 & _ & written & Hidx & _).
      destruct (IH _ _ _ _ Hwf2 H) as [Hwf' Hkeep]. split; [exact Hwf'|].
      intros v Hv Hne. apply Hkeep.
      * rewrite Hidx. apply in_or_app. left. apply Hkeep1; [exact Hv|].
        apply Hne. left. reflexivity.
      * intros e' He'. apply Hne. now right.
    + injection H as <- <-. split; [exact Hwf1|]. intros v Hv Hne.
      apply Hkeep1; [exact Hv|]. apply Hne. left. reflexivity.
Qed.

Lemma winners_in_listing allFiles f :
  In f (detectDuplicates (filterFiles allFiles)) -> In f allFiles.
Proof.
  intros H. destruct (detectDuplicates_spec (filterFiles allFiles)) as (_ & Hw & _).
  apply Hw in H. destruct H as [H _]. unfold filterFiles in H.
  apply filter_In in H. tauto.
Qed.

Lemma run_retains allFiles w res w' :
  WfWorld w ->
  run env now allFiles w = (res, w') ->
  WfWorld w'
  /\ forall v, In v (index w) ->
       (forall f, In f allFiles -> fileIdEq (file_id f) v = false) ->
       In v (index w').
Proof.
  intros Hwf H. unfold run in H.
  destruct (classifyChanges _ _ now) as [ch|m] eqn:Hch.
  - destruct (indexNew env now (newFiles ch) (mkAcc 0 0 []) w) as [accNew w1] eqn:Hnew.
    destruct (indexNew_retains _ _ _ _ _ Hwf Hnew) as [Hwf1 Hkeep1].
    destruct (reindexModified env now (modifiedFiles ch) (mkAcc 0 0 []) w1)
      as [rm w2] eqn:Hmod.
    destruct (reindexModified_retains _ _ _ _ _ Hwf1 Hmod) as [Hwf2 Hkeep2].
    assert (Hw2 : w' = w2) by (destruct rm; injection H as _ <-; reflexivity).
    subst w'. split; [exact Hwf2|]. intros v Hv Hne.
    apply Hkeep2; [apply Hkeep1; exact Hv|].
    intros e He. apply Hne.
    destruct (classifyChanges_members _ _ _ _ Hch) as (_ & Hm & _).
    apply Hm in He. destruct He as [He _]. apply winners_in_listing. exact He.
  - injection H as _ <-. auto.
Qed.

End RetentionFacts.

Lemma falsy_id_never_selected (v : Vec) (fileId : string) :
  Js.truthy (File_id (metadata v)) = false -> fileId <> EmptyString ->
  fileIdEq fileId v = false.
Proof.
  unfold Js.truthy, fileIdEq. destruct (File_id (metadata v)) as [s|]; [|reflexivity].
  intros H Hne. apply negb_false_iff in H. apply String.eqb_eq in H. subst s.
  apply String.eqb_neq. congruence.
Qed.

(** C10 (as the code has it). A chunk record whose metadata carries neither
    a document id nor a document name is dropped from both maps built by
    [loadPineconeState]: the by-id map and the by-name map are the same with
    and without it, so it is never matched.  Its [File.lastSyncDate] is
    nevertheless taken into the global sync cutoff, which is read before the
    record is dropped.  No run removes it: Drive ids being non-empty, the
    record is still in the index when [run] ends, however it ends. *)
Theorem C10_records_without_id_and_name (r : Vec) :
  Js.truthy (File_id (metadata r)) = false ->
  Js.truthy (File_name (metadata r)) = false ->
  (forall pre post,
     pineconeFiles (loadFromMatches (pre ++ r :: post))
     = pineconeFiles (loadFromMatches (pre ++ post))
     /\ pineconeFilesByName (loadFromMatches (pre ++ r :: post))
        = pineconeFilesByName (loadFromMatches (pre ++ post))
     /\ allPineconeFiles (loadFromMatches (pre ++ r :: post))
        = allPineconeFiles (loadFromMatches (pre ++ post))
     /\ forall d, lastSyncOf r = Some d ->
          exists l, latestSyncDate (loadFromMatches (pre ++ r :: post)) = Some l
                    /\ (d <= l)%Z)
  /\ (forall env now allFiles w res w',
        WfWorld w -> In r (index w) ->
        (forall f, In f allFiles -> file_id f <> EmptyString) ->
        run env now allFiles w = (res, w') ->
        In r (index w')).
Proof.
  intros Hid Hname. split.
  - intros pre post.
    assert (Hmaps : pineconeFiles (loadFromMatches (pre ++ r :: post))
                    = pineconeFiles (loadFromMatches (pre ++ post))
                    /\ pineconeFilesByName (loadFromMatches (pre ++ r :: post))
                       = pineconeFilesByName (loadFromMatches (pre ++ post))).
    { unfold loadFromMatches. rewrite !fold_left_app. simpl.
      destruct (loadStep_orphan (fold_left loadStep pre emptyState) r Hid Hname).
      apply fold_loadStep_maps; assumption. }
    destruct Hmaps as [H1 H2]. split; [exact H1|]. split; [exact H2|]. split.
    + unfold allPineconeFiles. now rewrite H1, H2.
    + intros d Hd. pose proof (latestSyncDate_spec (pre ++ r :: post)) as Hl.
      destruct (latestSyncDate (loadFromMatches (pre ++ r :: post))) as [l|].
      * exists l. split; [reflexivity|]. destruct Hl as [_ Hub].
        apply (Hub r d); [apply in_or_app; right; left; reflexivity | exact Hd].
      * rewrite Hl in Hd; [discriminate|]. apply in_or_app. right. left. reflexivity.
  - intros env now allFiles w res w' Hwf Hin Hids Hrun.
    destruct (run_retains env now allFiles w res w' Hwf Hrun) as [_ Hkeep].
    apply Hkeep; [exact Hin|]. intros f Hf.
    apply falsy_id_never_selected; [exact Hid | apply Hids; exact Hf].
Qed.

Lemma C10_records_without_id_and_name_witness :
  In Sample.orphan
     (index (snd (run (Sample.collaborators Sample.body) Sample.someNow [Sample.guide]
                      (Sample.world [Sample.orphan; Sample.guideVec]))))
  /\ exists l, latestSyncDate (loadFromMatches ([] ++ Sample.orphan :: [Sample.guideVec]))
               = Some l /\ (20010 <= l)%Z.
Proof.
  destruct (C10_records_without_id_and_name Sample.orphan eq_refl eq_refl) as [Hload Hrun].
  split.
  - apply (Hrun (Sample.collaborators Sample.body) Sample.someNow [Sample.guide]
                (Sample.world [Sample.orphan; Sample.guideVec])
                (fst (run (Sample.collaborators Sample.body) Sample.someNow [Sample.guide]
                          (Sample.world [Sample.orphan; Sample.guideVec])))).
    + split.
      * simpl. repeat constructor; simpl; intuition discriminate.
      * intros v f i u Hv E. simpl in Hv. destruct Hv as [<-|[<-|[]]]; discriminate.
    + left. reflexivity.
    + intros f [<-|[]]. discriminate.
    + destruct (run _ _ _ _); reflexivity.
  - destruct (Hload [] [Sample.guideVec]) as (_ & _ & _ & Hlatest).
    apply Hlatest. reflexivity.
Defined.

(** C10 as stated fails on the cutoff: the record without id and name moves
    the global sync cutoff from day 20000 to day 20010, and with it the item
    modified on day 20008 goes from MODIFIED to UNCHANGED. *)
Lemma C10_cutoff_counterexample :
  Js.truthy (File_id (metadata Sample.orphan)) = false
  /\ Js.truthy (File_name (metadata Sample.orphan)) = false
  /\ latestSyncDate (loadPineconeState [Sample.guideVec]) = Some 20000%Z
  /\ latestSyncDate (loadPineconeState [Sample.orphan; Sample.guideVec]) = Some 20010%Z
  /\ map mod_file (modifiedFiles (Sample.changesOf
        (classifyChanges [Sample.guide] (loadPineconeState [Sample.guideVec])
                         Sample.someNow))) = [Sample.guide]
  /\ map fst (unchangedFiles (Sample.changesOf
        (classifyChanges [Sample.guide]
                         (loadPineconeState [Sample.orphan; Sample.guideVec])
                         Sample.someNow))) = [Sample.guide].
Proof. vm_compute. repeat split; reflexivity. Qed.

(** ** C2: documents that left the repository *)

Lemma in_upsertOne (v x : Vec) (idx : Index) :
  In x (upsertOne v idx) -> x = v \/ In x idx.
Proof.
  induction idx as [|y idx IH]; simpl.
  - intros [<-|[]]. now left.
  - destruct (VecId_eqb (vid y) (vid v)); simpl.
    + intros [<-|H]; auto.
    + intros [<-|H]; auto. destruct (IH H); auto.
Qed.

Lemma in_upsert (batch : list Vec) (x : Vec) : forall idx,
  In x (upsert batch idx) -> In x batch \/ In x idx.
Proof.
  unfold upsert. induction batch as [|v batch IH]; intros idx H; simpl in *; [now right|].
  apply IH in H. destruct H as [H|H]; [auto|].
  apply in_upsertOne in H. destruct H as [->|H]; auto.
Qed.

Section CatalogFacts.

Variable env : Collaborators.

Lemma in_upsertBatches bs x : forall w res w',
  upsertBatches env bs w = (res, w') ->
  In x (index w') -> In x (index w) \/ In x (List.concat bs).
Proof.
  induction bs as [|b bs IH]; intros w res w' H Hin; simpl in H.
  - injection H as _ <-. now left.
  - destruct (upsertThrows env b).
    + injection H as _ <-. now left.
    + apply IH in H; [|exact Hin]. simpl in H. destruct H as [H|H].
      * apply in_upsert in H. destruct H as [H|H]; [right|now left].
        simpl. apply in_or_app. now left.
      * right. simpl. apply in_or_app. now right.
Qed.

Lemma getStep_cases (M : JsMap.t PineconeFile) (mt : Vec) :
  NoDup (JsMap.keys M) ->
  (Js.truthy (File_id (metadata mt)) = false /\ getStep M mt = M)
  \/ exists k, File_id (metadata mt) = Some k /\ k <> EmptyString
       /\ ((~ In k (JsMap.keys M)
            /\ getStep M mt =
               M ++ [(k, mkPineconeFile (File_name (metadata mt))
                                        (File_modifiedDate (metadata mt)) [vid mt])])
           \/ (In k (JsMap.keys M)
               /\ getStep M mt = map (updAll k (pushVectorId (vid mt))) M)).
Proof.
  intros Hnd. unfold getStep.
  destruct (Js.truthy (File_id (metadata mt))) eqn:Ht; simpl; [|left; auto].
  destruct (File_id (metadata mt)) as [k|] eqn:Hk; [|discriminate]. right.
  exists k. split; [reflexivity|]. split.
  { intros ->. discriminate. }
  destruct (JsMap.has M k) eqn:Hh; simpl.
  - right. split.
    + destruct (in_dec string_dec k (JsMap.keys M)) as [H|H]; [exact H|].
      apply has_false_iff in H. congruence.
    + apply update_as_map. exact Hnd.
  - left. apply has_false_iff in Hh. split; [exact Hh|].
    rewrite set_absent by exact Hh. rewrite update_app_last by exact Hh. reflexivity.
Qed.

Lemma filter_fileIdEq_none k l :
  (forall v, In v l -> File_id (metadata v) <> Some k) -> filter (fileIdEq k) l = [].
Proof.
  induction l as [|a l IH]; simpl; intros H; [reflexivity|].
  unfold fileIdEq at 1. destruct (File_id (metadata a)) as [s|] eqn:E.
  - destruct (String.eqb_spec s k) as [->|Hne].
    + exfalso. apply (H a); auto.
    + apply IH. intros v Hv. apply H. auto.
  - apply IH. intros v Hv. apply H. auto.
Qed.

(** The map built by [getPineconeFiles]: one entry per non-empty file id,
    holding the ids of all scanned records that carry it. *)
Lemma getPineconeFiles_spec (ms : list Vec) :
  let M := fold_left getStep ms [] in
  NoDup (JsMap.keys M)
  /\ (forall k pf, In (k, pf) M ->
        vectorIds pf = map vid (filter (fileIdEq k) ms) /\ k <> EmptyString)
  /\ (forall v k, In v ms -> File_id (metadata v) = Some k -> k <> EmptyString ->
        In k (JsMap.keys M)).
Proof.
  induction ms as [|x l IH] using rev_ind.
  - simpl. split; [constructor|]. split; intros; contradiction.
  - rewrite fold_left_app. simpl. set (M := fold_left getStep l []) in *. simpl in IH.
    destruct IH as (Hnd & Hent & Hk).
    destruct (getStep_cases M x Hnd) as [[Hf ->]|(k & Hxk & Hkne & [[Hnew ->]|[Hold ->]])].
    + split; [exact Hnd|]. split.
      * intros k pf Hin. destruct (Hent k pf Hin) as [Hv Hne]. split; [|exact Hne].
        rewrite filter_app. simpl. unfold fileIdEq at 2.
        destruct (File_id (metadata x)) as [s|] eqn:E; [|now rewrite app_nil_r].
        destruct (String.eqb_spec s k) as [->|]; [|now rewrite app_nil_r].
        exfalso. unfold Js.truthy in Hf. apply negb_false_iff in Hf.
        apply String.eqb_eq in Hf. congruence.
      * intros v k Hv Hvk Hne. apply in_app_or in Hv. destruct Hv as [Hv|[<-|[]]].
        -- eapply Hk; eassumption.
        -- exfalso. unfold Js.truthy in Hf. rewrite Hvk in Hf.
           apply negb_false_iff in Hf. apply String.eqb_eq in Hf. congruence.
    + split; [|split].
      * unfold JsMap.keys. rewrite map_app. simpl.
        apply NoDup_app; [exact Hnd | constructor; [simpl; tauto|constructor] |].
        intros a Ha [<-|[]]. exact (Hnew Ha).
      * intros k' pf Hin. apply in_app_or in Hin. destruct Hin as [Hin|[Heq|[]]].
        -- destruct (Hent k' pf Hin) as [Hv Hne]. split; [|exact Hne].
           rewrite filter_app. simpl. unfold fileIdEq at 2. rewrite Hxk.
           destruct (String.eqb_spec k k') as [E|E].
           ++ exfalso. apply Hnew. rewrite E. apply (in_map fst) in Hin. exact Hin.
           ++ rewrite app_nil_r. exact Hv.
        -- inversion Heq; subst. split; [|exact Hkne]. simpl.
           rewrite filter_app. simpl. unfold fileIdEq at 2. rewrite Hxk, String.eqb_refl.
           rewrite filter_fileIdEq_none; [reflexivity|].
           intros v Hv E. apply Hnew. eapply Hk; eassumption.
      * intros v k' Hv Hvk Hne. unfold JsMap.keys. rewrite map_app. apply in_or_app.
        apply in_app_or in Hv. destruct Hv as [Hv|[<-|[]]].
        -- left. eapply Hk; eassumption.
        -- right. left. simpl. congruence.
    + split; [|split].
      * rewrite keys_map_updAll. exact Hnd.
      * intros k' pf Hin. apply in_map_iff in Hin. destruct Hin as [[k0 pf0] [Hu Hin]].
        destruct (Hent k0 pf0 Hin) as [Hv Hne]. unfold updAll in Hu. simpl in Hu.
        rewrite filter_app. simpl. unfold fileIdEq at 2. rewrite Hxk.
        destruct (String.eqb_spec k0 k) as [E|E]; inversion Hu; subst.
        -- rewrite String.eqb_refl. split; [|exact Hne]. simpl.
           rewrite map_app, Hv. reflexivity.
        -- destruct (String.eqb_spec k k') as [E'|E']; [congruence|].
           rewrite app_nil_r. auto.
      * intros v k' Hv Hvk Hne. rewrite keys_map_updAll.
        apply in_app_or in Hv. destruct Hv as [Hv|[<-|[]]].
        -- eapply Hk; eassumption.
        -- congruence.
Qed.

Lemma compareDriveFile_fold M dfs : forall st,
  let st' := fold_left (compareDriveFile M) dfs st in
  st_deletedFiles st' = st_deletedFiles st
  /\ forall m, In m (st_modifiedFiles st') ->
       In m (st_modifiedFiles st) \/ In (mf_file m) dfs.
Proof.
  induction dfs as [|d dfs IH]; intros st; simpl; [auto|].
  destruct (IH (compareDriveFile M st d)) as [H1 H2]. split.
  - rewrite H1. unfold compareDriveFile.
    destruct (JsMap.get M (file_id d)) as [pf|]; [|reflexivity].
    destruct (match pf_modifiedDate pf with Some _ => _ | None => _ end); reflexivity.
  - intros m Hm. apply H2 in Hm. destruct Hm as [Hm|Hm]; [|auto].
    unfold compareDriveFile in Hm.
    destruct (JsMap.get M (file_id d)) as [pf|]; [|auto].
    destruct (match pf_modifiedDate pf with Some _ => _ | None => _ end); [|auto].
    simpl in Hm. apply in_app_or in Hm. destruct Hm as [Hm|[<-|[]]]; auto.
Qed.

Lemma compareDeleted_fold dfs M : forall st,
  st_modifiedFiles (fold_left (compareDeleted dfs) M st) = st_modifiedFiles st
  /\ forall k pf, In (k, pf) M -> ~ In k (map file_id dfs) ->
       In (mkDeletedFile k (pf_name pf) (vectorIds pf))
          (st_deletedFiles (fold_left (compareDeleted dfs) M st)).
Proof.
  assert (Hmono : forall M st d, In d (st_deletedFiles st) ->
            In d (st_deletedFiles (fold_left (compareDeleted dfs) M st))).
  { induction M0 as [|[k pf] M0 IH]; intros st d Hd; cbn [fold_left]; [exact Hd|].
    apply IH. unfold compareDeleted.
    destruct (negb _); simpl; [apply in_or_app; now left | exact Hd]. }
  induction M as [|[k pf] M IH]; intros st; cbn [fold_left];
    [split; [reflexivity|intros ? ? []]|].
  destruct (IH (compareDeleted dfs st (k, pf))) as [H1 H2]. split.
  - rewrite H1. unfold compareDeleted. destruct (negb _); reflexivity.
  - intros k' pf' [E|Hin] Hnot; [|apply H2; assumption].
    inversion E; subst. apply Hmono. unfold compareDeleted.
    destruct (existsb (String.eqb k') (map file_id dfs)) eqn:Hex; simpl.
    + exfalso. apply Hnot. apply existsb_exists in Hex. destruct Hex as [y [Hy E']].
      apply String.eqb_eq in E'. now subst y.
    + apply in_or_app. right. left. reflexivity.
Qed.

Lemma indexNewFiles_lists dryRun files : forall st,
  st_modifiedFiles (indexNewFiles dryRun files st) = st_modifiedFiles st
  /\ st_deletedFiles (indexNewFiles dryRun files st) = st_deletedFiles st.
Proof.
  induction files as [|f files IH]; intros st; simpl; [auto|].
  destruct dryRun; [apply IH|]. destruct (IH (addError st (file_name f)
    "Cannot read properties of undefined (reading 'downloadFile')")) as [H1 H2].
  rewrite H1, H2. auto.
Qed.

Lemma reindexOne_spec m st w st' w' :
  reindexOne env m st w = (st', w') ->
  st_deletedFiles st' = st_deletedFiles st
  /\ forall v, In v (index w') ->
       In v (index w) \/ File_id (metadata v) = Some (file_id (mf_file m)).
Proof.
  unfold reindexOne. intros H.
  destruct (deleteManyThrows env (oldVectorIds m)).
  { injection H as <- <-. simpl. auto. }
  assert (Hdel : forall v, In v (deleteMany (oldVectorIds m) (index w)) -> In v (index w)).
  { intros v Hv. apply in_deleteMany in Hv. tauto. }
  destruct (extractText env (mf_file m)) as [text|msg].
  2:{ injection H as <- <-. simpl. auto. }
  destruct (String.length (Js.trim text) <? minContent)%nat.
  { injection H as <- <-. simpl. auto. }
  simpl in H.
  destruct (createVectorsFrom env (catalogMetadata (mf_file m)) (file_id (mf_file m)) 0 _
              (nextUuid w)) as [[vectors|msg] next'] eqn:Hcv.
  2:{ injection H as <- <-. simpl. auto. }
  destruct (createVectorsFrom_ok env _ _ _ _ _ _ _ Hcv) as (_ & _ & Hvs & _).
  destruct (uploadToPinecone env vectors _) as [up w3] eqn:Hup.
  unfold uploadToPinecone in Hup.
  assert (Hw3 : forall v, In v (index w3) ->
            In v (index w) \/ File_id (metadata v) = Some (file_id (mf_file m))).
  { intros v Hv. destruct (in_upsertBatches _ v _ _ _ Hup Hv) as [Hin|Hin].
    - left. apply Hdel. exact Hin.
    - right. rewrite batchesOf_concat in Hin by lia.
      destruct (Hvs v Hin) as (j & u & c & _ & _ & _ & Hm). rewrite Hm. reflexivity. }
  destruct up; injection H as <- <-; simpl; auto.
Qed.

Lemma reindexModifiedFiles_spec files : forall st w st' w',
  reindexModifiedFiles env false files st w = (st', w') ->
  st_deletedFiles st' = st_deletedFiles st
  /\ forall v, In v (index w') ->
       In v (index w)
       \/ exists m, In m files /\ File_id (metadata v) = Some (file_id (mf_file m)).
Proof.
  induction files as [|m files IH]; intros st w st' w' H; simpl in H.
  - injection H as <- <-. auto.
  - destruct (reindexOne env m st w) as [st1 w1] eqn:H1.
    destruct (reindexOne_spec _ _ _ _ _ H1) as [Hd1 Hv1].
    destruct (IH _ _ _ _ H) as [Hd Hv]. split; [congruence|].
    intros v Hin. destruct (Hv v Hin) as [Hin1|(m' & Hm' & E)].
    + destruct (Hv1 v Hin1) as [Hin0|E]; [now left|].
      right. exists m. split; [now left | exact E].
    + right. exists m'. split; [now right | exact E].
Qed.

Lemma deleteRemovedFiles_spec files :
  (forall ids, deleteManyThrows env ids = false) ->
  forall st w st' w',
  deleteRemovedFiles env false files st w = (st', w') ->
  forall v, In v (index w') ->
    In v (index w) /\ forall d, In d files -> ~ In (vid v) (del_vectorIds d).
Proof.
  intros Hdel. induction files as [|d files IH]; intros st w st' w' H v Hv; simpl in H.
  - injection H as <- <-. split; [exact Hv | intros d []].
  - rewrite Hdel in H. destruct (IH _ _ _ _ H v Hv) as [Hin Hrest]. simpl in Hin.
    apply in_deleteMany in Hin. destruct Hin as [Hin Hnot]. split; [exact Hin|].
    intros d' [<-|Hd']; [exact Hnot | apply Hrest; exact Hd'].
Qed.

End CatalogFacts.

Lemma queryAll_within_topK (idx : Index) :
  List.length idx <= topK -> queryAll idx = idx.
Proof.
  intros H. unfold queryAll. rewrite query_within_topK by exact H.
  induction idx as [|v idx IH]; simpl; [reflexivity|]. f_equal. apply IH.
  simpl in H. lia.
Qed.

(** C2 (as the code has it).  The catalog syncer decides DELETED by id
    alone: a document rebuilt by [getPineconeFiles] (those carrying a
    non-empty [File.id]) whose id is the id of no supported Drive file is
    listed in [deletedFiles] with the vector ids of all its scanned records;
    when the index fits one scan and [deleteMany] succeeds, no record with
    that id is left after a live [sync].  The [run] of [IntelligentSync]
    removes no such document: whatever its outcome, it keeps every record
    whose id belongs to no listed file. *)
Theorem C2_deleted_by_id_in_catalog_syncer
    (env : Collaborators) (allFiles : list DriveFile) (w : World) (fileId : string) :
  let pineconeFiles := getPineconeFiles (index w) in
  let driveFiles := supportedFiles allFiles in
  let st := compareFiles driveFiles pineconeFiles emptyStats in
  In fileId (JsMap.keys pineconeFiles) ->
  ~ In fileId (map file_id driveFiles) ->
  (exists pf,
     JsMap.get pineconeFiles fileId = Some pf
     /\ In (mkDeletedFile fileId (pf_name pf) (vectorIds pf)) (st_deletedFiles st)
     /\ vectorIds pf = map vid (filter (fileIdEq fileId) (queryAll (index w))))
  /\ (List.length (index w) <= topK ->
      (forall ids, deleteManyThrows env ids = false) ->
      forall st' w', sync env false allFiles w = (st', w') ->
      forall v, In v (index w') -> fileIdEq fileId v = false)
  /\ (forall now res w',
        WfWorld w -> run env now allFiles w = (res, w') ->
        forall v, In v (index w) ->
          (forall f, In f allFiles -> fileIdEq (file_id f) v = false) ->
          In v (index w')).
Proof.
  intros pineconeFiles driveFiles st Hkey Hgone.
  destruct (getPineconeFiles_spec (queryAll (index w))) as (Hnd & Hent & _).
  fold (getPineconeFiles (index w)) in Hnd, Hent. fold pineconeFiles in Hnd, Hent.
  assert (Hpf : exists pf, In (fileId, pf) pineconeFiles).
  { unfold JsMap.keys in Hkey. apply in_map_iff in Hkey.
    destruct Hkey as [[k pf] [E Hin]]. simpl in E. subst k. eauto. }
  destruct Hpf as [pf Hpf].
  destruct (Hent fileId pf Hpf) as [Hids _].
  assert (Hdel : In (mkDeletedFile fileId (pf_name pf) (vectorIds pf)) (st_deletedFiles st)).
  { unfold st, compareFiles.
    apply (proj2 (compareDeleted_fold driveFiles pineconeFiles _) fileId pf Hpf Hgone). }
  split; [|split].
  - exists pf. split; [apply in_get; assumption|]. split; [exact Hdel | exact Hids].
  - intros Hk Hthrow st' w' Hsync v Hv.
    destruct (fileIdEq fileId v) eqn:Hf; [exfalso|reflexivity].
    unfold sync in Hsync. fold driveFiles pineconeFiles st in Hsync.
    destruct (indexNewFiles_lists false (st_newFiles st) st) as [Hm1 Hd1].
    set (st1 := indexNewFiles false (st_newFiles st) st) in *.
    destruct (reindexModifiedFiles env false (st_modifiedFiles st1) st1 w)
      as [st2 w2] eqn:Hre.
    destruct (reindexModifiedFiles_spec env _ _ _ _ _ Hre) as [Hd2 Hv2].
    destruct (deleteRemovedFiles_spec env _ Hthrow _ _ _ _ Hsync v Hv) as [Hin2 Hnot].
    assert (Hnotin : ~ In (vid v) (vectorIds pf)).
    { apply (Hnot (mkDeletedFile fileId (pf_name pf) (vectorIds pf))).
      rewrite Hd2, Hd1. exact Hdel. }
    destruct (Hv2 v Hin2) as [Hin0|(m & Hm & E)].
    + apply Hnotin. rewrite Hids, queryAll_within_topK by exact Hk.
      apply in_map. apply filter_In. auto.
    + apply Hgone. unfold fileIdEq in Hf. rewrite E in Hf. apply String.eqb_eq in Hf.
      rewrite <- Hf. apply in_map.
      rewrite Hm1 in Hm. unfold st, compareFiles in Hm.
      rewrite (proj1 (compareDeleted_fold driveFiles pineconeFiles _)) in Hm.
      destruct (proj2 (compareDriveFile_fold pineconeFiles driveFiles emptyStats) m Hm)
        as [[]|H]; exact H.
  - intros now res w' Hwf Hrun v Hv Hne.
    destruct (run_retains env now allFiles w res w' Hwf Hrun) as [_ Hkeep].
    apply Hkeep; assumption.
Qed.

Lemma C2_deleted_by_id_in_catalog_syncer_witness :
  Forall (fun v => fileIdEq "X" v = false)
         (index (snd (sync (Sample.collaborators Sample.body) false [Sample.guide]
                           (Sample.world [Sample.oldDeckVec; Sample.guideVec])))).
Proof.
  apply Forall_forall.
  destruct (C2_deleted_by_id_in_catalog_syncer (Sample.collaborators Sample.body)
              [Sample.guide] (Sample.world [Sample.oldDeckVec; Sample.guideVec]) "X")
    as (_ & Hsync & _).
  - vm_compute. left. reflexivity.
  - vm_compute. intros [H|[]]. discriminate.
  - apply (Hsync ltac:(apply Nat.leb_le; vm_compute; reflexivity)
                 ltac:(intros; reflexivity)
                 (fst (sync (Sample.collaborators Sample.body) false [Sample.guide]
                            (Sample.world [Sample.oldDeckVec; Sample.guideVec])))).
    destruct (sync _ _ _ _); reflexivity.
Defined.

(** C2 as stated fails in the reconciliation engine: the indexed document
    "Old Deck" is rebuilt by the loader, the listing is empty so that no
    winning item matches it, the run completes with exit code 0 and issues
    no call to the index, and the document's chunk is still there. *)
Lemma C2_deleted_documents_counterexample :
  let w := Sample.world [Sample.oldDeckVec] in
  let r := run (Sample.collaborators Sample.body) Sample.someNow [] w in
  JsMap.keys (pineconeFiles (loadPineconeState (index w))) = ["X"]
  /\ detectDuplicates (filterFiles []) = []
  /\ exitCode (Sample.outcomeOf r) = 0%Z
  /\ changes (Sample.outcomeOf r) = mkChanges [] [] []
  /\ ops (snd r) = []
  /\ filter (fileIdEq "X") (index (snd r)) = [Sample.oldDeckVec].
Proof. vm_compute. repeat split; reflexivity. Qed.

(** ** A successful [indexFile] writes at least one record *)

Lemma blank_trimStart s : blank (Js.trimStart s) = blank s.
Proof.
  induction s as [|c s IH]; simpl; [reflexivity|].
  destruct (Js.isSpace c) eqn:E; simpl; [exact IH | now rewrite E].
Qed.

Lemma trimEnd_empty_iff s : Js.trimEnd s = EmptyString <-> blank s = true.
Proof.
  induction s as [|c s IH]; simpl; [tauto|].
  destruct (Js.trimEnd s) eqn:E.
  - destruct (Js.isSpace c); simpl.
    + split; intros _; [apply IH|]; reflexivity.
    + split; discriminate.
  - rewrite andb_true_iff. split; [discriminate|]. intros [_ H].
    apply IH in H. discriminate.
Qed.

Lemma trim_empty_iff s : Js.trim s = EmptyString <-> blank s = true.
Proof. unfold Js.trim. now rewrite trimEnd_empty_iff, blank_trimStart. Qed.

Lemma blank_append a b : blank (a ++ b) = blank a && blank b.
Proof.
  induction a as [|c a IH]; simpl; [reflexivity|]. rewrite IH. now rewrite andb_assoc.
Qed.

Lemma joinLines_split text : joinLines (Js.split Js.nl text) = (text ++ nlStr)%string.
Proof.
  induction text as [|c text IH]; [reflexivity|].
  cbn [Js.split]. destruct (Ascii.eqb_spec c Js.nl) as [->|Hne].
  - cbn [joinLines]. rewrite IH. reflexivity.
  - destruct (Js.split Js.nl text) as [|l ls] eqn:E.
    + exfalso. exact (split_nonempty _ _ E).
    + cbn [joinLines] in *. simpl. now rewrite <- IH.
Qed.

Lemma chunkText_nonempty (text : string) (chunkSize overlap : nat) :
  Js.trim text <> EmptyString -> chunkText text chunkSize overlap <> [].
Proof.
  intros Htext.
  destruct (chunkText_windows false text chunkSize overlap) as [_ H]; [discriminate|].
  destruct H as (front & [carry run] & Hcat & _ & Hmap & Hfirst).
  intros Hnil. rewrite Hnil in Hmap. simpl in Hmap.
  destruct front as [|p front]; [|discriminate].
  simpl in Hmap, Hcat, Hfirst. rewrite app_nil_r in Hcat.
  rewrite (Hfirst eq_refl) in Hmap. subst run.
  unfold render in Hmap. simpl in Hmap. rewrite joinLines_split in Hmap.
  destruct (String.eqb_spec (Js.trim (text ++ nlStr)) EmptyString) as [E|E];
    [|discriminate].
  apply trim_empty_iff in E. rewrite blank_append in E. apply andb_true_iff in E.
  apply Htext. apply trim_empty_iff. tauto.
Qed.

(** ** Which keys the loader's maps hold *)

Lemma keys_set {V} (m : JsMap.t V) k v k' :
  In k' (JsMap.keys (JsMap.set m k v)) <-> k' = k \/ In k' (JsMap.keys m).
Proof.
  induction m as [|[k0 v0] m IH]; simpl.
  - intuition congruence.
  - destruct (String.eqb_spec k0 k) as [->|Hne]; simpl.
    + intuition congruence.
    + rewrite IH. tauto.
Qed.

Lemma keys_update {V} (m : JsMap.t V) k f :
  JsMap.keys (JsMap.update m k f) = JsMap.keys m.
Proof.
  induction m as [|[k0 v0] m IH]; simpl; [reflexivity|].
  destruct (String.eqb k0 k); simpl; [reflexivity | now rewrite IH].
Qed.

Lemma fileIdEq_iff id v : fileIdEq id v = true <-> File_id (metadata v) = Some id.
Proof.
  unfold fileIdEq. destruct (File_id (metadata v)) as [s|].
  - rewrite String.eqb_eq. split; congruence.
  - split; discriminate.
Qed.

Lemma truthy_some s : Js.truthy (Some s) = true <-> s <> EmptyString.
Proof.
  unfold Js.truthy. rewrite negb_true_iff. apply String.eqb_neq.
Qed.

Lemma has_true_iff {V} (m : JsMap.t V) k :
  JsMap.has m k = true <-> In k (JsMap.keys m).
Proof.
  destruct (JsMap.has m k) eqn:E.
  - split; [intros _|reflexivity].
    destruct (in_dec string_dec k (JsMap.keys m)) as [H|H]; [exact H|].
    apply has_false_iff in H. congruence.
  - apply has_false_iff in E. split; [discriminate | contradiction].
Qed.

Lemma loadStep_keys st mt :
  (forall k, In k (JsMap.keys (pineconeFiles (loadStep st mt))) <->
             In k (JsMap.keys (pineconeFiles st))
             \/ (File_id (metadata mt) = Some k /\ k <> EmptyString))
  /\ (forall n, In n (JsMap.keys (pineconeFilesByName (loadStep st mt))) <->
                In n (JsMap.keys (pineconeFilesByName st))
                \/ (Js.truthy (File_id (metadata mt)) = false
                    /\ File_name (metadata mt) = Some n /\ n <> EmptyString)).
Proof.
  unfold loadStep.
  destruct (Js.truthy (File_id (metadata mt))) eqn:Hid.
  - destruct (File_id (metadata mt)) as [fid|] eqn:Hf; [|discriminate].
    apply truthy_some in Hid.
    destruct (JsMap.has (pineconeFiles st) fid) eqn:Hh; simpl.
    + apply has_true_iff in Hh. split.
      * intros k. rewrite keys_update. split; [tauto|].
        intros [H|[H _]]; [exact H|]. inversion H; subst. exact Hh.
      * intros n. split; [tauto|]. intros [H|[H _]]; [exact H | discriminate].
    + split.
      * intros k. rewrite keys_set. split.
        -- intros [->|H]; auto.
        -- intros [H|[H _]]; [auto|]. inversion H; auto.
      * intros n. split; [tauto|]. intros [H|[H _]]; [exact H | discriminate].
  - destruct (Js.truthy (File_name (metadata mt))) eqn:Hname.
    + destruct (File_name (metadata mt)) as [fname|] eqn:Hn; [|discriminate].
      apply truthy_some in Hname.
      assert (Hk : forall k, File_id (metadata mt) = Some k -> k <> EmptyString -> False).
      { intros k E Hne. rewrite E in Hid. apply truthy_some in Hne. congruence. }
      destruct (JsMap.has (pineconeFilesByName st) fname) eqn:Hh; simpl.
      * apply has_true_iff in Hh. split.
        -- intros k. split; [tauto|]. intros [H|[H1 H2]]; [exact H|].
           exfalso. eapply Hk; eassumption.
        -- intros n. rewrite keys_update. split; [tauto|].
           intros [H|(_ & H & _)]; [exact H|]. inversion H; subst. exact Hh.
      * split.
        -- intros k. split; [tauto|]. intros [H|[H1 H2]]; [exact H|].
           exfalso. eapply Hk; eassumption.
        -- intros n. rewrite keys_set. split.
           ++ intros [->|H]; auto.
           ++ intros [H|(_ & H & _)]; [auto|]. inversion H; auto.
    + simpl. split.
      * intros k. split; [tauto|]. intros [H|[H1 H2]]; [exact H|].
        exfalso. rewrite H1 in Hid. apply truthy_some in H2. congruence.
      * intros n. split; [tauto|]. intros [H|(_ & H1 & H2)]; [exact H|].
        exfalso. rewrite H1 in Hname. apply truthy_some in H2. congruence.
Qed.

Lemma loader_keys ms : forall st,
  (forall k, In k (JsMap.keys (pineconeFiles (fold_left loadStep ms st))) <->
             In k (JsMap.keys (pineconeFiles st)) \/ (k <> EmptyString /\ HasId k ms))
  /\ (forall n, In n (JsMap.keys (pineconeFilesByName (fold_left loadStep ms st))) <->
                In n (JsMap.keys (pineconeFilesByName st))
                \/ (n <> EmptyString /\ HasLegacyName n ms)).
Proof.
  induction ms as [|m ms IH]; intros st; simpl.
  - split; intros x; (split; [tauto|]); intros [H|[_ (v & [] & _)]]; exact H.
  - destruct (IH (loadStep st m)) as [IH1 IH2].
    destruct (loadStep_keys st m) as [S1 S2]. split.
    + intros k. rewrite IH1, S1. unfold HasId. split.
      * intros [[H|[H1 H2]]|[H1 (v & Hv & Hf)]]; [tauto | |].
        -- right. split; [exact H2|]. exists m. split; [now left|].
           now apply fileIdEq_iff.
        -- right. split; [exact H1|]. exists v. split; [now right | exact Hf].
      * intros [H|[H1 (v & [<-|Hv] & Hf)]]; [tauto | |].
        -- left. right. split; [now apply fileIdEq_iff | exact H1].
        -- right. split; [exact H1|]. exists v. auto.
    + intros n. rewrite IH2, S2. unfold HasLegacyName. split.
      * intros [[H|(H1 & H2 & H3)]|[H1 (v & Hv & Hf)]]; [tauto | |].
        -- right. split; [exact H3|]. exists m. split; [now left|]. auto.
        -- right. split; [exact H1|]. exists v. split; [now right | exact Hf].
      * intros [H|[H1 (v & [<-|Hv] & Hf)]]; [tauto | |].
        -- left. right. destruct Hf. auto.
        -- right. split; [exact H1|]. exists v. auto.
Qed.

Lemma get_some_iff {V} (m : JsMap.t V) k :
  (exists v, JsMap.get m k = Some v) <-> In k (JsMap.keys m).
Proof.
  split.
  - intros [v H]. apply get_in in H. apply (in_map fst) in H. exact H.
  - intros H. destruct (JsMap.get m k) as [v|] eqn:E; [eauto|].
    apply get_none_iff in E. contradiction.
Qed.

(** The by-id map has an entry for [id] exactly when some scanned record
    carries that non-empty id; the by-name map has one for [n] exactly when
    some scanned record without a usable id carries that non-empty name. *)
Lemma loader_by_id (ms : list Vec) (id : string) :
  (exists p, JsMap.get (pineconeFiles (loadFromMatches ms)) id = Some p)
  <-> id <> EmptyString /\ HasId id ms.
Proof.
  rewrite get_some_iff. unfold loadFromMatches.
  rewrite (proj1 (loader_keys ms emptyState)). simpl. tauto.
Qed.

Lemma loader_by_name (ms : list Vec) (n : string) :
  (exists p, JsMap.get (pineconeFilesByName (loadFromMatches ms)) n = Some p)
  <-> n <> EmptyString /\ HasLegacyName n ms.
Proof.
  rewrite get_some_iff. unfold loadFromMatches.
  rewrite (proj2 (loader_keys ms emptyState)). simpl. tauto.
Qed.

(** ** What a run without failures leaves in the index *)

Section SuccessFacts.

Variable env : Collaborators.
Variable now : Z.

Lemma HasId_incl id (idx idx' : Index) :
  (forall v, In v idx -> In v idx') -> HasId id idx -> HasId id idx'.
Proof. intros H (v & Hv & Hf). exists v. auto. Qed.

Lemma record_failed acc f r :
  acc_failed acc <= acc_failed (record acc f r)
  /\ (acc_failed (record acc f r) = acc_failed acc -> success r = true).
Proof.
  unfold record. destruct (success r); simpl; split; auto; lia.
Qed.

Lemma indexNew_failed_mono files : forall acc w acc' w',
  indexNew env now files acc w = (acc', w') -> acc_failed acc <= acc_failed acc'.
Proof.
  induction files as [|f files IH]; intros acc w acc' w' H; simpl in H.
  - injection H as <- <-. lia.
  - destruct (indexFile env now f w) as [r w1]. apply IH in H.
    pose proof (proj1 (record_failed acc f r)). lia.
Qed.

Lemma reindexModified_failed_mono entries : forall acc w acc' w',
  reindexModified env now entries acc w = (Ok acc', w') ->
  acc_failed acc <= acc_failed acc'.
Proof.
  induction entries as [|e entries IH]; intros acc w acc' w' H; simpl in H.
  - injection H as <- <-. lia.
  - destruct (deleteFileVectors env _ w) as [[n|m] w1]; [|discriminate].
    destruct (indexFile env now (mod_file e) w1) as [r w2]. apply IH in H.
    pose proof (proj1 (record_failed acc (mod_file e) r)). lia.
Qed.

Lemma indexFile_success f w r w' :
  WfWorld w ->
  indexFile env now f w = (r, w') ->
  success r = true ->
  WfWorld w'
  /\ (forall v, In v (index w) -> In v (index w'))
  /\ HasId (file_id f) (index w')
  /\ HasSync (dateOf now) (index w').
Proof.
  intros Hwf Hi Hs.
  destruct (indexFile_spec env now f w r w' Hwf Hi)
    as (Hwf' & _ & written & Hidx & Hmeta & _ & Hok).
  destruct (Hok Hs) as (text & _ & Hlen & Hcount).
  assert (Hne : written <> []).
  { intros ->. simpl in Hcount. symmetry in Hcount. apply length_zero_iff_nil in Hcount.
    revert Hcount. apply chunkText_nonempty. intros E. rewrite E in Hlen.
    unfold minContent in Hlen. simpl in Hlen. lia. }
  destruct written as [|v written]; [congruence|].
  destruct (Hmeta v (or_introl eq_refl)) as [c Hc].
  assert (Hv : In v (index w')) by (rewrite Hidx; apply in_or_app; right; now left).
  split; [exact Hwf'|]. split; [|split].
  - intros x Hx. rewrite Hidx. apply in_or_app. now left.
  - exists v. split; [exact Hv|]. apply fileIdEq_iff. rewrite Hc. reflexivity.
  - exists v. split; [exact Hv|]. unfold lastSyncOf. rewrite Hc. reflexivity.
Qed.

Lemma indexNew_success files : forall acc w acc' w',
  WfWorld w ->
  indexNew env now files acc w = (acc', w') ->
  acc_failed acc' = acc_failed acc ->
  WfWorld w'
  /\ (forall v, In v (index w) -> In v (index w'))
  /\ (forall f, In f files -> HasId (file_id f) (index w'))
  /\ (files <> [] -> HasSync (dateOf now) (index w')).
Proof.
  induction files as [|f files IH]; intros acc w acc' w' Hwf H Hfail; simpl in H.
  - injection H as <- <-. split; [exact Hwf|]. split; [auto|].
    split; [intros f [] | congruence].
  - destruct (indexFile env now f w) as [r w1] eqn:Hi.
    pose proof (indexNew_failed_mono _ _ _ _ _ H) as Hmono.
    destruct (record_failed acc f r) as [Hle Hsucc].
    assert (Hrec : acc_failed (record acc f r) = acc_failed acc) by lia.
    destruct (indexFile_success f w r w1 Hwf Hi (Hsucc Hrec)) as (Hwf1 & Hk1 & Hid1 & Hs1).
    destruct (IH _ _ _ _ Hwf1 H ltac:(lia)) as (Hwf' & Hk & Hid & _).
    split; [exact Hwf'|]. split; [auto|]. split.
    + intros g [<-|Hg]; [|apply Hid; exact Hg].
      eapply HasId_incl; [exact Hk | exact Hid1].
    + intros _. destruct Hs1 as (v & Hv & Hd). exists v. auto.
Qed.

Lemma reindexModified_success entries : forall acc w acc' w',
  WfWorld w ->
  reindexModified env now entries acc w = (Ok acc', w') ->
  acc_failed acc' = acc_failed acc ->
  WfWorld w'
  /\ (forall id, HasId id (index w) -> HasId id (index w'))
  /\ (forall v, In v (index w) ->
        (forall e, In e entries -> fileIdEq (file_id (mod_file e)) v = false) ->
        In v (index w'))
  /\ (forall e, In e entries -> HasId (file_id (mod_file e)) (index w'))
  /\ (entries <> [] \/ HasSync (dateOf now) (index w) ->
      HasSync (dateOf now) (index w')).
Proof.
  induction entries as [|e entries IH]; intros acc w acc' w' Hwf H Hfail; simpl in H.
  - injection H as <- <-. split; [exact Hwf|]. split; [auto|]. split; [auto|].
    split; [intros e [] | intros [H|H]; [congruence | exact H]].
  - destruct (deleteFileVectors env (file_id (mod_file e)) w) as [[n|m] w1] eqn:Hd;
      [|discriminate].
    destruct (deleteFileVectors_spec env _ w _ w1 Hwf Hd) as (Hwf1 & _ & _ & Hkeep1 & _).
    destruct (indexFile env now (mod_file e) w1) as [r w2] eqn:Hi.
    pose proof (reindexModified_failed_mono _ _ _ _ _ H) as Hmono.
    destruct (record_failed acc (mod_file e) r) as [Hle Hsucc].
    assert (Hrec : acc_failed (record acc (mod_file e) r) = acc_failed acc) by lia.
    destruct (indexFile_success _ w1 r w2 Hwf1 Hi (Hsucc Hrec)) as (Hwf2 & Hk2 & Hid2 & Hs2).
    destruct (IH _ _ _ _ Hwf2 H ltac:(lia)) as (Hwf' & Hids & Hk & Hid & Hs).
    split; [exact Hwf'|]. split; [|split; [|split]].
    + intros id (v & Hv & Hf). apply Hids.
      destruct (String.eqb_spec id (file_id (mod_file e))) as [->|Hne]; [exact Hid2|].
      exists v. split; [|exact Hf]. apply Hk2. apply Hkeep1; [exact Hv|].
      apply fileIdEq_iff in Hf. unfold fileIdEq. rewrite Hf.
      apply String.eqb_neq. exact Hne.
    + intros v Hv Hne. apply Hk.
      * apply Hk2. apply Hkeep1; [exact Hv|]. apply Hne. now left.
      * intros e' He'. apply Hne. now right.
    + intros e' [<-|He']; [apply Hids; exact Hid2 | apply Hid; exact He'].
    + intros _. apply Hs. right. exact Hs2.
Qed.

End SuccessFacts.

(** ** C1: running the pipeline twice *)

Lemma cutoffDate_mono latest now1 now2 :
  (now1 <= now2)%Z -> (cutoffDate latest now1 <= cutoffDate latest now2)%Z.
Proof. unfold cutoffDate. destruct latest; lia. Qed.

Lemma classifyMatched_later cutoff1 cutoff2 file m r :
  (cutoff1 <= cutoff2)%Z ->
  classifyMatched cutoff1 file m = UNCHANGED r ->
  exists r', classifyMatched cutoff2 file m = UNCHANGED r'.
Proof.
  intros Hle H. unfold classifyMatched in *. destruct m as [p|]; [|discriminate].
  destruct (Z.leb_spec (file_modifiedTime file) cutoff2); [eauto|].
  destruct (Z.leb_spec (file_modifiedTime file) cutoff1); [lia|].
  eauto.
Qed.

Lemma classifyLoop_all_unchanged st now files : forall acc,
  (forall f, In f files -> exists r, classifyFile st now f = Ok (UNCHANGED r)) ->
  exists ch, classifyLoop st now files acc = Ok ch
             /\ newFiles ch = newFiles acc
             /\ modifiedFiles ch = modifiedFiles acc
             /\ map fst (unchangedFiles ch) = map fst (unchangedFiles acc) ++ files.
Proof.
  induction files as [|f files IH]; intros acc H; simpl.
  - exists acc. rewrite app_nil_r. auto.
  - destruct (H f (or_introl eq_refl)) as [r Hr]. rewrite Hr. simpl.
    destruct (IH (addClassified acc f (UNCHANGED r))) as (ch & H1 & H2 & H3 & H4).
    { intros g Hg. apply H. now right. }
    exists ch. simpl in *. split; [exact H1|]. split; [exact H2|]. split; [exact H3|].
    rewrite H4, map_app. simpl. now rewrite <- app_assoc.
Qed.

(** A run that classifies every winner UNCHANGED touches nothing. *)
Lemma run_all_unchanged env now allFiles w :
  (forall f, In f (detectDuplicates (filterFiles allFiles)) ->
     exists r, classifyFile (loadPineconeState (index w)) now f = Ok (UNCHANGED r)) ->
  exists out, run env now allFiles w = (Ok out, w)
    /\ exitCode out = 0%Z
    /\ newFiles (changes out) = []
    /\ modifiedFiles (changes out) = []
    /\ map fst (unchangedFiles (changes out)) = detectDuplicates (filterFiles allFiles)
    /\ attempts out = [].
Proof.
  intros H.
  destruct (classifyLoop_all_unchanged _ now _ (mkChanges [] [] []) H)
    as (ch & Hch & Hn & Hm & Hu).
  simpl in Hn, Hm, Hu. unfold run, classifyChanges. rewrite Hch, Hn, Hm. simpl.
  eexists. split; [reflexivity|]. simpl. repeat split; assumption.
Qed.

(** C1 (as the code has it). Running the pipeline twice on an unchanged
    repository: suppose the first run ends with exit code 0.  If the first
    run found nothing to index, or else if the index fits one scan, Drive
    ids are non-empty, no winning item was modified after 00:00 UTC of the
    first run's day, and every item the first run left UNCHANGED was matched
    by id or by exact name, then the second run classifies every winning
    item UNCHANGED, attempts nothing and leaves the index, and the log of
    calls to it, as they were. *)
Theorem C1_second_run_changes_nothing
    (env : Collaborators) (now1 now2 : Z) (allFiles : list DriveFile)
    (w0 w1 : World) (out1 : RunOutcome) :
  let winners := detectDuplicates (filterFiles allFiles) in
  let st0 := loadPineconeState (index w0) in
  WfWorld w0 ->
  run env now1 allFiles w0 = (Ok out1, w1) ->
  exitCode out1 = 0%Z ->
  (now1 <= now2)%Z ->
  ((newFiles (changes out1) = [] /\ modifiedFiles (changes out1) = [])
   \/ (List.length (index w1) <= topK
       /\ (forall f, In f winners ->
             file_id f <> EmptyString
             /\ (file_modifiedTime f <= midnightUTC (dateOf now1))%Z)
       /\ (forall f r, In (f, r) (unchangedFiles (changes out1)) ->
             (exists p, JsMap.get (pineconeFiles st0) (file_id f) = Some p)
             \/ (exists p, JsMap.get (pineconeFilesByName st0) (file_name f) = Some p)))) ->
  exists out2,
    run env now2 allFiles w1 = (Ok out2, w1)
    /\ exitCode out2 = 0%Z
    /\ newFiles (changes out2) = []
    /\ modifiedFiles (changes out2) = []
    /\ map fst (unchangedFiles (changes out2)) = winners
    /\ attempts out2 = [].
Proof.
  intros winners st0 Hwf Hrun Hexit Htime Hcases.
  apply run_all_unchanged. fold winners.
  unfold run in Hrun. fold winners st0 in Hrun.
  destruct (classifyChanges winners st0 now1) as [ch|m] eqn:Hch; [|discriminate].
  destruct (indexNew env now1 (newFiles ch) (mkAcc 0 0 []) w0) as [accNew wa] eqn:Hnew.
  destruct (reindexModified env now1 (modifiedFiles ch) (mkAcc 0 0 []) wa)
    as [[accMod|m] wb] eqn:Hmod; [|discriminate].
  injection Hrun as <- <-. simpl in Hexit, Hcases.
  destruct (classifyChanges_members _ _ _ _ Hch) as (Hmn & Hmm & Hmu & Hmt).
  assert (Hboth : (newFiles ch = [] /\ modifiedFiles ch = [])
                  \/ (newFiles ch <> [] \/ modifiedFiles ch <> [])).
  { destruct (newFiles ch); [|right; left; discriminate].
    destruct (modifiedFiles ch); [left; auto | right; right; discriminate]. }
  destruct Hboth as [[Hn Hm]|Hsome].
  - (* the first run had nothing to index *)
    rewrite Hn in Hnew. rewrite Hm in Hmod. simpl in Hnew, Hmod.
    injection Hnew as _ <-. injection Hmod as _ <-.
    intros f Hf. destruct (Hmt f Hf) as [c Hc].
    assert (Hun : exists r, c = UNCHANGED r).
    { destruct c as [|s p l|r]; [| |eauto].
      - exfalso. assert (Hin : In f (newFiles ch)) by (apply Hmn; auto).
        rewrite Hn in Hin. exact Hin.
      - exfalso. assert (Hin : In (mkModified f s p l) (modifiedFiles ch))
          by (apply Hmm; auto).
        rewrite Hm in Hin. exact Hin. }
    destruct Hun as [r ->]. fold st0.
    unfold classifyFile in *. destruct (matchFile st0 f) as [mt|]; [|discriminate].
    cbn [bindR] in *. injection Hc as Hc.
    destruct (classifyMatched_later _ (cutoffDate (latestSyncDate st0) now2) f mt r
                (cutoffDate_mono _ _ _ Htime) Hc) as [r' Hr'].
    exists r'. now rewrite Hr'.
  - (* the first run indexed something, and every attempt succeeded *)
    destruct Hcases as [[Hn Hm]|(HtopK & Hwin & Hexact)];
      [destruct Hsome; contradiction|].
    assert (Hfail : acc_failed accNew = 0 /\ acc_failed accMod = 0).
    { destruct (Nat.ltb_spec 0 (acc_failed accNew + acc_failed accMod));
        [discriminate | lia]. }
    destruct Hfail as [HfN HfM].
    destruct (indexNew_success env now1 _ _ _ _ _ Hwf Hnew HfN)
      as (Hwfa & Hka & Hida & Hsa).
    destruct (reindexModified_success env now1 _ _ _ _ _ Hwfa Hmod HfM)
      as (Hwfb & Hidsb & Hkb & Hidb & Hsb).
    assert (Hsync : HasSync (dateOf now1) (index wb)).
    { apply Hsb. destruct Hsome as [H|H]; [right; apply Hsa; exact H | left; exact H]. }
    assert (Hst2 : loadPineconeState (index wb) = loadFromMatches (index wb)).
    { unfold loadPineconeState. now rewrite queryAll_within_topK. }
    assert (Hcut : (midnightUTC (dateOf now1)
                    <= cutoffDate (latestSyncDate (loadPineconeState (index wb))) now2)%Z).
    { rewrite Hst2. pose proof (latestSyncDate_spec (index wb)) as Hl.
      destruct Hsync as (v & Hv & Hd).
      destruct (latestSyncDate (loadFromMatches (index wb))) as [l|].
      - destruct Hl as [_ Hub]. specialize (Hub v _ Hv Hd).
        unfold cutoffDate, midnightUTC, msPerDay. lia.
      - rewrite (Hl v Hv) in Hd. discriminate. }
    assert (Hmodids : forall e, In e (modifiedFiles ch) ->
              file_id (mod_file e) <> EmptyString).
    { intros e He. apply Hmm in He. destruct He as [He _]. apply (Hwin _ He). }
    intros f Hf. destruct (Hwin f Hf) as [Hidne Hmodt].
    assert (Hmatch : exists p, matchFile (loadPineconeState (index wb)) f = Ok (Some p)).
    { assert (Hfound : HasId (file_id f) (index wb)
                       \/ (file_name f <> EmptyString
                           /\ HasLegacyName (file_name f) (index wb))).
      { destruct (Hmt f Hf) as [c Hc]. destruct c as [|s p l|r].
        - left. apply Hidsb. apply Hida. apply Hmn. auto.
        - left. apply (Hidb (mkModified f s p l)). apply Hmm. auto.
        - destruct (Hexact f r) as [Hbyid|Hbyname]; [apply Hmu; auto| |].
          + left. apply loader_by_id in Hbyid. destruct Hbyid as [_ (v & Hv & Hfv)].
            apply Hidsb. exists v. split; [|exact Hfv].
            apply Hka. apply in_query in Hv. tauto.
          + right. apply loader_by_name in Hbyname.
            destruct Hbyname as [Hne (v & Hv & Hfalsy & Hnm)].
            split; [exact Hne|]. exists v. split; [|auto].
            apply Hkb; [apply Hka; apply in_query in Hv; tauto|].
            intros e He. apply falsy_id_never_selected; [exact Hfalsy|].
            apply Hmodids. exact He. }
      unfold matchFile. rewrite Hst2.
      destruct (JsMap.get (pineconeFiles (loadFromMatches (index wb))) (file_id f))
        as [p|] eqn:Hg; [eauto|].
      destruct Hfound as [Hid|[Hne Hleg]].
      - assert (Hex : exists p, JsMap.get (pineconeFiles (loadFromMatches (index wb)))
                                          (file_id f) = Some p)
          by (apply loader_by_id; auto).
        destruct Hex as [p Hp]. congruence.
      - assert (Hex : exists p, JsMap.get (pineconeFilesByName
                                   (loadFromMatches (index wb))) (file_name f) = Some p)
          by (apply loader_by_name; auto).
        destruct Hex as [p Hp]. rewrite Hp. eauto. }
    destruct Hmatch as [p Hp]. unfold classifyFile. rewrite Hp. simpl.
    assert (Hle : (file_modifiedTime f
                   <=? cutoffDate (latestSyncDate (loadPineconeState (index wb))) now2)%Z
                  = true) by (apply Z.leb_le; lia).
    rewrite Hle. eauto.
Qed.

Lemma C1_second_run_changes_nothing_witness :
  exists out2,
    run (Sample.collaborators Sample.body) Sample.laterNow [Sample.guide]
        (snd Sample.firstRun) = (Ok out2, snd Sample.firstRun)
    /\ exitCode out2 = 0%Z
    /\ newFiles (changes out2) = []
    /\ modifiedFiles (changes out2) = []
    /\ map fst (unchangedFiles (changes out2)) = detectDuplicates (filterFiles [Sample.guide])
    /\ attempts out2 = [].
Proof.
  apply (C1_second_run_changes_nothing (Sample.collaborators Sample.body)
           Sample.someNow Sample.laterNow [Sample.guide] (Sample.world [])
           (snd Sample.firstRun) (Sample.outcomeOf Sample.firstRun)).
  - split; [constructor | intros v f i u []].
  - vm_compute. reflexivity.
  - vm_compute. reflexivity.
  - vm_compute. discriminate.
  - right. split; [|split].
    + apply Nat.leb_le. vm_compute. reflexivity.
    + intros f Hf. vm_compute in Hf. destruct Hf as [<-|[]].
      split; [discriminate | vm_compute; discriminate].
    + intros f r Hin. vm_compute in Hin. contradiction.
Defined.

(** C1 as stated fails.  First scenario: the item was modified at 00:00:01
    on the day of the runs.  The first run indexes it as NEW and ends with
    exit code 0; the second run, an hour later and with the repository
    untouched, finds its instant after the cutoff (midnight of the sync day)
    and after midnight of its stored modification day, classifies it
    MODIFIED, and deletes and rewrites its chunk.  Second scenario: the first
    run leaves an item UNCHANGED through a fuzzy match with a document that
    it rewrites under its new name; on the second run that item has no match
    left and is NEW.  Third scenario: an item whose text is too short fails
    on the first run and is NEW again on the second. *)
Lemma C1_idempotence_counterexample :
  let env := Sample.collaborators Sample.body in
  let r1 := run env Sample.someNow [Sample.releaseNotes] (Sample.world []) in
  let r2 := run env Sample.laterNow [Sample.releaseNotes] (snd r1) in
  let listing := [Sample.renamedDeck; Sample.playbook] in
  let s1 := run env Sample.someNow listing (Sample.world [Sample.emeaVec]) in
  let s2 := run env Sample.laterNow listing (snd s1) in
  let short := Sample.collaborators "too short" in
  let t1 := run short Sample.someNow [Sample.guide] (Sample.world []) in
  let t2 := run short Sample.laterNow [Sample.guide] (snd t1) in
  (newFiles (changes (Sample.outcomeOf r1)) = [Sample.releaseNotes]
   /\ exitCode (Sample.outcomeOf r1) = 0%Z
   /\ map isUpsert (ops (snd r1)) = [true]
   /\ map mod_file (modifiedFiles (changes (Sample.outcomeOf r2))) = [Sample.releaseNotes]
   /\ unchangedFiles (changes (Sample.outcomeOf r2)) = []
   /\ exitCode (Sample.outcomeOf r2) = 0%Z
   /\ map isUpsert (ops (snd r2)) = [true; false; true]
   /\ map vid (index (snd r1)) = [GenId "T" 0 0]
   /\ map vid (index (snd r2)) = [GenId "T" 0 1])
  /\ (map mod_file (modifiedFiles (changes (Sample.outcomeOf s1))) = [Sample.renamedDeck]
      /\ map fst (unchangedFiles (changes (Sample.outcomeOf s1))) = [Sample.playbook]
      /\ exitCode (Sample.outcomeOf s1) = 0%Z
      /\ newFiles (changes (Sample.outcomeOf s2)) = [Sample.playbook]
      /\ map vid (index (snd s2)) = [GenId "G" 0 0; GenId "Z" 0 1])
  /\ (newFiles (changes (Sample.outcomeOf t1)) = [Sample.guide]
      /\ exitCode (Sample.outcomeOf t1) = 1%Z
      /\ newFiles (changes (Sample.outcomeOf t2)) = [Sample.guide]
      /\ unchangedFiles (changes (Sample.outcomeOf t2)) = []).
Proof. vm_compute. repeat split; reflexivity. Qed.
(* ================================================================== *)
(** * Further properties of the scripts *)

(** ** The fuzzy matcher is symmetric *)

(** [isSimilarName] does not depend on the order of its two arguments, and
    every name is similar to itself, whatever its length. *)
Theorem isSimilarName_symmetric (name1 name2 : string) :
  Names.isSimilarName name1 name2 = Names.isSimilarName name2 name1
  /\ Names.isSimilarName name1 name1 = true.
Proof.
  unfold Names.isSimilarName. split.
  - rewrite (String.eqb_sym (Names.normalizeName name2)).
    destruct (String.eqb _ _); [reflexivity|].
    rewrite (orb_comm (30 <=? String.length (Names.normalizeName name2))%nat).
    destruct (_ || _); [|reflexivity]. apply orb_comm.
  - now rewrite String.eqb_refl.
Qed.

(** ** The classifier partitions its input *)

Lemma classifiedAs_of k st now f c :
  classifyFile st now f = Ok c -> classifiedAs k st now f = Kind_eqb (kindOf c) k.
Proof. intros H. unfold classifiedAs. now rewrite H. Qed.

Lemma classifyLoop_partitions st now files : forall acc ch,
  classifyLoop st now files acc = Ok ch ->
  newFiles ch = newFiles acc ++ filter (classifiedAs KNew st now) files
  /\ map mod_file (modifiedFiles ch) =
     map mod_file (modifiedFiles acc) ++ filter (classifiedAs KModified st now) files
  /\ map fst (unchangedFiles ch) =
     map fst (unchangedFiles acc) ++ filter (classifiedAs KUnchanged st now) files.
Proof.
  induction files as [|file rest IH]; intros acc ch H; simpl in H.
  - injection H as <-. simpl. now rewrite !app_nil_r.
  - destruct (classifyFile st now file) as [c|m] eqn:Hc; simpl in H; [|discriminate].
    destruct (IH _ _ H) as (Hn & Hm & Hu). cbn [filter].
    rewrite !(classifiedAs_of _ _ _ _ _ Hc), Hn, Hm, Hu.
    destruct c; simpl; repeat split; rewrite ?map_app, <- ?app_assoc; reflexivity.
Qed.

(** When [classifyChanges] returns, its three lists are the items of the
    input that the decision procedure sends to each class, in input order:
    every item is on exactly one list, and the lists are together as long as
    the input. *)
Theorem classifyChanges_partitions_input
    (driveFiles : list DriveFile) (st : PineconeState) (now : Z) (ch : Changes) :
  classifyChanges driveFiles st now = Ok ch ->
  newFiles ch = filter (classifiedAs KNew st now) driveFiles
  /\ map mod_file (modifiedFiles ch) = filter (classifiedAs KModified st now) driveFiles
  /\ map fst (unchangedFiles ch) = filter (classifiedAs KUnchanged st now) driveFiles
  /\ List.length (newFiles ch) + List.length (modifiedFiles ch)
     + List.length (unchangedFiles ch) = List.length driveFiles
  /\ (forall f, In f driveFiles ->
        (classifiedAs KNew st now f = true /\ classifiedAs KModified st now f = false
         /\ classifiedAs KUnchanged st now f = false)
        \/ (classifiedAs KNew st now f = false /\ classifiedAs KModified st now f = true
            /\ classifiedAs KUnchanged st now f = false)
        \/ (classifiedAs KNew st now f = false /\ classifiedAs KModified st now f = false
            /\ classifiedAs KUnchanged st now f = true)).
Proof.
  intros H.
  destruct (classifyLoop_partitions st now driveFiles _ _ H) as (Hn & Hm & Hu).
  simpl in Hn, Hm, Hu.
  assert (Hall : forall f, In f driveFiles -> exists c, classifyFile st now f = Ok c).
  { apply (classifyChanges_members driveFiles st now ch H). }
  split; [exact Hn|]. split; [exact Hm|]. split; [exact Hu|]. split.
  - rewrite <- (length_map mod_file (modifiedFiles ch)),
            <- (length_map fst (unchangedFiles ch)), Hn, Hm, Hu.
    clear H Hn Hm Hu. induction driveFiles as [|f l IH]; [reflexivity|].
    cbn [filter List.length].
    destruct (Hall f (or_introl eq_refl)) as [c Hc].
    assert (IH' := IH (fun g Hg => Hall g (or_intror Hg))).
    rewrite !(classifiedAs_of _ _ _ _ _ Hc).
    destruct c; simpl; lia.
  - intros f Hf. destruct (Hall f Hf) as [c Hc]. unfold classifiedAs. rewrite Hc.
    destruct c; simpl; auto.
Qed.

Lemma classifyChanges_partitions_input_witness :
  newFiles (Sample.changesOf
              (classifyChanges [Sample.pricingFile; Sample.goodDoc]
                 (loadPineconeState Sample.pricingIndex) Sample.someNow))
  = [Sample.goodDoc].
Proof.
  destruct (classifyChanges [Sample.pricingFile; Sample.goodDoc]
              (loadPineconeState Sample.pricingIndex) Sample.someNow) as [ch|m] eqn:E.
  - destruct (classifyChanges_partitions_input _ _ _ _ E) as (Hn & _).
    simpl. rewrite Hn. vm_compute. reflexivity.
  - vm_compute in E. discriminate.
Defined.

(** ** What the index state loader stores for a document *)

Lemma get_set {V} (m : JsMap.t V) k v k' :
  JsMap.get (JsMap.set m k v) k' = if String.eqb k k' then Some v else JsMap.get m k'.
Proof.
  induction m as [|[k0 v0] m IH]; simpl.
  - reflexivity.
  - destruct (String.eqb_spec k0 k) as [->|Hne]; simpl.
    + destruct (String.eqb k k'); reflexivity.
    + rewrite IH. destruct (String.eqb_spec k0 k') as [->|Hne'].
      * destruct (String.eqb_spec k k'); [congruence | reflexivity].
      * reflexivity.
Qed.

Lemma get_update {V} (m : JsMap.t V) k f k' :
  JsMap.get (JsMap.update m k f) k' =
  if String.eqb k k' then option_map f (JsMap.get m k) else JsMap.get m k'.
Proof.
  induction m as [|[k0 v0] m IH]; simpl.
  - destruct (String.eqb k k'); reflexivity.
  - destruct (String.eqb_spec k0 k) as [->|Hne]; simpl.
    + destruct (String.eqb k k'); reflexivity.
    + rewrite IH. destruct (String.eqb_spec k0 k') as [->|Hne'].
      * destruct (String.eqb_spec k k'); [congruence | reflexivity].
      * reflexivity.
Qed.

Lemma find_snoc {A} (p : A -> bool) (l : list A) (x : A) :
  find p (l ++ [x]) = match find p l with
                      | Some v => Some v
                      | None => if p x then Some x else None
                      end.
Proof.
  induction l as [|a l IH]; simpl; [reflexivity|]. destruct (p a); [reflexivity | exact IH].
Qed.

Lemma find_none_filter {A} (p : A -> bool) (l : list A) :
  find p l = None -> filter p l = [].
Proof.
  induction l as [|a l IH]; simpl; [reflexivity|]. destruct (p a); [discriminate | exact IH].
Qed.

Lemma filter_snoc_length {A} (p : A -> bool) (l : list A) (x : A) :
  List.length (filter p (l ++ [x])) =
  List.length (filter p l) + (if p x then 1 else 0).
Proof.
  rewrite filter_app, length_app. simpl. destruct (p x); reflexivity.
Qed.

Lemma entryOf_snoc flt fileId withId ms x :
  entryOf flt fileId withId (ms ++ [x]) =
  match entryOf flt fileId withId ms with
  | Some p => Some (if flt x then bumpCount p else p)
  | None => if flt x then Some (newPineconeData (metadata x) fileId withId) else None
  end.
Proof.
  unfold entryOf. rewrite find_snoc.
  destruct (find flt ms) as [v|] eqn:E.
  - f_equal. rewrite filter_app, length_app. simpl.
    destruct (flt x); simpl; unfold withCount, bumpCount; simpl; f_equal; lia.
  - rewrite filter_app, (find_none_filter _ _ E). simpl.
    destruct (flt x); reflexivity.
Qed.

Lemma loader_entries_fold (ms : list Vec) :
  let st := loadFromMatches ms in
  (forall id, id <> EmptyString ->
     JsMap.get (pineconeFiles st) id = entryOf (fileIdEq id) (Some id) true ms)
  /\ (forall n, n <> EmptyString ->
        JsMap.get (pineconeFilesByName st) n = entryOf (legacyNameEq n) None false ms)
  /\ JsMap.get (pineconeFiles st) EmptyString = None
  /\ JsMap.get (pineconeFilesByName st) EmptyString = None.
Proof.
  unfold loadFromMatches.
  induction ms as [|x l IH] using rev_ind.
  - simpl. repeat split; reflexivity.
  - rewrite fold_left_app. cbn [fold_left].
    set (st := fold_left loadStep l emptyState) in *. cbn zeta in IH.
    destruct IH as (Hid & Hname & Hid0 & Hname0).
    assert (Hfid : forall id, fileIdEq id x =
              match File_id (metadata x) with Some s => String.eqb s id | None => false end)
      by reflexivity.
    unfold loadStep.
    destruct (Js.truthy (File_id (metadata x))) eqn:Ht.
    + destruct (File_id (metadata x)) as [fid|] eqn:Hf; [|discriminate].
      assert (Hne : fid <> EmptyString) by (now apply truthy_some).
      assert (Hleg : forall n, legacyNameEq n x = false).
      { intros n. unfold legacyNameEq. now rewrite Hf, Ht. }
      assert (Hget : forall id, id <> EmptyString ->
                JsMap.get (if negb (JsMap.has (pineconeFiles st) fid)
                           then JsMap.set (pineconeFiles st) fid
                                  (newPineconeData (metadata x) (Some fid) true)
                           else JsMap.update (pineconeFiles st) fid bumpCount) id
                = entryOf (fileIdEq id) (Some id) true (l ++ [x])).
      { intros id Hidne. rewrite entryOf_snoc, <- (Hid id Hidne), Hfid.
        unfold JsMap.has.
        destruct (JsMap.get (pineconeFiles st) fid) as [p|] eqn:Hg; simpl.
        - rewrite get_update. destruct (String.eqb_spec fid id) as [->|Hn].
          + rewrite Hg. reflexivity.
          + destruct (JsMap.get (pineconeFiles st) id); reflexivity.
        - rewrite get_set. destruct (String.eqb_spec fid id) as [->|Hn].
          + rewrite Hg. reflexivity.
          + destruct (JsMap.get (pineconeFiles st) id); reflexivity. }
      assert (Hget0 : JsMap.get (if negb (JsMap.has (pineconeFiles st) fid)
                           then JsMap.set (pineconeFiles st) fid
                                  (newPineconeData (metadata x) (Some fid) true)
                           else JsMap.update (pineconeFiles st) fid bumpCount) EmptyString
                = None).
      { destruct (negb _); [rewrite get_set | rewrite get_update];
          (destruct (String.eqb_spec fid EmptyString); [congruence | exact Hid0]). }
      destruct (negb (JsMap.has (pineconeFiles st) fid)); cbn [pineconeFiles pineconeFilesByName].
      * split; [exact Hget|]. split; [|split; [exact Hget0 | exact Hname0]].
        intros n Hn. rewrite entryOf_snoc, Hleg, <- (Hname n Hn).
        destruct (JsMap.get _ n); reflexivity.
      * split; [exact Hget|]. split; [|split; [exact Hget0 | exact Hname0]].
        intros n Hn. rewrite entryOf_snoc, Hleg, <- (Hname n Hn).
        destruct (JsMap.get _ n); reflexivity.
    + assert (Hnoid : forall id, id <> EmptyString -> fileIdEq id x = false).
      { intros id Hne. rewrite Hfid. destruct (File_id (metadata x)) as [s|]; [|reflexivity].
        destruct (String.eqb_spec s id) as [->|]; [|reflexivity].
        apply truthy_some in Hne. congruence. }
      assert (Hsame : forall id, id <> EmptyString ->
                JsMap.get (pineconeFiles st) id
                = entryOf (fileIdEq id) (Some id) true (l ++ [x])).
      { intros id Hne. rewrite entryOf_snoc, (Hnoid id Hne), <- (Hid id Hne).
        destruct (JsMap.get _ id); reflexivity. }
      destruct (Js.truthy (File_name (metadata x))) eqn:Htn.
      * destruct (File_name (metadata x)) as [fname|] eqn:Hfn; [|discriminate].
        assert (Hne : fname <> EmptyString) by (now apply truthy_some).
        assert (Hl : forall n, legacyNameEq n x = String.eqb fname n).
        { intros n. unfold legacyNameEq. now rewrite Ht, Hfn. }
        assert (Hget : forall n, n <> EmptyString ->
                  JsMap.get (if negb (JsMap.has (pineconeFilesByName st) fname)
                             then JsMap.set (pineconeFilesByName st) fname
                                    (newPineconeData (metadata x) None false)
                             else JsMap.update (pineconeFilesByName st) fname bumpCount) n
                  = entryOf (legacyNameEq n) None false (l ++ [x])).
        { intros n Hnne. rewrite entryOf_snoc, <- (Hname n Hnne), Hl.
          unfold JsMap.has.
          destruct (JsMap.get (pineconeFilesByName st) fname) as [p|] eqn:Hg; simpl.
          - rewrite get_update. destruct (String.eqb_spec fname n) as [->|Hn].
            + rewrite Hg. reflexivity.
            + destruct (JsMap.get (pineconeFilesByName st) n); reflexivity.
          - rewrite get_set. destruct (String.eqb_spec fname n) as [->|Hn].
            + rewrite Hg. reflexivity.
            + destruct (JsMap.get (pineconeFilesByName st) n); reflexivity. }
        assert (Hget0 : JsMap.get (if negb (JsMap.has (pineconeFilesByName st) fname)
                             then JsMap.set (pineconeFilesByName st) fname
                                    (newPineconeData (metadata x) None false)
                             else JsMap.update (pineconeFilesByName st) fname bumpCount)
                          EmptyString = None).
        { destruct (negb _); [rewrite get_set | rewrite get_update];
            (destruct (String.eqb_spec fname EmptyString); [congruence | exact Hname0]). }
        destruct (negb (JsMap.has (pineconeFilesByName st) fname));
          cbn [pineconeFiles pineconeFilesByName];
          (split; [exact Hsame|]; split; [exact Hget|]; split; [exact Hid0 | exact Hget0]).
      * cbn [pineconeFiles pineconeFilesByName].
        split; [exact Hsame|]. split; [|split; [exact Hid0 | exact Hname0]].
        intros n Hn. rewrite entryOf_snoc, <- (Hname n Hn).
        assert (Hl : legacyNameEq n x = false).
        { unfold legacyNameEq. rewrite Ht. simpl.
          destruct (File_name (metadata x)) as [s|]; [|reflexivity].
          destruct (String.eqb_spec s n) as [->|]; [|reflexivity].
          apply truthy_some in Hn. congruence. }
        rewrite Hl. destruct (JsMap.get _ n); reflexivity.
Qed.

Lemma loader_entries_of_index (idx : Index) :
  let ms := queryAll idx in
  let st := loadPineconeState idx in
  (forall id, id <> EmptyString ->
     JsMap.get (pineconeFiles st) id =
     match find (fileIdEq id) ms with
     | Some v => Some (withCount (List.length (filter (fileIdEq id) ms))
                                 (newPineconeData (metadata v) (Some id) true))
     | None => None
     end)
  /\ (forall n, n <> EmptyString ->
        JsMap.get (pineconeFilesByName st) n =
        match find (legacyNameEq n) ms with
        | Some v => Some (withCount (List.length (filter (legacyNameEq n) ms))
                                    (newPineconeData (metadata v) None false))
        | None => None
        end)
  /\ JsMap.get (pineconeFiles st) EmptyString = None
  /\ JsMap.get (pineconeFilesByName st) EmptyString = None.
Proof.
  intros ms st. exact (loader_entries_fold (queryAll idx)).
Qed.

(** The loader's lookup tables, entry by entry.  Under a non-empty id the
    by-id table holds the metadata of the first scanned record carrying that
    id (later records of the document are only counted), with [vectorCount]
    the number of scanned records carrying it, and nothing when no record
    carries it; the by-name table does the same for the records without a
    usable id, keyed by their name.  Neither table has an entry under the
    empty string. *)
Theorem loadPineconeState_entries (idx : Index) :
  let ms := queryAll idx in
  let st := loadPineconeState idx in
  (forall id, id <> EmptyString ->
     JsMap.get (pineconeFiles st) id =
     match find (fileIdEq id) ms with
     | Some v => Some (withCount (List.length (filter (fileIdEq id) ms))
                                 (newPineconeData (metadata v) (Some id) true))
     | None => None
     end)
  /\ (forall n, n <> EmptyString ->
        JsMap.get (pineconeFilesByName st) n =
        match find (legacyNameEq n) ms with
        | Some v => Some (withCount (List.length (filter (legacyNameEq n) ms))
                                    (newPineconeData (metadata v) None false))
        | None => None
        end)
  /\ JsMap.get (pineconeFiles st) EmptyString = None
  /\ JsMap.get (pineconeFilesByName st) EmptyString = None.
Proof. exact (loader_entries_of_index idx). Qed.

Lemma loadPineconeState_entries_witness :
  JsMap.get (pineconeFiles (loadPineconeState [Sample.guideVec; Sample.legacyVec;
                                                Sample.guideVec]))
            "G"
  = Some (withCount 2 (newPineconeData (metadata Sample.guideVec) (Some "G") true)).
Proof.
  destruct (loadPineconeState_entries [Sample.guideVec; Sample.legacyVec; Sample.guideVec])
    as (Hid & _).
  rewrite (Hid "G"); [reflexivity | discriminate].
Defined.

(** ** Every scanned record is counted once *)

Lemma sumCounts_set (m : JsMap.t PineconeData) k p :
  JsMap.get m k = None -> sumCounts (JsMap.set m k p) = sumCounts m + vectorCount p.
Proof.
  unfold sumCounts, JsMap.values.
  induction m as [|[k0 v0] m IH]; simpl; intros H.
  - lia.
  - destruct (String.eqb k0 k); [discriminate|]. simpl. rewrite (IH H). lia.
Qed.

Lemma sumCounts_update (m : JsMap.t PineconeData) k p :
  JsMap.get m k = Some p -> sumCounts (JsMap.update m k bumpCount) = S (sumCounts m).
Proof.
  unfold sumCounts, JsMap.values.
  induction m as [|[k0 v0] m IH]; simpl; intros H.
  - discriminate.
  - destruct (String.eqb k0 k); simpl.
    + reflexivity.
    + rewrite (IH H). lia.
Qed.

Lemma loadStep_counts st x :
  sumCounts (pineconeFiles (loadStep st x)) + sumCounts (pineconeFilesByName (loadStep st x))
  + (if unkeyed x then 1 else 0)
  = S (sumCounts (pineconeFiles st) + sumCounts (pineconeFilesByName st)).
Proof.
  unfold loadStep, unkeyed.
  destruct (Js.truthy (File_id (metadata x))) eqn:Ht; simpl.
  - destruct (File_id (metadata x)) as [fid|]; [|discriminate].
    unfold JsMap.has. destruct (JsMap.get (pineconeFiles st) fid) as [p|] eqn:Hg; simpl.
    + rewrite (sumCounts_update _ _ _ Hg). lia.
    + rewrite (sumCounts_set _ _ _ Hg). simpl. lia.
  - destruct (Js.truthy (File_name (metadata x))) eqn:Htn; simpl.
    + destruct (File_name (metadata x)) as [fname|]; [|discriminate].
      unfold JsMap.has.
      destruct (JsMap.get (pineconeFilesByName st) fname) as [p|] eqn:Hg; simpl.
      * rewrite (sumCounts_update _ _ _ Hg). lia.
      * rewrite (sumCounts_set _ _ _ Hg). simpl. lia.
    + lia.
Qed.

(** The loader accounts for every record of the scan exactly once: the
    [vectorCount]s of the two tables and the number of records that carry
    neither a usable id nor a usable name add up to the number of scanned
    records. *)
Theorem loadPineconeState_counts_every_record (idx : Index) :
  let st := loadPineconeState idx in
  sumCounts (pineconeFiles st) + sumCounts (pineconeFilesByName st)
  + List.length (filter unkeyed (queryAll idx))
  = List.length (queryAll idx).
Proof.
  unfold loadPineconeState, loadFromMatches.
  induction (queryAll idx) as [|x l IH] using rev_ind.
  - reflexivity.
  - rewrite fold_left_app. cbn [fold_left].
    rewrite filter_snoc_length, length_app. simpl List.length.
    pose proof (loadStep_counts (fold_left loadStep l emptyState) x) as Hs.
    cbn zeta in IH. lia.
Qed.

(** ** A document without a name stops the classification *)

Lemma findSimilar_throws (all : list PineconeData) (fileName : string) (p : PineconeData) :
  In p all -> pd_name p = None ->
  (forall q n, In q all -> pd_name q = Some n -> Names.isSimilarName fileName n = false) ->
  exists msg, findSimilar all fileName = Throw msg.
Proof.
  induction all as [|q all IH]; intros Hin Hp Hno; [contradiction|].
  cbn [findSimilar]. destruct (pd_name q) as [n|] eqn:Hq.
  - rewrite (Hno q n (or_introl eq_refl) Hq).
    destruct Hin as [->|Hin]; [congruence|].
    apply IH; [exact Hin | exact Hp |].
    intros q' n' Hq' Hn'. apply (Hno q' n'); [now right | exact Hn'].
  - eauto.
Qed.

Lemma findSimilar_named (all : list PineconeData) (fileName : string) :
  (forall q, In q all -> pd_name q <> None) ->
  exists r, findSimilar all fileName = Ok r.
Proof.
  induction all as [|q all IH]; intros H; cbn [findSimilar]; [eauto|].
  destruct (pd_name q) as [n|] eqn:Hq.
  - destruct (Names.isSimilarName fileName n); [eauto|].
    apply IH. intros q' Hq'. apply H. now right.
  - exfalso. apply (H q (or_introl eq_refl)). exact Hq.
Qed.

Lemma classifyLoop_throws st now files f m : forall acc,
  In f files -> classifyFile st now f = Throw m ->
  exists m', classifyLoop st now files acc = Throw m'.
Proof.
  induction files as [|x files IH]; intros acc Hin Hf; [contradiction|].
  cbn [classifyLoop]. destruct (classifyFile st now x) as [c|m0] eqn:Hx; simpl.
  - destruct Hin as [->|Hin]; [congruence|]. apply IH; assumption.
  - eauto.
Qed.

(** [normalizeName] is applied to the [File.name] of every indexed document
    that the fuzzy scan reaches.  When some indexed document has a
    [File.id] but no [File.name], an item that is matched by id, by exact
    name and by similar name to no document brings the scan to it: the
    [TypeError] escapes [classifyChanges], [run] is rejected before any
    index call, and the process exits with code 1.  When every indexed
    document has a name, [classifyChanges] returns. *)
Theorem nameless_document_aborts_run
    (env : Collaborators) (now : Z) (allFiles : list DriveFile) (w : World)
    (p : PineconeData) (f : DriveFile) :
  let st := loadPineconeState (index w) in
  (In p (allPineconeFiles st) -> pd_name p = None ->
   In f (detectDuplicates (filterFiles allFiles)) ->
   JsMap.get (pineconeFiles st) (file_id f) = None ->
   JsMap.get (pineconeFilesByName st) (file_name f) = None ->
   (forall q n, In q (allPineconeFiles st) -> pd_name q = Some n ->
                Names.isSimilarName (file_name f) n = false) ->
   exists msg, run env now allFiles w = (Throw msg, w)
               /\ processExitCode (fst (run env now allFiles w)) = 1%Z)
  /\ ((forall q, In q (allPineconeFiles st) -> pd_name q <> None) ->
      forall driveFiles, exists ch, classifyChanges driveFiles st now = Ok ch).
Proof.
  intros st. split.
  - intros Hp Hname Hf Hid Hn Hno.
    destruct (findSimilar_throws _ (file_name f) p Hp Hname Hno) as [msg Hthrow].
    assert (Hc : classifyFile st now f = Throw msg).
    { unfold classifyFile, matchFile. rewrite Hid, Hn, Hthrow. reflexivity. }
    destruct (classifyLoop_throws st now _ f msg (mkChanges [] [] []) Hf Hc) as [m' Hm'].
    exists m'. unfold run. fold st. unfold classifyChanges. rewrite Hm'. split; reflexivity.
  - intros Hnamed driveFiles. clearbody st. apply classifyLoop_total.
    intros g _. unfold classifyFile, matchFile.
    destruct (JsMap.get (pineconeFiles st) (file_id g)); [simpl; eauto|].
    destruct (JsMap.get (pineconeFilesByName st) (file_name g)); [simpl; eauto|].
    destruct (findSimilar_named (allPineconeFiles st) (file_name g) Hnamed) as [r ->].
    simpl. eauto.
Qed.

Lemma nameless_document_aborts_run_witness :
  exists msg,
    run (Sample.collaborators Sample.body) Sample.someNow [Sample.goodDoc]
        (Sample.world [Sample.vec "n1" (Sample.meta (Some "N") None (Some 20000%Z)
                                                    (Some 20010%Z) None)])
    = (Throw msg,
       Sample.world [Sample.vec "n1" (Sample.meta (Some "N") None (Some 20000%Z)
                                                  (Some 20010%Z) None)]).
Proof.
  destruct (proj1 (nameless_document_aborts_run
                     (Sample.collaborators Sample.body) Sample.someNow [Sample.goodDoc]
                     (Sample.world [Sample.vec "n1" (Sample.meta (Some "N") None
                                                       (Some 20000%Z) (Some 20010%Z) None)])
                     (mkPineconeData (Some "N") None (Some 20000%Z) (Some 20010%Z) 0 None
                                     None 1 true)
                     Sample.goodDoc))
    as (msg & Hrun & _).
  - vm_compute. left. reflexivity.
  - reflexivity.
  - vm_compute. left. reflexivity.
  - vm_compute. reflexivity.
  - vm_compute. reflexivity.
  - intros q n [<-|[]] Hn. discriminate Hn.
  - exists msg. exact Hrun.
Defined.

(** ** The duplicate resolver on a listing without duplicates *)

Lemma groupFiles_distinct (files : list DriveFile) :
  NoDup (map keyOf files) ->
  groupFiles files = map (fun f => (keyOf f, [f])) files.
Proof.
  induction files as [|x l IH] using rev_ind; intros Hnd; [reflexivity|].
  rewrite map_app in Hnd. simpl in Hnd.
  assert (Hl : NoDup (map keyOf l)) by (eapply NoDup_app_remove_r; exact Hnd).
  assert (Hx : ~ In (keyOf x) (map keyOf l)).
  { intros Hin. apply (NoDup_app_disjoint _ _ (keyOf x) Hnd Hin). now left. }
  unfold groupFiles in *. rewrite fold_left_app. cbn [fold_left]. rewrite (IH Hl).
  assert (Hkeys : JsMap.keys (map (fun f => (keyOf f, [f])) l) = map keyOf l).
  { unfold JsMap.keys. rewrite map_map. reflexivity. }
  destruct (pushGroup_cases (map (fun f => (keyOf f, [f])) l) x) as [[_ ->]|[Hin _]].
  - rewrite Hkeys. exact Hl.
  - rewrite map_app. reflexivity.
  - rewrite Hkeys in Hin. contradiction.
Qed.

Lemma detectDuplicates_distinct (files : list DriveFile) :
  NoDup (map keyOf files) -> detectDuplicates files = files.
Proof.
  intros Hnd. unfold detectDuplicates. rewrite (groupFiles_distinct files Hnd).
  unfold JsMap.values. rewrite map_map. cbn [snd].
  clear Hnd. induction files as [|f l IH]; [reflexivity|].
  cbn [map flat_map pickWinner app]. now rewrite IH.
Qed.

(** A listing in which no two items share a normalised name goes through
    [detectDuplicates] unchanged, in the same order.  The winners of any
    listing form such a listing, so resolving duplicates a second time
    changes nothing; and there are never more winners than items. *)
Theorem detectDuplicates_idempotent (files : list DriveFile) :
  (NoDup (map keyOf files) -> detectDuplicates files = files)
  /\ detectDuplicates (detectDuplicates files) = detectDuplicates files
  /\ List.length (detectDuplicates files) <= List.length files.
Proof.
  destruct (detectDuplicates_spec files) as (Hnd & Hw & _).
  split; [apply detectDuplicates_distinct|]. split.
  - apply detectDuplicates_distinct. exact Hnd.
  - rewrite <- (length_map keyOf (detectDuplicates files)), <- (length_map keyOf files).
    apply NoDup_incl_length; [exact Hnd|].
    intros k Hk. apply in_map_iff in Hk. destruct Hk as (w & <- & Hin).
    apply in_map. apply (Hw w Hin).
Qed.

Lemma detectDuplicates_idempotent_witness :
  detectDuplicates [Sample.goodDoc; Sample.badDoc] = [Sample.goodDoc; Sample.badDoc].
Proof.
  apply (proj1 (detectDuplicates_idempotent [Sample.goodDoc; Sample.badDoc])).
  vm_compute. repeat constructor; simpl; intuition discriminate.
Defined.

(** ** Batched uploads *)

Section UploadFacts.

Variable env : Collaborators.

Lemma upsert_app (a b : list Vec) (idx : Index) :
  upsert (a ++ b) idx = upsert b (upsert a idx).
Proof. unfold upsert. apply fold_left_app. Qed.

Lemma upsertBatches_ok bs : forall w,
  (forall b, In b bs -> upsertThrows env b = false) ->
  upsertBatches env bs w =
  (Ok tt, mkWorld (upsert (List.concat bs) (index w)) (nextUuid w)
                  (ops w ++ map OpUpsert bs)).
Proof.
  induction bs as [|b bs IH]; intros w H.
  - destruct w. simpl. now rewrite app_nil_r.
  - cbn [upsertBatches]. rewrite (H b (or_introl eq_refl)).
    rewrite IH by (intros b' Hb'; apply H; now right).
    cbn [index nextUuid ops map List.concat]. rewrite upsert_app, <- app_assoc. reflexivity.
Qed.

Lemma upsertBatches_fail done : forall failed rest w,
  (forall b, In b done -> upsertThrows env b = false) ->
  upsertThrows env failed = true ->
  upsertBatches env (done ++ failed :: rest) w =
  (Throw "upsert failed",
   mkWorld (upsert (List.concat done) (index w)) (nextUuid w)
           (ops w ++ map OpUpsert (done ++ [failed]))).
Proof.
  induction done as [|b done IH]; intros failed rest w Hd Hf.
  - cbn [app upsertBatches]. rewrite Hf. reflexivity.
  - cbn [app upsertBatches]. rewrite (Hd b (or_introl eq_refl)).
    rewrite IH; [|intros b' Hb'; apply Hd; now right | exact Hf].
    cbn [index nextUuid ops map List.concat app].
    rewrite upsert_app, <- app_assoc. reflexivity.
Qed.

Lemma first_throwing (bs : list (list Vec)) :
  (forall b, In b bs -> upsertThrows env b = false)
  \/ exists done failed rest,
       bs = done ++ failed :: rest
       /\ (forall b, In b done -> upsertThrows env b = false)
       /\ upsertThrows env failed = true.
Proof.
  induction bs as [|b bs IH].
  - left. intros b [].
  - destruct (upsertThrows env b) eqn:Hb.
    + right. exists [], b, bs. split; [reflexivity|]. split; [intros x []|exact Hb].
    + destruct IH as [IH|(done & failed & rest & -> & Hd & Hf)].
      * left. intros x [<-|Hx]; auto.
      * right. exists (b :: done), failed, rest. split; [reflexivity|].
        split; [|exact Hf]. intros x [<-|Hx]; auto.
Qed.

Lemma batchesOf_sizes : forall fuel vectors,
  Forall (fun b => 1 <= List.length b <= batchSize) (batchesOf fuel vectors).
Proof.
  induction fuel as [|fuel IH]; intros vectors; [constructor|].
  destruct vectors as [|v vs]; [constructor|].
  rewrite batchesOf_cons. constructor; [|apply IH].
  rewrite length_firstn. unfold batchSize. simpl List.length. lia.
Qed.

Lemma batchesOf_count : forall fuel vectors,
  List.length vectors <= fuel ->
  List.length (batchesOf fuel vectors) = (List.length vectors + 199) / 200.
Proof.
  induction fuel as [|fuel IH]; intros vectors H.
  - destruct vectors; [reflexivity | simpl in H; lia].
  - destruct vectors as [|v vs]; [reflexivity|].
    rewrite batchesOf_cons.
    change (List.length (firstn batchSize (v :: vs)
                           :: batchesOf fuel (skipn batchSize (v :: vs))))
      with (S (List.length (batchesOf fuel (skipn batchSize (v :: vs))))).
    rewrite IH by (rewrite length_skipn; unfold batchSize; simpl List.length in *; lia).
    rewrite length_skipn. unfold batchSize.
    assert (Hn : 1 <= List.length (v :: vs)) by (simpl; lia).
    set (n := List.length (v :: vs)) in *.
    destruct (Nat.le_gt_cases n 200) as [Hle|Hgt].
    + replace (n - 200 + 199) with 199 by lia.
      rewrite (Nat.div_small 199 200) by lia.
      apply (Nat.div_unique (n + 199) 200 1 (n - 1)); lia.
    + replace (n + 199) with ((n - 200 + 199) + 1 * 200) by lia.
      rewrite Nat.div_add by lia. lia.
Qed.

(** [uploadToPinecone] cuts the vectors into consecutive batches of 200 (the
    last one may be shorter, none is empty) and upserts them one call after
    the other.  When the index accepts every batch, the calls are these
    batches in order and the index holds all the vectors.  When a batch is
    rejected, the function throws at once: the batches sent before it stay
    in the index, the rejected one and those after it are not written. *)
Theorem uploadToPinecone_batches (vectors : list Vec) (w : World) :
  let batches := batchesOf (List.length vectors) vectors in
  List.concat batches = vectors
  /\ Forall (fun b => 1 <= List.length b <= 200) batches
  /\ List.length batches = (List.length vectors + 199) / 200
  /\ ((forall b, In b batches -> upsertThrows env b = false) ->
      uploadToPinecone env vectors w =
      (Ok tt, mkWorld (upsert vectors (index w)) (nextUuid w)
                      (ops w ++ map OpUpsert batches)))
  /\ (forall done failed rest,
        batches = done ++ failed :: rest ->
        (forall b, In b done -> upsertThrows env b = false) ->
        upsertThrows env failed = true ->
        exists msg,
          uploadToPinecone env vectors w =
          (Throw msg, mkWorld (upsert (List.concat done) (index w)) (nextUuid w)
                              (ops w ++ map OpUpsert (done ++ [failed])))).
Proof.
  intros batches.
  assert (Hc : List.concat batches = vectors) by (apply batchesOf_concat; lia).
  split; [exact Hc|]. split; [apply batchesOf_sizes|].
  split; [apply batchesOf_count; lia|]. split.
  - intros H. unfold uploadToPinecone. fold batches.
    rewrite (upsertBatches_ok batches w H), Hc. reflexivity.
  - intros done failed rest E Hd Hf. unfold uploadToPinecone. fold batches.
    rewrite E. rewrite (upsertBatches_fail done failed rest w Hd Hf). eauto.
Qed.

(** ** A failed [indexFile] and the index *)

Lemma indexFile_cases now f w :
  (exists m, extractText env f = Throw m /\ indexFile env now f w = (failure m, w))
  \/ (exists text, extractText env f = Ok text
        /\ String.length (Js.trim text) < minContent
        /\ indexFile env now f w = (failure "Text too short", w))
  \/ (exists text m next',
        extractText env f = Ok text /\ minContent <= String.length (Js.trim text)
        /\ createVectors env f (dateOf now)
             (chunkText text defaultChunkSize defaultOverlap) (nextUuid w)
           = (Throw m, next')
        /\ indexFile env now f w = (failure m, mkWorld (index w) next' (ops w)))
  \/ (exists text vectors next',
        extractText env f = Ok text /\ minContent <= String.length (Js.trim text)
        /\ createVectors env f (dateOf now)
             (chunkText text defaultChunkSize defaultOverlap) (nextUuid w)
           = (Ok vectors, next')
        /\ List.length vectors =
           List.length (chunkText text defaultChunkSize defaultOverlap)
        /\ match uploadToPinecone env vectors (mkWorld (index w) next' (ops w)) with
           | (Throw m, w') => indexFile env now f w = (failure m, w')
           | (Ok _, w') =>
               indexFile env now f w =
               (mkIndexResult true None (List.length vectors) (List.length vectors), w')
           end).
Proof.
  unfold indexFile.
  destruct (extractText env f) as [text|m] eqn:Hx; [|left; eauto].
  destruct (Nat.ltb_spec (String.length (Js.trim text)) minContent) as [Hs|Hl].
  - right. left. eauto.
  - destruct (createVectors env f (dateOf now) _ (nextUuid w)) as [[vs|m] n] eqn:Hcv.
    + right. right. right. exists text, vs, n.
      assert (Hlen : List.length vs =
                     List.length (chunkText text defaultChunkSize defaultOverlap)).
      { unfold createVectors in Hcv.
        apply (createVectorsFrom_ok env _ _ _ _ _ _ _ Hcv). }
      repeat (split; [auto; fail|]).
      destruct (uploadToPinecone env vs _) as [[u|m] w1]; rewrite ?Hlen; reflexivity.
    + right. right. left. exists text, m, n. auto.
Qed.

Lemma indexFile_failure_cases
    (now : Z) (f : DriveFile) (w : World) (r : IndexResult) (w' : World) :
  indexFile env now f w = (r, w') ->
  success r = false ->
  res_chunks r = 0 /\ res_vectors r = 0 /\ reason r <> None
  /\ ((index w' = index w /\ ops w' = ops w)
      \/ exists done failed,
           upsertThrows env failed = true
           /\ (forall b, In b done -> upsertThrows env b = false)
           /\ index w' = upsert (List.concat done) (index w)
           /\ ops w' = ops w ++ map OpUpsert (done ++ [failed]))
  /\ ((forall b, upsertThrows env b = false) -> index w' = index w /\ ops w' = ops w).
Proof.
  intros H Hs.
  assert (Hmain : res_chunks r = 0 /\ res_vectors r = 0 /\ reason r <> None
                  /\ ((index w' = index w /\ ops w' = ops w)
                      \/ exists done failed,
                           upsertThrows env failed = true
                           /\ (forall b, In b done -> upsertThrows env b = false)
                           /\ index w' = upsert (List.concat done) (index w)
                           /\ ops w' = ops w ++ map OpUpsert (done ++ [failed]))).
  { destruct (indexFile_cases now f w)
      as [(m & _ & E)|[(text & _ & _ & E)|[(text & m & n & _ & _ & _ & E)
         |(text & vs & n & _ & _ & _ & _ & E)]]].
    - rewrite E in H. injection H as <- <-. simpl. repeat split; auto; discriminate.
    - rewrite E in H. injection H as <- <-. simpl. repeat split; auto; discriminate.
    - rewrite E in H. injection H as <- <-. simpl. repeat split; auto; discriminate.
    - destruct (uploadToPinecone env vs (mkWorld (index w) n (ops w)))
        as [[u|m] w1] eqn:Hup.
      + rewrite E in H. injection H as <- <-. discriminate.
      + rewrite E in H. injection H as <- <-. simpl.
        split; [reflexivity|]. split; [reflexivity|]. split; [discriminate|].
        right.
        destruct (first_throwing (batchesOf (List.length vs) vs))
          as [Hall|(done & failed & rest & Eb & Hd & Hf)].
        * unfold uploadToPinecone in Hup. rewrite (upsertBatches_ok _ _ Hall) in Hup.
          discriminate.
        * unfold uploadToPinecone in Hup. rewrite Eb in Hup.
          rewrite (upsertBatches_fail done failed rest _ Hd Hf) in Hup.
          injection Hup as _ <-. exists done, failed. simpl. auto. }
  destruct Hmain as (H1 & H2 & H3 & H4).
  split; [exact H1|]. split; [exact H2|]. split; [exact H3|]. split; [exact H4|].
  intros Hnever. destruct H4 as [H4|(done & failed & Hf & _)]; [exact H4|].
  rewrite Hnever in Hf. discriminate.
Qed.

(** A failed [indexFile] reports no chunk and no vector.  It has issued
    index calls only if the failure is a rejected upsert: then the log ends
    with the rejected batch and the batches accepted before it stay in the
    index (there is no rollback).  In every other case (failed extraction,
    text under 50 characters, failed embedding) the index and the log of
    calls are exactly as before. *)
Theorem indexFile_failure_and_the_index
    (now : Z) (f : DriveFile) (w : World) (r : IndexResult) (w' : World) :
  indexFile env now f w = (r, w') ->
  success r = false ->
  res_chunks r = 0 /\ res_vectors r = 0 /\ reason r <> None
  /\ ((index w' = index w /\ ops w' = ops w)
      \/ exists done failed,
           upsertThrows env failed = true
           /\ (forall b, In b done -> upsertThrows env b = false)
           /\ index w' = upsert (List.concat done) (index w)
           /\ ops w' = ops w ++ map OpUpsert (done ++ [failed]))
  /\ ((forall b, upsertThrows env b = false) -> index w' = index w /\ ops w' = ops w).
Proof. exact (indexFile_failure_cases now f w r w'). Qed.

End UploadFacts.

Lemma uploadToPinecone_batches_witness :
  uploadToPinecone (Sample.collaborators Sample.body) [Sample.guideVec] (Sample.world [])
  = (Ok tt, mkWorld [Sample.guideVec] 0 [OpUpsert [Sample.guideVec]]).
Proof.
  destruct (uploadToPinecone_batches (Sample.collaborators Sample.body)
              [Sample.guideVec] (Sample.world [])) as (_ & _ & _ & Hok & _).
  rewrite Hok; [reflexivity|]. intros b _. reflexivity.
Defined.

Lemma indexFile_failure_and_the_index_witness :
  index (snd (indexFile Sample.flaky Sample.someNow Sample.badDoc
                (Sample.world [Sample.guideVec])))
  = [Sample.guideVec].
Proof.
  destruct (indexFile_failure_and_the_index Sample.flaky Sample.someNow Sample.badDoc
              (Sample.world [Sample.guideVec])
              (fst (indexFile Sample.flaky Sample.someNow Sample.badDoc
                      (Sample.world [Sample.guideVec])))
              (snd (indexFile Sample.flaky Sample.someNow Sample.badDoc
                      (Sample.world [Sample.guideVec]))))
    as (_ & _ & _ & _ & Hsame).
  - apply surjective_pairing.
  - vm_compute. reflexivity.
  - apply Hsame. intros b. reflexivity.
Defined.

(** ** [deleteFileVectors] and the scan limit *)

Lemma deleteMany_nil (idx : Index) : deleteMany [] idx = idx.
Proof.
  unfold deleteMany. induction idx as [|x idx IH]; [reflexivity|].
  cbn [filter]. change (memId (vid x) []) with false. cbn [negb]. f_equal. exact IH.
Qed.

Lemma memId_cons i j ids : memId i (j :: ids) = VecId_eqb i j || memId i ids.
Proof. reflexivity. Qed.

Lemma deleteMany_skip (i : VecId) (ids : list VecId) (idx : Index) :
  ~ In i (map vid idx) -> deleteMany (i :: ids) idx = deleteMany ids idx.
Proof.
  unfold deleteMany. intros H. apply filter_ext_in. intros a Ha.
  rewrite memId_cons. destruct (VecId_eqb_spec (vid a) i) as [E|E]; [|reflexivity].
  exfalso. apply H. rewrite <- E. now apply in_map.
Qed.

Lemma deleteMany_firstn (flt : Vec -> bool) (idx : Index) : forall k,
  NoDup (map vid idx) ->
  filter flt (deleteMany (map vid (firstn k (filter flt idx))) idx)
  = skipn k (filter flt idx)
  /\ filter (fun v => negb (flt v)) (deleteMany (map vid (firstn k (filter flt idx))) idx)
     = filter (fun v => negb (flt v)) idx.
Proof.
  induction idx as [|x idx IH]; intros k Hnd.
  - destruct k; split; reflexivity.
  - inversion Hnd as [|? ? Hx Hnd']; subst. cbn [filter].
    destruct (flt x) eqn:Hf.
    + destruct k as [|k].
      * cbn [firstn map skipn]. rewrite deleteMany_nil. cbn [filter]. rewrite Hf.
        split; reflexivity.
      * cbn [firstn map skipn].
        assert (E : deleteMany (vid x :: map vid (firstn k (filter flt idx))) (x :: idx)
                    = deleteMany (map vid (firstn k (filter flt idx))) idx).
        { unfold deleteMany at 1. cbn [filter]. rewrite memId_cons.
          destruct (VecId_eqb_spec (vid x) (vid x)) as [_|Hne]; [|congruence].
          cbn [orb negb]. apply (deleteMany_skip _ _ _ Hx). }
        rewrite E. apply IH. exact Hnd'.
    + assert (E : deleteMany (map vid (firstn k (filter flt idx))) (x :: idx)
                  = x :: deleteMany (map vid (firstn k (filter flt idx))) idx).
      { unfold deleteMany. cbn [filter].
        destruct (memId (vid x) (map vid (firstn k (filter flt idx)))) eqn:Hm;
          [|reflexivity].
        exfalso. apply Hx. apply memId_iff in Hm. apply in_map_iff in Hm.
        destruct Hm as (y & Ey & Hy). rewrite <- Ey. apply in_map.
        assert (Hin : In y (filter flt idx)).
        { rewrite <- (firstn_skipn k (filter flt idx)). apply in_or_app. now left. }
        apply filter_In in Hin. tauto. }
      rewrite E. cbn [filter]. rewrite Hf. cbn [negb].
      destruct (IH k Hnd') as [IH1 IH2]. rewrite IH1, IH2. split; reflexivity.
Qed.

Lemma deleteFileVectors_effect
    (env : Collaborators) (fileId : string) (w : World) (n : nat) (w' : World) :
  NoDup (map vid (index w)) ->
  deleteFileVectors env fileId w = (Ok n, w') ->
  let matching := filter (fileIdEq fileId) (index w) in
  n = Nat.min topK (List.length matching)
  /\ filter (fileIdEq fileId) (index w') = skipn topK matching
  /\ filter (fun v => negb (fileIdEq fileId v)) (index w')
     = filter (fun v => negb (fileIdEq fileId v)) (index w)
  /\ (matching = [] -> w' = w)
  /\ (matching <> [] ->
      ops w' = ops w ++ [OpDeleteMany (map vid (firstn topK matching))]).
Proof.
  intros Hnd H matching. unfold deleteFileVectors, query in H. fold matching in H.
  destruct (deleteMany_firstn (fileIdEq fileId) (index w) topK Hnd) as [D1 D2].
  fold matching in D1, D2.
  destruct (firstn topK matching) as [|x found] eqn:Hq.
  - injection H as <- <-.
    assert (Hm : matching = []).
    { destruct matching as [|y l]; [reflexivity|]. discriminate Hq. }
    split; [rewrite Hm; symmetry; apply Nat.min_0_r|].
    split.
    { change (filter (fileIdEq fileId) (index w)) with matching.
      rewrite Hm. symmetry. apply skipn_nil. }
    split; [reflexivity|]. split; [reflexivity | congruence].
  - destruct (deleteManyThrows env (map vid (x :: found))); [discriminate|].
    injection H as <- <-. cbn [index ops].
    split.
    { change (S (List.length (map vid found))) with (List.length (map vid (x :: found))).
      rewrite <- Hq, length_map. apply length_firstn. }
    split; [exact D1|]. split; [exact D2|]. split.
    + intros Hm. rewrite Hm in Hq. destruct topK; discriminate.
    + intros _. reflexivity.
Qed.

(** [deleteFileVectors] deletes what one scan returns: of the records
    carrying the file id, the first 10000 in index order.  It returns their
    number, leaves the later ones and every record of another document
    where they are, and issues no call at all when the scan finds nothing. *)
Theorem deleteFileVectors_stops_at_scan_limit
    (env : Collaborators) (fileId : string) (w : World) (n : nat) (w' : World) :
  NoDup (map vid (index w)) ->
  deleteFileVectors env fileId w = (Ok n, w') ->
  let matching := filter (fileIdEq fileId) (index w) in
  n = Nat.min topK (List.length matching)
  /\ filter (fileIdEq fileId) (index w') = skipn topK matching
  /\ filter (fun v => negb (fileIdEq fileId v)) (index w')
     = filter (fun v => negb (fileIdEq fileId v)) (index w)
  /\ (matching = [] -> w' = w)
  /\ (matching <> [] ->
      ops w' = ops w ++ [OpDeleteMany (map vid (firstn topK matching))]).
Proof. exact (deleteFileVectors_effect env fileId w n w'). Qed.

Lemma deleteFileVectors_stops_at_scan_limit_witness :
  filter (fileIdEq "G")
         (index (snd (deleteFileVectors (Sample.collaborators Sample.body) "G"
                        (Sample.world [Sample.guideVec; Sample.oldDeckVec]))))
  = [].
Proof.
  destruct (deleteFileVectors_stops_at_scan_limit (Sample.collaborators Sample.body) "G"
              (Sample.world [Sample.guideVec; Sample.oldDeckVec]) 1
              (snd (deleteFileVectors (Sample.collaborators Sample.body) "G"
                      (Sample.world [Sample.guideVec; Sample.oldDeckVec]))))
    as (_ & Hrest & _).
  - vm_compute. repeat constructor; simpl; intuition discriminate.
  - vm_compute. reflexivity.
  - rewrite Hrest. vm_compute. reflexivity.
Defined.

(** ** A MODIFIED item whose re-indexing fails *)

Lemma filter_none_negb {A} (p : A -> bool) (l : list A) :
  filter p l = [] -> filter (fun x => negb (p x)) l = l.
Proof.
  induction l as [|a l IH]; simpl; [reflexivity|].
  destruct (p a); [discriminate|]. intros H. simpl. now rewrite IH.
Qed.

(** One turn of the loop over the MODIFIED items, when the index fits one
    scan and accepts writes: if the attempt is counted as failed (the
    extraction threw, the text was under 50 characters or an embedding
    failed), the old vectors of the item are gone all the same, because they
    were deleted before the attempt.  The index is left with the records of
    the other documents only. *)
Theorem failed_reindex_leaves_no_vectors
    (env : Collaborators) (now : Z) (entry : ModifiedEntry)
    (acc : LoopAcc) (w : World) (acc' : LoopAcc) (w' : World) :
  NoDup (map vid (index w)) ->
  List.length (index w) <= topK ->
  (forall b, upsertThrows env b = false) ->
  reindexModified env now [entry] acc w = (Ok acc', w') ->
  acc_failed acc' = S (acc_failed acc) ->
  index w' = filter (fun v => negb (fileIdEq (file_id (mod_file entry)) v)) (index w)
  /\ (forall v, In v (index w') -> fileIdEq (file_id (mod_file entry)) v = false)
  /\ acc_ok acc' = acc_ok acc.
Proof.
  intros Hnd Hk Hup H Hfail. cbn [reindexModified] in H.
  destruct (deleteFileVectors env (file_id (mod_file entry)) w) as [[n|m] w1] eqn:Hd;
    [|discriminate].
  destruct (indexFile env now (mod_file entry) w1) as [r w2] eqn:Hi.
  injection H as <- <-.
  assert (Hs : success r = false).
  { unfold record in Hfail. destruct (success r); [simpl in Hfail; lia | reflexivity]. }
  destruct (indexFile_failure_cases env now _ _ _ _ Hi Hs)
    as (_ & _ & _ & _ & Hsame).
  destruct (Hsame Hup) as [Hidx _].
  destruct (deleteFileVectors_effect env _ _ _ _ Hnd Hd)
    as (_ & Hgone & Hkept & _).
  assert (Hnone : filter (fileIdEq (file_id (mod_file entry))) (index w1) = []).
  { rewrite Hgone. apply skipn_all2.
    etransitivity; [apply filter_length_le | exact Hk]. }
  assert (Hw1 : index w1 =
                filter (fun v => negb (fileIdEq (file_id (mod_file entry)) v)) (index w)).
  { rewrite <- Hkept. symmetry. apply filter_none_negb. exact Hnone. }
  split; [now rewrite Hidx|]. split.
  - intros v Hv. rewrite Hidx, Hw1 in Hv. apply filter_In in Hv.
    destruct Hv as [_ Hv]. now apply negb_true_iff in Hv.
  - unfold record. rewrite Hs. reflexivity.
Qed.

Lemma failed_reindex_leaves_no_vectors_witness :
  index (snd (reindexModified Sample.flaky Sample.someNow [Sample2.badEntry]
                (mkAcc 0 0 []) (Sample.world [Sample2.badVec; Sample.guideVec])))
  = [Sample.guideVec].
Proof.
  destruct (failed_reindex_leaves_no_vectors Sample.flaky Sample.someNow Sample2.badEntry
              (mkAcc 0 0 []) (Sample.world [Sample2.badVec; Sample.guideVec])
              (mkAcc 0 1 [(Sample.badDoc, failure "extraction failed")])
              (snd (reindexModified Sample.flaky Sample.someNow [Sample2.badEntry]
                      (mkAcc 0 0 []) (Sample.world [Sample2.badVec; Sample.guideVec]))))
    as (Hidx & _).
  - vm_compute. repeat constructor; simpl; intuition discriminate.
  - apply Nat.leb_le. vm_compute. reflexivity.
  - intros b. reflexivity.
  - vm_compute. reflexivity.
  - reflexivity.
  - rewrite Hidx. vm_compute. reflexivity.
Defined.

(** ** Writing a document and loading it back *)

Lemma find_app_none {A} (p : A -> bool) (l1 l2 : list A) :
  find p l1 = None -> find p (l1 ++ l2) = find p l2.
Proof.
  induction l1 as [|a l1 IH]; simpl; [reflexivity|].
  destruct (p a); [discriminate | exact IH].
Qed.

(** What a successful [indexFile] leaves for the next run.  For an item whose
    id was not in the index, the loader then finds one document under that
    id: it has the item's name, the day of its last modification and the day
    of the run, as many vectors as chunks were written (at least one), and
    neither version, checksum nor size.  So for any later item matched to
    this document the version, hash and size signals stay off: past the
    cutoff the item is MODIFIED exactly when its modification instant is
    after 00:00 UTC of the stored day. *)
Theorem indexed_file_is_loaded_back
    (env : Collaborators) (now : Z) (f : DriveFile) (w : World)
    (r : IndexResult) (w' : World) :
  WfWorld w ->
  List.length (index w') <= topK ->
  file_id f <> EmptyString ->
  ~ HasId (file_id f) (index w) ->
  indexFile env now f w = (r, w') ->
  success r = true ->
  let p := mkPineconeData (Some (file_id f)) (Some (file_name f))
             (Some (dateOf (file_modifiedTime f))) (Some (dateOf now))
             0 None None (res_vectors r) true in
  JsMap.get (pineconeFiles (loadPineconeState (index w'))) (file_id f) = Some p
  /\ 1 <= res_vectors r
  /\ res_chunks r = res_vectors r
  /\ (forall g cutoff,
        kindOf (classifyMatched cutoff g (Some p)) =
        if (file_modifiedTime g <=? cutoff)%Z then KUnchanged
        else if (midnightUTC (dateOf (file_modifiedTime f)) <? file_modifiedTime g)%Z
             then KModified else KUnchanged).
Proof.
  intros Hwf Hk Hid Hnew H Hs p.
  destruct (indexFile_spec env now f w r w' Hwf H)
    as (_ & _ & written & Hidx & Hmeta & _ & Hok).
  destruct (Hok Hs) as (text & Hx & Hlen & Hcount).
  assert (Hr : res_vectors r = List.length written /\ res_chunks r = res_vectors r).
  { destruct (indexFile_cases env now f w)
      as [(m & _ & E)|[(t & _ & _ & E)|[(t & m & n & _ & _ & _ & E)
         |(t & vs & n & Hx' & _ & _ & Hl & E)]]];
      try (rewrite E in H; injection H as <- <-; discriminate).
    rewrite Hx in Hx'. injection Hx' as <-.
    destruct (uploadToPinecone env vs (mkWorld (index w) n (ops w))) as [[u|m] w1];
      rewrite E in H; injection H as <- <-; [|discriminate].
    simpl. split; [congruence | reflexivity]. }
  destruct Hr as [Hrv Hrc].
  assert (Hne : written <> []).
  { intros ->. simpl in Hcount. symmetry in Hcount. apply length_zero_iff_nil in Hcount.
    revert Hcount. apply chunkText_nonempty. intros E. rewrite E in Hlen.
    unfold minContent in Hlen. simpl in Hlen. lia. }
  assert (Hall : forall v, In v written -> fileIdEq (file_id f) v = true).
  { intros v Hv. destruct (Hmeta v Hv) as [c Hc]. apply fileIdEq_iff.
    rewrite Hc. reflexivity. }
  assert (Hnone : find (fileIdEq (file_id f)) (index w) = None).
  { destruct (find (fileIdEq (file_id f)) (index w)) as [v|] eqn:E; [|reflexivity].
    exfalso. apply Hnew. apply find_some in E. exists v. exact E. }
  split; [|split; [|split]].
  - destruct (loader_entries_of_index (index w')) as (Hget & _).
    rewrite (Hget (file_id f) Hid), (queryAll_within_topK _ Hk), Hidx.
    rewrite (find_app_none _ _ _ Hnone), filter_app, (find_none_filter _ _ Hnone).
    cbn [app]. destruct written as [|v0 rest]; [congruence|].
    cbn [find]. rewrite (Hall v0 (or_introl eq_refl)).
    rewrite (forallb_filter_id (fileIdEq (file_id f)) (v0 :: rest))
      by (apply forallb_forall; exact Hall).
    destruct (Hmeta v0 (or_introl eq_refl)) as [c Hc]. rewrite Hc.
    unfold p. rewrite Hrv. reflexivity.
  - rewrite Hrv. destruct written; [congruence | simpl; lia].
  - exact Hrc.
  - intros g cutoff. unfold classifyMatched, p.
    cbn [hasFileId negb]. unfold computeSignals.
    cbn [pd_version pd_md5 pd_size pd_modifiedDate versionChanged hashChanged
         sizeChanged dateChanged].
    destruct (file_modifiedTime g <=? cutoff)%Z; [reflexivity|].
    assert (Hv : match file_version g with
                 | Some v => negb (0 =? 0)%Z && (0 <? v)%Z
                 | None => false
                 end = false) by (destruct (file_version g); reflexivity).
    assert (Hh : Js.truthy (file_md5Checksum g) && Js.truthy None
                 && optStringDiffers (file_md5Checksum g) None = false)
      by (destruct (Js.truthy (file_md5Checksum g)); reflexivity).
    assert (Hz : match file_size g, @None Z with
                 | Some s, Some ps => negb (ps =? 0)%Z && (100 <? Z.abs (s - ps))%Z
                 | _, _ => false
                 end = false) by (destruct (file_size g); reflexivity).
    rewrite Hv, Hh, Hz. cbn [orb].
    destruct (midnightUTC (dateOf (file_modifiedTime f)) <? file_modifiedTime g)%Z;
      reflexivity.
Qed.

Lemma indexed_file_is_loaded_back_witness :
  JsMap.get (pineconeFiles
               (loadPineconeState
                  (index (snd (indexFile (Sample.collaborators Sample.body) Sample.someNow
                                 Sample.guide (Sample.world []))))))
            "G"
  = Some (mkPineconeData (Some "G") (Some "Setup Guide") (Some 20008%Z) (Some 20020%Z)
                         0 None None 1 true).
Proof.
  destruct (indexed_file_is_loaded_back (Sample.collaborators Sample.body) Sample.someNow
              Sample.guide (Sample.world [])
              (fst (indexFile (Sample.collaborators Sample.body) Sample.someNow
                      Sample.guide (Sample.world [])))
              (snd (indexFile (Sample.collaborators Sample.body) Sample.someNow
                      Sample.guide (Sample.world []))))
    as (Hget & _).
  - split; [constructor | intros v f i u []].
  - apply Nat.leb_le. vm_compute. reflexivity.
  - discriminate.
  - intros (v & [] & _).
  - apply surjective_pairing.
  - vm_compute. reflexivity.
  - etransitivity; [exact Hget|]. vm_compute. reflexivity.
Defined.

(** ** The catalog syncer: dry runs and the accounting of a live run *)

Section CatalogRuns.

Variable env : Collaborators.

Lemma compareDriveFile_counters M dfs : forall st,
  let st' := fold_left (compareDriveFile M) dfs st in
  st_indexed st' = st_indexed st /\ st_reindexed st' = st_reindexed st
  /\ st_deleted st' = st_deleted st /\ st_errors st' = st_errors st.
Proof.
  induction dfs as [|d dfs IH]; intros st; cbn [fold_left]; [auto|].
  destruct (IH (compareDriveFile M st d)) as (H1 & H2 & H3 & H4).
  cbn zeta. rewrite H1, H2, H3, H4. unfold compareDriveFile.
  destruct (JsMap.get M (file_id d)) as [pf|]; [|auto].
  destruct (match pf_modifiedDate pf with Some _ => _ | None => _ end); auto.
Qed.

Lemma compareDeleted_counters dfs M : forall st,
  let st' := fold_left (compareDeleted dfs) M st in
  st_indexed st' = st_indexed st /\ st_reindexed st' = st_reindexed st
  /\ st_deleted st' = st_deleted st /\ st_errors st' = st_errors st.
Proof.
  induction M as [|[k pf] M IH]; intros st; cbn [fold_left]; [auto|].
  destruct (IH (compareDeleted dfs st (k, pf))) as (H1 & H2 & H3 & H4).
  cbn zeta. rewrite H1, H2, H3, H4. unfold compareDeleted.
  destruct (negb _); auto.
Qed.

Lemma compareFiles_counters dfs M :
  let st := compareFiles dfs M emptyStats in
  st_indexed st = 0 /\ st_reindexed st = 0 /\ st_deleted st = 0 /\ st_errors st = [].
Proof.
  unfold compareFiles.
  destruct (compareDeleted_counters dfs M (fold_left (compareDriveFile M) dfs emptyStats))
    as (H1 & H2 & H3 & H4).
  destruct (compareDriveFile_counters M dfs emptyStats) as (G1 & G2 & G3 & G4).
  cbn zeta in *. rewrite H1, H2, H3, H4, G1, G2, G3, G4. auto.
Qed.

Lemma indexNewFiles_dry files st : indexNewFiles true files st = st.
Proof. induction files as [|f files IH]; simpl; auto. Qed.

Lemma reindexModifiedFiles_dry files st w :
  reindexModifiedFiles env true files st w = (st, w).
Proof. induction files as [|f files IH]; simpl; auto. Qed.

Lemma deleteRemovedFiles_dry files st w :
  deleteRemovedFiles env true files st w = (st, w).
Proof. induction files as [|f files IH]; simpl; auto. Qed.

(** In dry-run mode [sync] only compares: it returns the statistics of
    [compareFiles] with every counter at zero and no error, and the index,
    the id generator and the log of index calls are as before. *)
Theorem dry_run_sync_changes_nothing (allFiles : list DriveFile) (w : World) :
  let st := fst (sync env true allFiles w) in
  snd (sync env true allFiles w) = w
  /\ st = compareFiles (supportedFiles allFiles) (getPineconeFiles (index w)) emptyStats
  /\ st_indexed st = 0 /\ st_reindexed st = 0 /\ st_deleted st = 0
  /\ st_errors st = [].
Proof.
  unfold sync. rewrite indexNewFiles_dry, reindexModifiedFiles_dry, deleteRemovedFiles_dry.
  cbn [fst snd]. split; [reflexivity|]. split; [reflexivity|].
  apply compareFiles_counters.
Qed.

Lemma Progress_refl st : Progress 0 st st.
Proof. constructor; auto; lia. Qed.

Lemma Progress_trans j k a b c : Progress j a b -> Progress k b c -> Progress (j + k) a c.
Proof.
  intros [] []. constructor; try congruence; try lia.
Qed.

Lemma addError_progress st fileName msg : Progress 1 st (addError st fileName msg).
Proof.
  constructor; simpl; auto; rewrite ?length_app; simpl; lia.
Qed.

Lemma indexNewFiles_live files : forall st,
  Progress (List.length files) st (indexNewFiles false files st)
  /\ List.length (st_errors (indexNewFiles false files st))
     = List.length (st_errors st) + List.length files.
Proof.
  induction files as [|f files IH]; intros st; cbn [indexNewFiles List.length].
  - split; [apply Progress_refl | lia].
  - destruct (IH (addError st (file_name f)
                    "Cannot read properties of undefined (reading 'downloadFile')"))
      as [IH1 IH2].
    split.
    + change (S (List.length files)) with (1 + List.length files).
      eapply Progress_trans; [apply addError_progress | exact IH1].
    + rewrite IH2. simpl. rewrite length_app. simpl. lia.
Qed.

Lemma reindexOne_progress file st w :
  Progress 1 st (fst (reindexOne env file st w)).
Proof.
  unfold reindexOne.
  destruct (deleteManyThrows env (oldVectorIds file)); [apply addError_progress|].
  destruct (extractText env (mf_file file)) as [text|m]; [|apply addError_progress].
  destruct (String.length (Js.trim text) <? minContent)%nat; [apply addError_progress|].
  destruct (createVectorsFrom env _ _ 0 _ _) as [[vs|m] n]; [|apply addError_progress].
  destruct (uploadToPinecone env vs _) as [[u|m] w3]; [|apply addError_progress].
  constructor; simpl; auto; lia.
Qed.

Lemma reindexModifiedFiles_live files : forall st w,
  Progress (List.length files) st (fst (reindexModifiedFiles env false files st w)).
Proof.
  induction files as [|f files IH]; intros st w; cbn [reindexModifiedFiles List.length].
  - apply Progress_refl.
  - pose proof (reindexOne_progress f st w) as H1.
    destruct (reindexOne env f st w) as [st1 w1]. cbn [fst] in H1.
    change (S (List.length files)) with (1 + List.length files).
    eapply Progress_trans; [exact H1 | apply IH].
Qed.

Lemma deleteRemovedFiles_live files : forall st w,
  Progress (List.length files) st (fst (deleteRemovedFiles env false files st w)).
Proof.
  induction files as [|f files IH]; intros st w; cbn [deleteRemovedFiles List.length].
  - apply Progress_refl.
  - change (S (List.length files)) with (1 + List.length files).
    destruct (deleteManyThrows env (del_vectorIds f)).
    + eapply Progress_trans; [apply addError_progress | apply IH].
    + eapply Progress_trans; [|apply IH]. constructor; simpl; auto; lia.
Qed.

(** The accounting of a live [sync].  The lists computed by [compareFiles]
    are not touched; every NEW, MODIFIED and DELETED item ends either in one
    of the counters or in the error list, once.  No NEW item is ever indexed:
    the constructor sets no [driveIndexer], so each one is recorded as an
    error and [indexed] stays 0. *)
Theorem live_sync_accounts_for_every_item (allFiles : list DriveFile) (w : World) :
  let st0 := compareFiles (supportedFiles allFiles) (getPineconeFiles (index w))
                          emptyStats in
  let st := fst (sync env false allFiles w) in
  st_newFiles st = st_newFiles st0
  /\ st_modifiedFiles st = st_modifiedFiles st0
  /\ st_deletedFiles st = st_deletedFiles st0
  /\ st_indexed st = 0
  /\ st_reindexed st + st_deleted st + List.length (st_errors st)
     = List.length (st_newFiles st0) + List.length (st_modifiedFiles st0)
       + List.length (st_deletedFiles st0)
  /\ List.length (st_newFiles st0) <= List.length (st_errors st).
Proof.
  intros st0 st. unfold st, sync. fold st0.
  destruct (compareFiles_counters (supportedFiles allFiles) (getPineconeFiles (index w)))
    as (C1 & C2 & C3 & C4). fold st0 in C1, C2, C3, C4.
  destruct (indexNewFiles_live (st_newFiles st0) st0) as [P1 E1].
  set (st1 := indexNewFiles false (st_newFiles st0) st0) in *.
  pose proof (reindexModifiedFiles_live (st_modifiedFiles st1) st1 w) as P2.
  destruct (reindexModifiedFiles env false (st_modifiedFiles st1) st1 w) as [st2 w2].
  cbn [fst] in P2.
  pose proof (deleteRemovedFiles_live (st_deletedFiles st2) st2 w2) as P3.
  destruct (deleteRemovedFiles env false (st_deletedFiles st2) st2 w2) as [st3 w3].
  cbn [fst] in P3 |- *.
  assert (E0 : List.length (st_errors st0) = 0) by (now rewrite C4).
  destruct P1, P2, P3.
  repeat split; try congruence; try lia.
  rewrite pr_modified1, pr_deleted0, pr_deleted1 in *.
  rewrite pr_modified0 in *. lia.
Qed.

(** One MODIFIED item of the catalog syncer that is not counted as
    re-indexed, when the index accepts writes: an error is recorded for it,
    and if the deletion of its old vectors went through, the index is the
    former one without those vectors (nothing was written in their place);
    if the deletion was rejected, the index is unchanged. *)
Theorem catalog_reindex_failure_drops_document
    (file : ModifiedFile) (st : Stats) (w : World) (st' : Stats) (w' : World) :
  reindexOne env file st w = (st', w') ->
  st_reindexed st' = st_reindexed st ->
  (forall b, upsertThrows env b = false) ->
  List.length (st_errors st') = S (List.length (st_errors st))
  /\ (deleteManyThrows env (oldVectorIds file) = true -> index w' = index w)
  /\ (deleteManyThrows env (oldVectorIds file) = false ->
      index w' = deleteMany (oldVectorIds file) (index w)).
Proof.
  intros H Hcount Hup. unfold reindexOne in H.
  assert (Herr : forall nm msg, List.length (st_errors (addError st nm msg))
                                = S (List.length (st_errors st))).
  { intros nm msg. simpl. rewrite length_app. simpl. lia. }
  destruct (deleteManyThrows env (oldVectorIds file)).
  { injection H as <- <-. split; [apply Herr|]. split; [reflexivity | discriminate]. }
  destruct (extractText env (mf_file file)) as [text|m].
  2:{ injection H as <- <-. split; [apply Herr|]. split; [discriminate | reflexivity]. }
  destruct (String.length (Js.trim text) <? minContent)%nat.
  { injection H as <- <-. split; [apply Herr|]. split; [discriminate | reflexivity]. }
  destruct (createVectorsFrom env _ _ 0 _ _) as [[vs|m] n].
  2:{ injection H as <- <-. split; [apply Herr|]. split; [discriminate | reflexivity]. }
  unfold uploadToPinecone in H.
  rewrite (upsertBatches_ok env _ _ (fun b _ => Hup b)) in H.
  injection H as <- <-. simpl in Hcount. lia.
Qed.

End CatalogRuns.

Lemma catalog_reindex_failure_drops_document_witness :
  index (snd (reindexOne Sample.flaky (mkModifiedFile Sample.badDoc [ExtId "b1"]) emptyStats
                (Sample.world [Sample2.badVec; Sample.guideVec])))
  = [Sample.guideVec].
Proof.
  destruct (catalog_reindex_failure_drops_document Sample.flaky
              (mkModifiedFile Sample.badDoc [ExtId "b1"]) emptyStats
              (Sample.world [Sample2.badVec; Sample.guideVec])
              (fst (reindexOne Sample.flaky (mkModifiedFile Sample.badDoc [ExtId "b1"])
                      emptyStats (Sample.world [Sample2.badVec; Sample.guideVec])))
              (snd (reindexOne Sample.flaky (mkModifiedFile Sample.badDoc [ExtId "b1"])
                      emptyStats (Sample.world [Sample2.badVec; Sample.guideVec]))))
    as (_ & _ & H).
  - apply surjective_pairing.
  - vm_compute. reflexivity.
  - intros b. reflexivity.
  - rewrite (H eq_refl). vm_compute. reflexivity.
Defined.

(** ** A text that fits one chunk *)

Lemma blank_trimStart_empty s : blank s = true -> Js.trimStart s = EmptyString.
Proof.
  induction s as [|c s IH]; simpl; [reflexivity|].
  destruct (Js.isSpace c); simpl; [exact IH | discriminate].
Qed.

Lemma trimStart_append s t :
  Js.trimStart (s ++ t) = if blank s then Js.trimStart t else (Js.trimStart s ++ t)%string.
Proof.
  induction s as [|c s IH]; simpl; [reflexivity|].
  destruct (Js.isSpace c); simpl; [exact IH | reflexivity].
Qed.

Lemma trimEnd_append_blank s t : blank t = true -> Js.trimEnd (s ++ t) = Js.trimEnd s.
Proof.
  intros Ht. induction s as [|c s IH]; simpl.
  - apply trimEnd_empty_iff. exact Ht.
  - now rewrite IH.
Qed.

Lemma trim_append_blank s t : blank t = true -> Js.trim (s ++ t) = Js.trim s.
Proof.
  intros Ht. unfold Js.trim. rewrite trimStart_append.
  destruct (blank s) eqn:Hs.
  - rewrite (blank_trimStart_empty s Hs), (blank_trimStart_empty t Ht). reflexivity.
  - apply trimEnd_append_blank. exact Ht.
Qed.

Lemma joinLines_length_snoc run l :
  String.length (joinLines (run ++ [l])) = String.length (joinLines run) + String.length l + 1.
Proof.
  rewrite joinLines_snoc, !slength_append. simpl. lia.
Qed.

Lemma chunkLoop_small lines chunkSize overlap (pre : list string) :
  String.length (joinLines pre) <= chunkSize ->
  fold_left (chunkStep lines chunkSize overlap) pre (mkLoop [] EmptyString [])
  = mkLoop [] (joinLines pre) (map (lineNumber lines) pre).
Proof.
  induction pre as [|l pre IH] using rev_ind; intros H; [reflexivity|].
  rewrite joinLines_length_snoc in H.
  rewrite fold_left_app, IH by lia. cbn [fold_left]. unfold chunkStep.
  cbn [currentChunk chunks currentLines].
  destruct (Nat.ltb_spec chunkSize (String.length (joinLines pre) + (String.length l + 1)))
    as [Hlt|_]; [lia|].
  cbn [andb currentChunk chunks currentLines].
  rewrite joinLines_snoc, map_app. reflexivity.
Qed.

Lemma indexOf_in lines l : In l lines -> exists i, Js.indexOf lines l = Some i /\ i < List.length lines.
Proof.
  induction lines as [|x lines IH]; intros H; [contradiction|]. simpl.
  destruct (String.eqb_spec x l) as [E|E].
  - exists 0. split; [reflexivity | lia].
  - destruct H as [H|H]; [congruence|]. destruct (IH H) as (i & -> & Hi).
    exists (S i). split; [reflexivity | lia].
Qed.

(** A text that, with one line break added, is not longer than the chunk size
    is never cut: [chunkText] returns one chunk, the trimmed text, counted
    from line 1; a blank text gives no chunk at all.  With the default size
    this is every text of at most 999 characters. *)
Theorem chunkText_small_text_is_one_chunk (text : string) (chunkSize overlap : nat) :
  String.length text + 1 <= chunkSize ->
  (Js.trim text = EmptyString -> chunkText text chunkSize overlap = [])
  /\ (Js.trim text <> EmptyString ->
      exists last,
        1 <= last <= List.length (Js.split Js.nl text)
        /\ chunkText text chunkSize overlap = [mkChunk (Js.trim text) 1 last]).
Proof.
  intros Hsmall. unfold chunkText.
  assert (Hlen : String.length (joinLines (Js.split Js.nl text)) <= chunkSize).
  { rewrite joinLines_split, slength_append. simpl. lia. }
  rewrite (chunkLoop_small _ chunkSize overlap _ Hlen). unfold finish.
  cbn [currentChunk chunks currentLines]. rewrite joinLines_split.
  assert (Ht : Js.trim (text ++ nlStr) = Js.trim text)
    by (apply trim_append_blank; reflexivity).
  rewrite Ht. split.
  - intros ->. reflexivity.
  - intros Hne. destruct (String.eqb_spec (Js.trim text) EmptyString) as [E|_]; [congruence|].
    unfold mkChunkOf. rewrite Ht.
    destruct (Js.split Js.nl text) as [|l0 rest] eqn:Hsplit.
    { exfalso. exact (split_nonempty _ _ Hsplit). }
    set (lines := l0 :: rest) in *.
    assert (Hin : In (last lines EmptyString) lines).
    { unfold lines. clear. revert l0. induction rest as [|x rest IH]; intros l0.
      - now left.
      - right. apply (IH x). }
    destruct (indexOf_in lines _ Hin) as (i & Hi & Hlt).
    exists (S i). split; [simpl List.length in *; lia|].
    cbn [app]. f_equal. f_equal.
    + unfold lines at 2. cbn [map firstOr1]. unfold lineNumber, lines.
      cbn [Js.indexOf]. now rewrite String.eqb_refl.
    + unfold lastOr1. rewrite <- map_rev.
      assert (Hrev : exists tl, rev lines = last lines EmptyString :: tl).
      { unfold lines. clear. revert l0. induction rest as [|x rest IH]; intros l0.
        - exists []. reflexivity.
        - destruct (IH x) as [tl Htl].
          exists (tl ++ [l0]). change (rev (l0 :: x :: rest)) with (rev (x :: rest) ++ [l0]).
          rewrite Htl. reflexivity. }
      destruct Hrev as [tl ->]. cbn [map]. unfold lineNumber. rewrite Hi. reflexivity.
Qed.

Lemma chunkText_small_text_is_one_chunk_witness :
  exists last, chunkText Sample.body defaultChunkSize defaultOverlap
               = [mkChunk Sample.body 1 last].
Proof.
  destruct (proj2 (chunkText_small_text_is_one_chunk Sample.body defaultChunkSize
                     defaultOverlap ltac:(vm_compute; lia)))
    as (last & _ & H).
  - vm_compute. discriminate.
  - exists last. exact H.
Defined.

(** ** The word chunker of [indexer/chunker.js] *)

Lemma splitWsAux_nonempty b s : splitWsAux b s <> [].
Proof.
  revert b. induction s as [|c s IH]; intros b; simpl; [discriminate|].
  destruct (Js.isSpace c).
  - destruct b; [apply IH | discriminate].
  - destruct (splitWsAux false s); discriminate.
Qed.

Lemma IsWindow_grows l l' c : IsWindow l c -> IsWindow (l ++ l') c.
Proof.
  intros (a & ws & b & -> & H). exists a, ws, (b ++ l').
  split; [now rewrite <- !app_assoc | exact H].
Qed.

Lemma sliceLast_suffix {A} (n : nat) (l : list A) :
  exists x, l = x ++ sliceLast n l.
Proof.
  unfold sliceLast. destruct (n =? 0)%nat.
  - exists []. reflexivity.
  - exists (firstn (List.length l - n) l). symmetry. apply firstn_skipn.
Qed.

Lemma sliceLast_zero {A} (l : list A) : sliceLast 0 l = l.
Proof. reflexivity. Qed.

Lemma WordInv_init k : WordInv k [] (mkWordState [] [] 0 0 0).
Proof.
  constructor; simpl; auto.
  - exists []. reflexivity.
  - intros j Hj. lia.
Qed.

Lemma WordInv_step chunkSize overlap pre st word :
  WordInv (overlap / 5) pre st ->
  WordInv (overlap / 5) (pre ++ [word]) (wordStep chunkSize overlap st word).
Proof.
  intros [Hi [front Hfront] Hne Hidx Hseq Hwin Hcov Hcum].
  assert (Hlen : List.length (pre ++ [word]) = S (List.length pre))
    by (rewrite length_app; simpl; lia).
  assert (Hpl : List.length pre = List.length front + List.length (w_current st))
    by (rewrite Hfront at 1; apply length_app).
  unfold wordStep.
  destruct ((chunkSize <? w_length st + String.length word)%nat
            && (0 <? List.length (w_current st))%nat) eqn:Hcond.
  - (* the current chunk is saved *)
    apply andb_true_iff in Hcond. destruct Hcond as [_ Hcur]. apply Nat.ltb_lt in Hcur.
    cbn [w_chunks w_current w_length w_index w_i].
    destruct (sliceLast_suffix (overlap / 5) (w_current st)) as [x Hx].
    set (c0 := mkWordChunk (joinSp (w_current st)) (w_index st)
                           (w_i st - List.length (w_current st)) (w_i st)).
    assert (Hc0s : char_start c0 = List.length front) by (simpl; lia).
    assert (Hc0e : char_end c0 = List.length pre) by (simpl; lia).
    constructor; cbn [w_chunks w_current w_length w_index w_i].
    + lia.
    + exists (front ++ x). rewrite <- app_assoc, (app_assoc x), <- Hx.
      rewrite Hfront at 1. now rewrite <- app_assoc.
    + intros _ E. apply app_eq_nil in E. destruct E; discriminate.
    + rewrite length_app. simpl. lia.
    + rewrite map_app, length_app, Hseq. cbn [map List.length chunk_index c0].
      rewrite Nat.add_1_r, seq_S, Hidx. reflexivity.
    + apply Forall_app. split.
      * eapply Forall_impl; [|exact Hwin]. intros c. apply IsWindow_grows.
      * constructor; [|constructor].
        exists front, (w_current st), [word].
        split; [rewrite Hfront at 1; now rewrite <- app_assoc|].
        split; [intros E; rewrite E in Hcur; simpl in Hcur; lia|].
        split; [reflexivity|]. split; [exact Hc0s | simpl; lia].
    + intros k Hk. rewrite Hlen in Hk |- *. rewrite length_app. cbn [List.length].
      destruct (Nat.eq_dec k (List.length pre)) as [->|Hneq]; [right; lia|].
      left. destruct (Hcov k ltac:(lia)) as [(c & Hc & Hr)|Hr].
      * exists c. split; [apply in_or_app; now left | exact Hr].
      * exists c0. split; [apply in_or_app; right; now left | lia].
    + intros Hz. destruct (Hcum Hz) as [Hall Hstart].
      rewrite Hz, sliceLast_zero, Hall. split; [reflexivity|].
      apply Forall_app. split; [exact Hstart|]. constructor; [|constructor].
      rewrite Hc0s. rewrite Hall in Hpl. lia.
  - (* the word joins the current chunk *)
    constructor; cbn [w_chunks w_current w_length w_index w_i].
    + lia.
    + exists front. rewrite Hfront at 1. now rewrite <- app_assoc.
    + intros _ E. apply app_eq_nil in E. destruct E; discriminate.
    + exact Hidx.
    + exact Hseq.
    + eapply Forall_impl; [|exact Hwin]. intros c. apply IsWindow_grows.
    + intros k Hk. rewrite Hlen in Hk |- *. rewrite length_app. cbn [List.length].
      destruct (Nat.eq_dec k (List.length pre)) as [->|Hneq]; [right; lia|].
      destruct (Hcov k ltac:(lia)) as [Hc|Hr]; [now left | right; lia].
    + intros Hz. destruct (Hcum Hz) as [Hall Hstart]. rewrite Hall. auto.
Qed.

Lemma WordInv_fold chunkSize overlap (words : list string) :
  WordInv (overlap / 5) words
          (fold_left (wordStep chunkSize overlap) words (mkWordState [] [] 0 0 0)).
Proof.
  induction words as [|w words IH] using rev_ind; [apply WordInv_init|].
  rewrite fold_left_app. cbn [fold_left]. apply WordInv_step. exact IH.
Qed.

Lemma wordChunk_window_facts (text : string) (chunkSize overlap : nat) :
  let words := splitWs text in
  let cs := wordChunkText text chunkSize overlap in
  cs <> []
  /\ map chunk_index cs = seq 0 (List.length cs)
  /\ Forall (fun c =>
               char_start c < char_end c <= List.length words
               /\ wc_text c =
                  joinSp (firstn (char_end c - char_start c) (skipn (char_start c) words)))
            cs
  /\ (forall k, k < List.length words ->
        exists c, In c cs /\ char_start c <= k < char_end c).
Proof.
  intros words cs.
  pose proof (WordInv_fold chunkSize overlap words) as Hinv.
  assert (Hw : words <> []) by apply splitWsAux_nonempty.
  unfold cs, wordChunkText. fold words.
  set (st := fold_left (wordStep chunkSize overlap) words (mkWordState [] [] 0 0 0)) in *.
  destruct Hinv as [Hi [front Hfront] Hne Hidx Hseq Hwin Hcov _].
  specialize (Hne Hw).
  destruct (w_current st) as [|w0 cur] eqn:Hcur; [congruence|].
  set (final := mkWordChunk (joinSp (w0 :: cur)) (w_index st)
                            (List.length words - List.length (w0 :: cur))
                            (List.length words)).
  assert (Hpl : List.length words = List.length front + List.length (w0 :: cur))
    by (rewrite Hfront at 1; apply length_app).
  assert (Hfinal : IsWindow words final).
  { exists front, (w0 :: cur), []. rewrite app_nil_r.
    split; [exact Hfront|]. split; [discriminate|]. split; [reflexivity|].
    unfold final. cbn [char_start char_end]. lia. }
  assert (Hshape : forall c, IsWindow words c ->
            char_start c < char_end c <= List.length words
            /\ wc_text c =
               joinSp (firstn (char_end c - char_start c) (skipn (char_start c) words))).
  { intros c (a & ws & b & E & Hws & Ht & Hs & He).
    assert (Hl : List.length words = List.length a + List.length ws + List.length b)
      by (rewrite E, !length_app; lia).
    assert (0 < List.length ws) by (destruct ws; [congruence | simpl; lia]).
    split; [lia|]. rewrite Ht, Hs, He, E.
    replace (List.length a + List.length ws - List.length a) with (List.length ws) by lia.
    rewrite skipn_app, Nat.sub_diag, skipn_all. cbn [skipn app].
    rewrite firstn_app, Nat.sub_diag, firstn_all. cbn [firstn]. now rewrite app_nil_r. }
  split; [|split; [|split]].
  - intros E. apply app_eq_nil in E. destruct E; discriminate.
  - rewrite map_app, length_app, Hseq. cbn [map List.length chunk_index final].
    rewrite Nat.add_1_r, seq_S, Hidx. reflexivity.
  - apply Forall_app. split.
    + eapply Forall_impl; [|exact Hwin]. exact Hshape.
    + constructor; [apply Hshape; exact Hfinal | constructor].
  - intros k Hk. destruct (Hcov k Hk) as [(c & Hc & Hr)|Hr].
    + exists c. split; [apply in_or_app; now left | exact Hr].
    + exists final. split; [apply in_or_app; right; now left|].
      unfold final. cbn [char_start char_end]. lia.
Qed.

(** [DocumentChunker.chunkText] works on the words of the text (the pieces
    between runs of white space).  It never returns an empty list; the
    chunks are numbered 0, 1, 2, ...; each chunk is a run of consecutive
    words joined by single spaces, and its [char_start] and [char_end] are
    the positions of that run among the words, not character offsets; and
    every word of the text is in at least one chunk. *)
Theorem wordChunkText_windows (text : string) (chunkSize overlap : nat) :
  let words := splitWs text in
  let cs := wordChunkText text chunkSize overlap in
  cs <> []
  /\ map chunk_index cs = seq 0 (List.length cs)
  /\ Forall (fun c =>
               char_start c < char_end c <= List.length words
               /\ wc_text c =
                  joinSp (firstn (char_end c - char_start c) (skipn (char_start c) words)))
            cs
  /\ (forall k, k < List.length words ->
        exists c, In c cs /\ char_start c <= k < char_end c).
Proof. exact (wordChunk_window_facts text chunkSize overlap). Qed.

(** The overlap is counted in words, one word for every 5 characters of the
    configured overlap, and [slice(-0)] keeps the whole array: with an
    overlap below 5 the current chunk is never shortened, so every chunk
    starts at the first word of the text and contains all the chunks before
    it. *)
Theorem wordChunkText_overlap_below_five (text : string) (chunkSize overlap : nat) :
  overlap < 5 ->
  Forall (fun c => char_start c = 0
                   /\ wc_text c = joinSp (firstn (char_end c) (splitWs text)))
         (wordChunkText text chunkSize overlap).
Proof.
  intros Hov.
  assert (Hz : overlap / 5 = 0) by (apply Nat.div_small; exact Hov).
  destruct (wordChunk_window_facts text chunkSize overlap) as (_ & _ & Hwin & _).
  cbn zeta in Hwin.
  assert (Hstart : Forall (fun c => char_start c = 0) (wordChunkText text chunkSize overlap)).
  { pose proof (WordInv_fold chunkSize overlap (splitWs text)) as Hinv.
    unfold wordChunkText.
    set (st := fold_left (wordStep chunkSize overlap) (splitWs text)
                         (mkWordState [] [] 0 0 0)) in *.
    destruct Hinv as [_ _ _ _ _ _ _ Hcum]. destruct (Hcum Hz) as [Hall Hs].
    destruct (w_current st) as [|w0 cur] eqn:Hcur; [exact Hs|].
    apply Forall_app. split; [exact Hs|]. constructor; [|constructor].
    cbn [char_start]. rewrite Hall. lia. }
  rewrite Forall_forall in *. intros c Hc.
  destruct (Hwin c Hc) as [_ Ht]. rewrite (Hstart c Hc) in *.
  split; [reflexivity|]. rewrite Ht, Nat.sub_0_r. reflexivity.
Qed.

Lemma wordChunkText_overlap_below_five_witness :
  List.length (wordChunkText "alpha beta gamma delta" 10 4) = 3
  /\ Forall (fun c => char_start c = 0
                      /\ wc_text c
                         = joinSp (firstn (char_end c) (splitWs "alpha beta gamma delta")))
            (wordChunkText "alpha beta gamma delta" 10 4).
Proof.
  split; [vm_compute; reflexivity|].
  apply (wordChunkText_overlap_below_five "alpha beta gamma delta" 10 4). lia.
Defined.

(** ** Text extraction *)

Lemma extractText_presentation doc slides sheets pdf embed up del f :
  file_mimeType f = Mime.presentation ->
  extractText (mkCollaborators doc slides sheets pdf embed up del) f = slides (file_id f).
Proof. intros E. unfold extractText. rewrite E. reflexivity. Qed.

Lemma extractText_pdf doc slides sheets pdf embed up del f :
  file_mimeType f = Mime.pdf ->
  extractText (mkCollaborators doc slides sheets pdf embed up del) f = pdf (file_id f).
Proof. intros E. unfold extractText. rewrite E. reflexivity. Qed.

Section ExtractFacts.
Import Extract.

Lemma addRun_acc text r : addRun text r = (text ++ addRun EmptyString r)%string.
Proof. destruct r; simpl; [reflexivity | now rewrite sappend_nil_r]. Qed.

Lemma fold_addRun_acc (l : list ParagraphElement) : forall text,
  fold_left (fun t te => addRun t (pe_textRun te)) l text
  = (text ++ fold_left (fun t te => addRun t (pe_textRun te)) l EmptyString)%string.
Proof.
  induction l as [|te l IH]; intros text; cbn [fold_left].
  - now rewrite sappend_nil_r.
  - rewrite IH, (IH (addRun EmptyString _)), (addRun_acc text), sappend_assoc. reflexivity.
Qed.

Lemma addElement_acc text e : addElement text e = (text ++ elementText e)%string.
Proof.
  unfold elementText, addElement. destruct (el_paragraph e) as [p|].
  - apply fold_addRun_acc.
  - apply addRun_acc.
Qed.

Lemma fold_addElement (l : list StructuralElement) : forall text,
  fold_left addElement l text = (text ++ joinAll (map elementText l))%string.
Proof.
  induction l as [|e l IH]; intros text; cbn [fold_left map joinAll fold_right].
  - now rewrite sappend_nil_r.
  - rewrite IH, addElement_acc, sappend_assoc. reflexivity.
Qed.

Lemma joinAll_app a b : joinAll (a ++ b) = (joinAll a ++ joinAll b)%string.
Proof.
  induction a as [|x a IH]; cbn [app joinAll fold_right]; [reflexivity|].
  fold (joinAll (a ++ b)). fold (joinAll a). now rewrite IH, sappend_assoc.
Qed.

(** [extractTextFromDocContent] returns the contents of the text runs it
    meets, in order and with nothing between them: a missing content array
    gives the empty string, the text of two arrays put end to end is the text
    of the first followed by the text of the second, an element with a
    paragraph contributes the runs of the paragraph only (its own [textRun]
    is not read), and a run without [content] contributes the word
    [undefined]. *)
Theorem extractTextFromDocContent_concatenates :
  extractTextFromDocContent None = EmptyString
  /\ (forall l, extractTextFromDocContent (Some l) = joinAll (map elementText l))
  /\ (forall a b, extractTextFromDocContent (Some (a ++ b))
                  = (extractTextFromDocContent (Some a)
                     ++ extractTextFromDocContent (Some b))%string)
  /\ (forall p r, elementText (mkElement (Some p) r) = elementText (mkElement (Some p) None))
  /\ (forall runs,
        elementText (mkElement (Some (mkParagraph (Some runs))) None)
        = joinAll (map (fun te => addRun EmptyString (pe_textRun te)) runs))
  /\ elementText (mkElement None (Some (mkTextRun None))) = "undefined".
Proof.
  assert (Hl : forall l, extractTextFromDocContent (Some l) = joinAll (map elementText l)).
  { intros l. unfold extractTextFromDocContent. now rewrite fold_addElement. }
  split; [reflexivity|]. split; [exact Hl|]. split; [|split; [|split]].
  - intros a b. rewrite !Hl, map_app. apply joinAll_app.
  - reflexivity.
  - intros runs. unfold elementText, addElement. cbn [el_paragraph par_elements].
    induction runs as [|te runs IH]; [reflexivity|].
    cbn [fold_left map joinAll fold_right]. rewrite fold_addRun_acc.
    fold (joinAll (map (fun te0 => addRun EmptyString (pe_textRun te0)) runs)).
    now rewrite IH.
  - reflexivity.
Qed.

Lemma fold_addPageElement (l : list PageElement) : forall text,
  fold_left addPageElement l text
  = (text ++ joinAll (map (fun t => t ++ twoLineBreaks)
                          (shapeTexts [mkSlide (Some l)])))%string.
Proof.
  unfold shapeTexts. cbn [flat_map pageElements]. rewrite app_nil_r.
  induction l as [|e l IH]; intros text; cbn [fold_left flat_map].
  - cbn. now rewrite sappend_nil_r.
  - rewrite IH. unfold addPageElement.
    destruct (pe_shape e) as [sh|]; [|reflexivity].
    destruct (shape_text sh) as [tc|]; [|reflexivity].
    cbn [app map joinAll fold_right]. now rewrite sappend_assoc.
Qed.

Lemma slidesText_from (slides : list Slide) : forall text,
  fold_left addSlide slides text
  = (text ++ joinAll (map (fun t => t ++ twoLineBreaks) (shapeTexts slides)))%string.
Proof.
  induction slides as [|s slides IH]; intros text; cbn [fold_left].
  - cbn. now rewrite sappend_nil_r.
  - rewrite IH. unfold addSlide.
    assert (E : shapeTexts (s :: slides) = shapeTexts [s] ++ shapeTexts slides).
    { unfold shapeTexts. cbn [flat_map]. now rewrite app_nil_r. }
    rewrite E, map_app, joinAll_app.
    destruct s as [[l|]]; cbn [pageElements].
    + rewrite fold_addPageElement, sappend_assoc. reflexivity.
    + reflexivity.
Qed.

Lemma blank_joinAll (l : list string) :
  Forall (fun t => blank t = true) l -> blank (joinAll l) = true.
Proof.
  induction 1 as [|t l Ht _ IH]; [reflexivity|].
  cbn [joinAll fold_right]. rewrite blank_append. fold (joinAll l). now rewrite Ht, IH.
Qed.

Lemma pagesText_from (pages : list string) : forall acc,
  fold_left (fun fullText text => (fullText ++ (text ++ twoLineBreaks))%string) pages acc
  = (acc ++ joinAll (map (fun t => t ++ twoLineBreaks)%string pages))%string.
Proof.
  induction pages as [|pg pages IH]; intros acc; cbn [fold_left map joinAll fold_right].
  - now rewrite sappend_nil_r.
  - rewrite IH, sappend_assoc. reflexivity.
Qed.

Lemma pagesText_spec (pages : list string) :
  pagesText pages = joinAll (map (fun t => t ++ twoLineBreaks)%string pages).
Proof. unfold pagesText. now rewrite pagesText_from. Qed.

Variable api : GoogleApis.
Variable embed : string -> result Embedding.
Variable rejectUpsert : list Vec -> bool.
Variable rejectDelete : list VecId -> bool.

(** The text of a presentation is the text of its shapes, each followed by
    two line breaks; slides without page elements and elements without a
    text shape add nothing.  So a deck in which no shape has anything but
    white space (a deck of pictures) is reported by [indexFile] as
    [Text too short] and counts as a failure; a deck for which the service
    returns no [slides] array fails with the [TypeError] of the loop.
    Neither touches the index. *)
Theorem presentation_without_text_is_too_short
    (now : Z) (f : DriveFile) (w : World) :
  let env := Extract.collaborators api embed rejectUpsert rejectDelete in
  file_mimeType f = Mime.presentation ->
  (forall slides,
     presentationsGet api (file_id f) = Ok (Some slides) ->
     extractText env f
     = Ok (joinAll (map (fun t => t ++ twoLineBreaks)%string (shapeTexts slides)))
     /\ (Forall (fun t => blank t = true) (shapeTexts slides) ->
         indexFile env now f w = (failure "Text too short", w)))
  /\ (presentationsGet api (file_id f) = Ok None ->
      indexFile env now f w
      = (failure "presentation.data.slides is not iterable", w)).
Proof.
  intros env Hmime.
  assert (Hx : extractText env f = Extract.extractGoogleSlides api (file_id f))
    by (apply extractText_presentation; exact Hmime).
  unfold Extract.extractGoogleSlides in Hx. split.
  - intros slides Hget. rewrite Hget in Hx. cbn [bindR] in Hx.
    unfold slidesText in Hx. rewrite slidesText_from in Hx. cbn [String.append] in Hx.
    split; [exact Hx|]. intros Hblank. unfold indexFile. rewrite Hx.
    assert (Hb : blank (joinAll (map (fun t => t ++ twoLineBreaks)%string
                                     (shapeTexts slides))) = true).
    { apply blank_joinAll. rewrite Forall_map. eapply Forall_impl; [|exact Hblank].
      intros t Ht. cbn beta. rewrite blank_append, Ht. reflexivity. }
    apply trim_empty_iff in Hb. rewrite Hb. reflexivity.
  - intros Hget. rewrite Hget in Hx. cbn [bindR] in Hx.
    unfold indexFile. rewrite Hx. reflexivity.
Qed.

(** [IntelligentSync.extractPDF] keeps the parsed text only when more than 50
    characters remain after trimming; otherwise the parsed text is dropped
    and the result is what the recognition of the pages gives, each page
    followed by two line breaks, or its failure.  [indexFile] itself rejects
    a text only below 50 characters, so a parsed text of exactly 50
    characters, which it would accept, is never used.  The catalog syncer
    returns the parsed text as it is. *)
Theorem extractPDF_uses_parsed_text_above_50
    (now : Z) (f : DriveFile) (w : World) (text : string) :
  let env := Extract.collaborators api embed rejectUpsert rejectDelete in
  file_mimeType f = Mime.pdf ->
  parsePdf api (file_id f) = Ok text ->
  (50 < String.length (Js.trim text) -> extractText env f = Ok text)
  /\ (String.length (Js.trim text) <= 50 ->
      (forall pages, ocrPages api (file_id f) = Ok pages ->
         extractText env f = Ok (joinAll (map (fun t => t ++ twoLineBreaks)%string pages)))
      /\ (forall m, ocrPages api (file_id f) = Throw m ->
            indexFile env now f w = (failure m, w)))
  /\ extractText (Extract.catalogCollaborators api embed rejectUpsert rejectDelete) f
     = Ok text.
Proof.
  intros env Hmime Hparse.
  assert (Hx : extractText env f = Extract.extractPDF api (file_id f))
    by (apply extractText_pdf; exact Hmime).
  unfold Extract.extractPDF in Hx. rewrite Hparse in Hx. cbn [bindR] in Hx.
  split; [|split].
  - intros Hlong. apply Nat.ltb_lt in Hlong. rewrite Hlong in Hx. exact Hx.
  - intros Hshort. apply Nat.ltb_ge in Hshort. rewrite Hshort in Hx. split.
    + intros pages Hocr. rewrite Hocr in Hx. cbn [bindR] in Hx. rewrite Hx. f_equal.
      apply pagesText_spec.
    + intros m Hocr. rewrite Hocr in Hx. cbn [bindR] in Hx.
      unfold indexFile. rewrite Hx. reflexivity.
  - unfold Extract.catalogCollaborators.
    rewrite (extractText_pdf _ _ _ _ _ _ _ f Hmime). exact Hparse.
Qed.

Lemma fold_addRow (rows : list (list string)) : forall text,
  fold_left addRow rows text
  = (text ++ joinAll (map (fun row => String.concat " | " row ++ nlStr)%string rows))%string.
Proof.
  induction rows as [|row rows IH]; intros text; cbn [fold_left map joinAll fold_right].
  - now rewrite sappend_nil_r.
  - rewrite IH. unfold addRow. rewrite sappend_assoc. reflexivity.
Qed.

Lemma sheetsLoop_ok (fileId : string) (sheets : list string) : forall text,
  (forall s, In s sheets -> exists v, valuesGet api fileId s = Ok v) ->
  sheetsLoop api fileId sheets text
  = Ok (text ++ joinAll (map (fun s => sheetText s (valuesOf api fileId s)) sheets))%string.
Proof.
  induction sheets as [|s sheets IH]; intros text Hall; cbn [sheetsLoop map joinAll fold_right].
  - now rewrite sappend_nil_r.
  - destruct (Hall s (or_introl eq_refl)) as [v Hv]. rewrite Hv.
    rewrite IH by (intros s' Hs'; apply Hall; now right).
    f_equal. unfold sheetText, valuesOf. rewrite Hv.
    destruct v as [rows|].
    + rewrite fold_addRow, !sappend_assoc. reflexivity.
    + cbn [map joinAll fold_right]. rewrite !sappend_assoc. reflexivity.
Qed.

Lemma sheetsLoop_throws (fileId : string) (before : list string) :
  forall s after m text,
  (forall b, In b before -> exists v, valuesGet api fileId b = Ok v) ->
  valuesGet api fileId s = Throw m ->
  sheetsLoop api fileId (before ++ s :: after) text = Throw m.
Proof.
  induction before as [|b before IH]; intros s after m text Hall Hs; cbn [app sheetsLoop].
  - now rewrite Hs.
  - destruct (Hall b (or_introl eq_refl)) as [v Hv]. rewrite Hv.
    apply IH; [intros b' Hb'; apply Hall; now right | exact Hs].
Qed.

(** The text of a spreadsheet is, sheet after sheet, the line [Sheet: title],
    an empty line, one line per row with the cells joined by [ | ], and two
    more line breaks; a sheet without values contributes its title line
    only.  The values of the sheets are fetched one by one, and the first
    fetch that fails makes the whole extraction fail: the text of the sheets
    read before it is lost. *)
Theorem extractGoogleSheets_reads_every_sheet_or_fails
    (fileId : string) (sheets : list string) :
  spreadsheetsGet api fileId = Ok sheets ->
  ((forall s, In s sheets -> exists v, valuesGet api fileId s = Ok v) ->
   Extract.extractGoogleSheets api fileId
   = Ok (joinAll (map (fun s => sheetText s (valuesOf api fileId s)) sheets)))
  /\ (forall before s after m,
        sheets = before ++ s :: after ->
        (forall b, In b before -> exists v, valuesGet api fileId b = Ok v) ->
        valuesGet api fileId s = Throw m ->
        Extract.extractGoogleSheets api fileId = Throw m).
Proof.
  intros Hget. unfold Extract.extractGoogleSheets. rewrite Hget. cbn [bindR]. split.
  - intros Hall. rewrite (sheetsLoop_ok fileId sheets EmptyString Hall). reflexivity.
  - intros before s after m -> Hall Hs. apply sheetsLoop_throws; assumption.
Qed.

End ExtractFacts.

Lemma presentation_without_text_is_too_short_witness :
  indexFile SampleDocs.env Sample.someNow Sample.deck (Sample.world [Sample.guideVec])
  = (failure "Text too short", Sample.world [Sample.guideVec]).
Proof.
  destruct (presentation_without_text_is_too_short SampleDocs.api (fun _ => Ok [])
              (fun _ => false) (fun _ => false) Sample.someNow Sample.deck
              (Sample.world [Sample.guideVec]) eq_refl) as [Hdeck _].
  destruct (Hdeck SampleDocs.pictureDeck eq_refl) as [_ Hshort].
  apply Hshort. constructor.
Defined.

Lemma extractPDF_uses_parsed_text_above_50_witness :
  extractText SampleDocs.env SampleDocs.scannedPdf
  = Ok (Sample.body ++ Extract.twoLineBreaks)%string.
Proof.
  destruct (extractPDF_uses_parsed_text_above_50 SampleDocs.api (fun _ => Ok [])
              (fun _ => false) (fun _ => false) Sample.someNow SampleDocs.scannedPdf
              (Sample.world []) "scan" eq_refl eq_refl) as (_ & Hocr & _).
  destruct Hocr as [Hpages _]; [vm_compute; lia|].
  exact (Hpages [Sample.body] eq_refl).
Defined.

Lemma extractGoogleSheets_reads_every_sheet_or_fails_witness :
  exists text, Extract.extractGoogleSheets SampleDocs.api "S1" = Ok text
               /\ Js.includes text "SKU | Price" = true.
Proof.
  destruct (extractGoogleSheets_reads_every_sheet_or_fails SampleDocs.api "S1"
              ["Prices"; "Notes"] eq_refl) as [Hok _].
  eexists. split.
  - apply Hok. intros s [<-|[<-|[]]]; eexists; reflexivity.
  - vm_compute. reflexivity.
Defined.

(** ** The Drive scan *)

Section ScanFacts.
Import Scan.

Lemma DriveNode_nested_ind (P : DriveNode -> Prop) :
  (forall item rejected children, Forall P children -> P (Node item rejected children)) ->
  forall n, P n.
Proof.
  intros H. fix IH 1. intros [item rejected children]. apply H.
  induction children as [|c children IHc]; constructor; [apply IH | exact IHc].
Qed.

Lemma scanItem_unfold path item rejected children st :
  scanItem path (Node item rejected children) st
  = if String.eqb (file_mimeType item) Mime.folder then
      match rejected with
      | Some m => Throw m
      | None => scanItems (folderPathOf path item) pageSize children
                          (enterFolder st item (folderPathOf path item))
      end
    else Ok (pushFile st item path).
Proof.
  cbn [scanItem]. destruct (String.eqb (file_mimeType item) Mime.folder); [|reflexivity].
  destruct rejected as [m|]; [reflexivity|].
  generalize (enterFolder st item (folderPathOf path item)).
  generalize pageSize. induction children as [|c children IH]; intros k s.
  - destruct k; reflexivity.
  - destruct k as [|k]; [reflexivity|]. cbn [scanItems].
    destruct (scanItem (folderPathOf path item) c s) as [s'|m]; [apply IH | reflexivity].
Qed.

Lemma scanItems_firstn path : forall k l st,
  scanItems path k l st = scanItems path k (firstn k l) st.
Proof.
  induction k as [|k IH]; intros l st; [destruct l; reflexivity|].
  destruct l as [|c l]; [reflexivity|]. cbn [firstn scanItems].
  destruct (scanItem path c st) as [st'|m]; [apply IH | reflexivity].
Qed.

(** The scan reads one page of every listing.  Of a folder with more than
    1000 items it visits the first 1000 and never sees the others: the result
    is the one of the same Drive with that folder cut after its 1000th item,
    at the root and at every folder below.  A rejected listing of the root
    rejects the scan. *)
Theorem scanGoogleDrive_reads_first_page_only
    (rejected : option string) (children : list DriveNode) :
  scanGoogleDrive rejected children = scanGoogleDrive rejected (firstn 1000 children)
  /\ (forall path item st,
        scanItem path (Node item rejected children) st
        = scanItem path (Node item rejected (firstn 1000 children)) st)
  /\ (forall m, rejected = Some m -> scanGoogleDrive rejected children = Throw m).
Proof.
  split; [|split].
  - unfold scanGoogleDrive. destruct rejected; [reflexivity|].
    now rewrite (scanItems_firstn EmptyString pageSize children).
  - intros path item st. rewrite !scanItem_unfold.
    destruct (String.eqb _ _); [|reflexivity]. destruct rejected; [reflexivity|].
    apply (scanItems_firstn _ pageSize children).
  - intros m ->. reflexivity.
Qed.

Lemma filePathOf_nonempty path : filePathOf path <> EmptyString.
Proof.
  unfold filePathOf, isEmpty. destruct (String.eqb_spec path EmptyString); [discriminate | assumption].
Qed.

Lemma scanItem_listed : forall n path st st',
  scanItem path n st = Ok st' ->
  Forall Listed (allFiles st) -> Forall Listed (allFiles st').
Proof.
  induction n as [item rejected children IH] using DriveNode_nested_ind.
  intros path st st' H Hst. rewrite scanItem_unfold in H.
  destruct (String.eqb_spec (file_mimeType item) Mime.folder) as [Hf|Hf].
  - destruct rejected as [m|]; [discriminate|].
    assert (Hst1 : Forall Listed (allFiles (enterFolder st item (folderPathOf path item))))
      by exact Hst.
    revert H Hst1. generalize (enterFolder st item (folderPathOf path item)).
    generalize pageSize. clear Hst.
    induction IH as [|c children Hc _ IHl]; intros k s H Hs.
    + destruct k; injection H as <-; exact Hs.
    + destruct k as [|k]; [injection H as <-; exact Hs|]. cbn [scanItems] in H.
      destruct (scanItem (folderPathOf path item) c s) as [s'|m] eqn:E; [|discriminate].
      apply (IHl k s' H). apply (Hc _ _ _ E Hs).
  - injection H as <-. cbn [pushFile allFiles]. apply Forall_app. split; [exact Hst|].
    constructor; [|constructor]. split; [exact Hf | apply filePathOf_nonempty].
Qed.

Lemma scanItems_listed path : forall k l st st',
  scanItems path k l st = Ok st' ->
  Forall Listed (allFiles st) -> Forall Listed (allFiles st').
Proof.
  induction k as [|k IH]; intros l st st' H Hst.
  - destruct l; injection H as <-; exact Hst.
  - destruct l as [|c l]; [injection H as <-; exact Hst|]. cbn [scanItems] in H.
    destruct (scanItem path c st) as [s'|m] eqn:E; [|discriminate].
    apply (IH l s' st' H). apply (scanItem_listed _ _ _ _ E Hst).
Qed.

Lemma scanItems_files path : forall k l st,
  forallb isFile l = true ->
  scanItems path k l st
  = Ok (mkScan (allFiles st
                ++ map (fun n => withPath (itemOf n) (filePathOf path)) (firstn k l))
               (folderTree st)).
Proof.
  induction k as [|k IH]; intros l st Hl.
  - destruct l, st; cbn; now rewrite app_nil_r.
  - destruct l as [|c l].
    + destruct st; cbn; now rewrite app_nil_r.
    + cbn [forallb] in Hl. apply andb_true_iff in Hl. destruct Hl as [Hc Hl].
      cbn [scanItems firstn map]. destruct c as [item rejected children].
      rewrite scanItem_unfold. unfold isFile in Hc. cbn [itemOf] in Hc |- *.
      apply negb_true_iff in Hc. rewrite Hc. rewrite (IH l _ Hl).
      cbn [pushFile allFiles folderTree]. now rewrite <- app_assoc.
Qed.

(** What the scan hands on.  No folder is ever in the result, and every item
    of the result has a path.  The items directly in the root folder get the
    path [Root]; the items of a folder get the names of the folders above
    them joined by [/], and again [Root] when that is the empty string. *)
Theorem scanGoogleDrive_lists_files_with_paths (children : list DriveNode) :
  (forall files, scanGoogleDrive None children = Ok files ->
     Forall (fun f => file_mimeType f <> Mime.folder /\ file_path f <> EmptyString) files)
  /\ (forallb isFile children = true ->
      scanGoogleDrive None children
      = Ok (map (fun n => withPath (itemOf n) "Root") (firstn 1000 children)))
  /\ (forall path item st,
        file_mimeType item = Mime.folder ->
        forallb isFile children = true ->
        exists st',
          scanItem path (Node item None children) st = Ok st'
          /\ allFiles st'
             = allFiles st
               ++ map (fun n => withPath (itemOf n) (filePathOf (folderPathOf path item)))
                      (firstn 1000 children)
          /\ JsMap.get (folderTree st') (file_id item)
             = Some (mkFolderInfo (file_id item) (file_name item) (folderPathOf path item))).
Proof.
  split; [|split].
  - intros files H. unfold scanGoogleDrive in H.
    destruct (scanItems EmptyString pageSize children (mkScan [] [])) as [st'|m] eqn:E;
      [|discriminate].
    injection H as <-. apply (scanItems_listed _ _ _ _ _ E). constructor.
  - intros Hfiles. unfold scanGoogleDrive.
    rewrite (scanItems_files EmptyString pageSize children _ Hfiles). reflexivity.
  - intros path item st Hfolder Hfiles. rewrite scanItem_unfold, Hfolder.
    cbn [String.eqb]. rewrite String.eqb_refl.
    rewrite (scanItems_files _ pageSize children _ Hfiles).
    eexists. split; [reflexivity|]. cbn [allFiles folderTree enterFolder]. split; [reflexivity|].
    rewrite get_set, String.eqb_refl. reflexivity.
Qed.

End ScanFacts.

Lemma scanGoogleDrive_reads_first_page_only_witness :
  Scan.scanGoogleDrive None (repeat SampleDrive.atRoot 1001)
  = Scan.scanGoogleDrive None (repeat SampleDrive.atRoot 1000).
Proof.
  etransitivity;
    [apply (proj1 (scanGoogleDrive_reads_first_page_only None
                     (repeat SampleDrive.atRoot 1001)))|].
  reflexivity.
Defined.

Lemma scanGoogleDrive_lists_files_with_paths_witness :
  exists st',
    Scan.scanItem EmptyString SampleDrive.deckFolder (Scan.mkScan [] []) = Ok st'
    /\ Scan.allFiles st' = [Scan.withPath Sample.deck "Decks"]
    /\ JsMap.get (Scan.folderTree st') "F1" = Some (Scan.mkFolderInfo "F1" "Decks" "Decks").
Proof.
  exact (proj2 (proj2 (scanGoogleDrive_lists_files_with_paths
                         [Scan.Node Sample.deck None []]))
               EmptyString SampleDrive.decks (Scan.mkScan [] []) eq_refl eq_refl).
Defined.

(** ** Literal patterns and the filter stage *)

Section RegexFacts.
Import Regex.

Lemma rmatch_Cat {A} ci r1 r2 prev s (k : option ascii -> string -> option A) :
  rmatch ci (Cat r1 r2) prev s k
  = rmatch ci r1 prev s (fun prev' s' => rmatch ci r2 prev' s' k).
Proof. reflexivity. Qed.

Lemma rmatch_Star_skip {A} ci r prev s (k : option ascii -> string -> option A) :
  k prev s <> None -> rmatch ci (Star r) prev s k <> None.
Proof.
  intros Hk. cbn [rmatch]. destruct (String.length s) as [|n]; [exact Hk|].
  match goal with |- match ?X with _ => _ end <> None => destruct X end;
    [discriminate | exact Hk].
Qed.

Lemma rmatch_Star_class {A} ci p prev d rest (k : option ascii -> string -> option A) :
  p d = true -> k (Some d) rest <> None ->
  rmatch ci (Star (Class p)) prev (String d rest) k <> None.
Proof.
  intros Hp Hk. cbn [rmatch String.length]. rewrite Hp.
  replace (String.length rest <? S (String.length rest))%nat with true
    by (symmetry; apply Nat.ltb_lt; lia).
  match goal with |- match ?X with _ => _ end <> None => assert (HX : X <> None) end.
  { destruct (String.length rest) as [|n]; [exact Hk|].
    match goal with |- match ?X with _ => _ end <> None => destruct X end;
      [discriminate | exact Hk]. }
  match goal with |- match ?X with _ => _ end <> None => destruct X end;
    [discriminate | congruence].
Qed.

(** Matching a literal is comparing it with the head of the input. *)
Lemma rmatch_Str {A} ci (p : string) : forall prev s (k : option ascii -> string -> option A),
  rmatch ci (Str p) prev s k
  = if startsWith ci p s
    then k (fst (afterLit p prev s)) (snd (afterLit p prev s))
    else None.
Proof.
  induction p as [|c p IH]; intros prev s k; [reflexivity|].
  destruct p as [|c2 p].
  - cbn [Str rmatch startsWith afterLit]. destruct s as [|d s]; [reflexivity|].
    rewrite andb_true_r. destruct s; reflexivity.
  - change (Str (String c (String c2 p))) with (Cat (Lit c) (Str (String c2 p))).
    rewrite rmatch_Cat. destruct s as [|d s]; [reflexivity|].
    cbn [rmatch]. cbn [startsWith afterLit] in *.
    destruct (litMatches ci c d); [|reflexivity]. cbn [andb]. apply IH.
Qed.

Lemma startsWith_app ci (p q : string) : forall prev s,
  startsWith ci (p ++ q) s
  = startsWith ci p s && startsWith ci q (snd (afterLit p prev s)).
Proof.
  induction p as [|c p IH]; intros prev s; [reflexivity|].
  cbn [String.append startsWith afterLit]. destruct s as [|d s]; [reflexivity|].
  rewrite (IH (Some d) s), andb_assoc. reflexivity.
Qed.

Lemma testFrom_Str ci (p : string) : forall s prev,
  testFrom ci (Str p) prev s = containsLit ci p s.
Proof.
  induction s as [|c s IH]; intros prev; cbn [testFrom containsLit];
    unfold matchHere; rewrite rmatch_Str.
  - destruct (startsWith ci p EmptyString); reflexivity.
  - destruct (startsWith ci p (String c s)); [reflexivity|]. apply IH.
Qed.

Lemma testFrom_Bol_later ci r : forall s c, testFrom ci (Cat Bol r) (Some c) s = false.
Proof.
  induction s as [|d s IH]; intros c; cbn [testFrom]; unfold matchHere;
    rewrite rmatch_Cat; cbn [rmatch]; [reflexivity | apply IH].
Qed.

Lemma test_Bol_Str ci (p s : string) :
  test ci (Cat Bol (Str p)) s = startsWith ci p s.
Proof.
  unfold test. destruct s as [|c s]; cbn [testFrom]; unfold matchHere;
    rewrite rmatch_Cat; cbn [rmatch]; rewrite rmatch_Str.
  - destruct (startsWith ci p EmptyString); reflexivity.
  - destruct (startsWith ci p (String c s)); [reflexivity|]. apply testFrom_Bol_later.
Qed.

(** A pattern that matches wherever the literal [lit] begins is found in
    every input containing [lit]. *)
Lemma testFrom_contains ci r (lit : string) :
  (forall prev s, startsWith ci lit s = true -> matchHere ci r prev s <> None) ->
  forall s prev, containsLit ci lit s = true -> testFrom ci r prev s = true.
Proof.
  intros Hr. induction s as [|c s IH]; intros prev H; cbn [testFrom containsLit] in *.
  - rewrite orb_false_r in H. specialize (Hr prev EmptyString H).
    destruct (matchHere ci r prev EmptyString); [reflexivity | congruence].
  - destruct (startsWith ci lit (String c s)) eqn:Hs.
    + specialize (Hr prev (String c s) Hs).
      destruct (matchHere ci r prev (String c s)); [reflexivity | congruence].
    + cbn [orb] in H. destruct (matchHere ci r prev (String c s)); [reflexivity|].
      apply IH. exact H.
Qed.

Lemma startsWith_one ci c s :
  startsWith ci (String c EmptyString) s = true ->
  exists d rest, s = String d rest /\ litMatches ci c d = true.
Proof.
  destruct s as [|d rest]; cbn [startsWith]; [discriminate|].
  rewrite andb_true_r. eauto.
Qed.

Lemma space_only_matches_space d : litMatches true " " d = true -> Js.isSpace d = true.
Proof.
  destruct d as [[] [] [] [] [] [] [] []]; vm_compute; intros H;
    first [reflexivity | discriminate H].
Qed.

Lemma reCopy_at_literal prev s :
  startsWith true "(copy)" s = true -> matchHere true Names.reCopy prev s <> None.
Proof.
  intros H. change "(copy)" with ("(copy" ++ ")")%string in H.
  rewrite (startsWith_app true _ _ prev s) in H. apply andb_true_iff in H.
  destruct H as [H1 H2]. apply startsWith_one in H2. destruct H2 as (d & rest & E & Hd).
  unfold matchHere, Names.reCopy. rewrite rmatch_Cat, rmatch_Str, H1, E.
  rewrite rmatch_Cat. apply rmatch_Star_skip.
  rewrite rmatch_Cat. apply rmatch_Star_skip.
  cbn [rmatch]. rewrite Hd. discriminate.
Qed.

Lemma caseStudy_at_literal prev s :
  startsWith true "case study" s = true ->
  matchHere true (Cat (Str "case") (Cat (Star space) (Str "study"))) prev s <> None.
Proof.
  intros H. change "case study" with ("case" ++ " study")%string in H.
  rewrite (startsWith_app true _ _ prev s) in H. apply andb_true_iff in H.
  destruct H as [H1 H2].
  change " study" with (" " ++ "study")%string in H2.
  rewrite (startsWith_app true _ _ None) in H2. apply andb_true_iff in H2.
  destruct H2 as [H2 H3]. apply startsWith_one in H2. destruct H2 as (d & rest & E & Hd).
  rewrite E in H3. cbn [afterLit snd] in H3.
  unfold matchHere. rewrite rmatch_Cat, rmatch_Str, H1, E. rewrite rmatch_Cat.
  apply rmatch_Star_class; [apply space_only_matches_space; exact Hd|].
  rewrite rmatch_Str, H3. discriminate.
Qed.

End RegexFacts.

(** What [filterFiles] lets through.  A kept item is one of the input, has
    one of the four indexable Google or PDF types, and its name passes every
    name filter: it contains none of "archived", "(old)", "deprecated" and
    "(copy)" in any letter case, does not begin with "Copy of" in any letter
    case, does not contain "~$", is not "Profitero Comparison", and contains
    "case study" (in any letter case) only as part of "case study slide
    library". *)
Theorem filterFiles_kept_names (files : list DriveFile) (f : DriveFile) :
  In f (filterFiles files) ->
  In f files
  /\ In (file_mimeType f) [Mime.document; Mime.presentation; Mime.spreadsheet; Mime.pdf]
  /\ containsLit true "archived" (file_name f) = false
  /\ containsLit true "(old)" (file_name f) = false
  /\ containsLit true "deprecated" (file_name f) = false
  /\ startsWith true "Copy of" (file_name f) = false
  /\ containsLit true "(copy)" (file_name f) = false
  /\ containsLit false "~$" (file_name f) = false
  /\ file_name f <> "Profitero Comparison"
  /\ (containsLit true "case study" (file_name f) = true ->
      containsLit true "case study slide library" (file_name f) = true).
Proof.
  intros H. apply filter_In in H. destruct H as [Hin Hk].
  split; [exact Hin|]. unfold Filter.keeps in Hk.
  destruct (String.eqb (file_mimeType f) Mime.shortcut); [discriminate|].
  destruct (Filter.shouldSkipFile f) as [r|] eqn:Hs; [discriminate|].
  split.
  { unfold Filter.isIndexable in Hk. apply existsb_exists in Hk.
    destruct Hk as (m & Hm & E). apply String.eqb_eq in E. rewrite E. exact Hm. }
  unfold Filter.shouldSkipFile, Filter.nameFilters in Hs.
  cbn [Filter.firstMatching] in Hs.
  rewrite test_Bol_Str in Hs. unfold Regex.test in Hs.
  rewrite !testFrom_Str in Hs.
  destruct (containsLit true "archived" (file_name f)); [discriminate|].
  destruct (containsLit true "(old)" (file_name f)); [discriminate|].
  destruct (containsLit true "deprecated" (file_name f)); [discriminate|].
  destruct (startsWith true "Copy of" (file_name f)); [discriminate|].
  destruct (Regex.testFrom true Names.reCopy None (file_name f)) eqn:Hc; [discriminate|].
  destruct (containsLit false "~$" (file_name f)); [discriminate|].
  repeat (split; [reflexivity|]).
  split.
  { destruct (containsLit true "(copy)" (file_name f)) eqn:E; [|reflexivity].
    rewrite (testFrom_contains true Names.reCopy "(copy)"
               (fun prev s => reCopy_at_literal prev s) _ None E) in Hc.
    discriminate. }
  split; [reflexivity|].
  destruct (String.eqb (file_name f) "Profitero Comparison") eqn:Hp.
  - destruct (_ && _) in Hs; discriminate.
  - split; [intros E; rewrite E in Hp; discriminate Hp|].
    intros E.
    rewrite (testFrom_contains true _ "case study"
               (fun prev s => caseStudy_at_literal prev s) _ None E) in Hs.
    destruct (containsLit true "case study slide library" (file_name f));
      [reflexivity | discriminate].
Qed.

Lemma filterFiles_kept_names_witness :
  In Sample.guide (filterFiles [Sample.reportPptx; Sample.guide])
  /\ containsLit true "archived" (file_name Sample.guide) = false.
Proof.
  assert (H : In Sample.guide (filterFiles [Sample.reportPptx; Sample.guide]))
    by (vm_compute; left; reflexivity).
  split; [exact H|].
  exact (proj1 (proj2 (proj2 (filterFiles_kept_names _ _ H)))).
Defined.

(** ** The first scanner: exclusion by name and the listing *)

Section LegacyFacts.
Import Regex.
Import Scan.
Import Legacy.

(** A pattern that matches exactly where the literal [lit] begins. *)
Lemma testFrom_exactly ci r (lit : string) :
  (forall prev s, matchHere ci r prev s <> None <-> startsWith ci lit s = true) ->
  forall s prev, testFrom ci r prev s = containsLit ci lit s.
Proof.
  intros Hr. induction s as [|c s IH]; intros prev; cbn [testFrom containsLit].
  - specialize (Hr prev EmptyString).
    destruct (matchHere ci r prev EmptyString), (startsWith ci lit EmptyString);
      try reflexivity.
    + destruct Hr as [Hr _]. discriminate Hr. discriminate.
    + destruct Hr as [_ Hr]. exfalso. apply Hr; reflexivity.
  - specialize (Hr prev (String c s)).
    destruct (matchHere ci r prev (String c s)), (startsWith ci lit (String c s)).
    + reflexivity.
    + destruct Hr as [Hr _]. discriminate Hr. discriminate.
    + destruct Hr as [_ Hr]. exfalso. apply Hr; reflexivity.
    + apply IH.
Qed.

(** A pattern that matches only where [lit] begins, or one character
    before. *)
Lemma testFrom_within ci r (lit : string) :
  (forall prev s, matchHere ci r prev s <> None -> containsLit ci lit s = true) ->
  forall s prev, testFrom ci r prev s = true -> containsLit ci lit s = true.
Proof.
  intros Hr. induction s as [|c s IH]; intros prev; cbn [testFrom].
  - destruct (matchHere ci r prev EmptyString) eqn:E; [|discriminate].
    intros _. apply (Hr prev). rewrite E. discriminate.
  - destruct (matchHere ci r prev (String c s)) eqn:E.
    + intros _. apply (Hr prev). rewrite E. discriminate.
    + intros H. cbn [containsLit]. rewrite (IH _ H). apply orb_true_r.
Qed.

Lemma archived_here {A} prev s (k : option ascii -> string -> option A) :
  rmatch true archived prev s k <> None -> startsWith true "archive" s = true.
Proof.
  unfold archived. rewrite rmatch_Cat, rmatch_Str.
  destruct (startsWith true "archive" s); [reflexivity | congruence].
Qed.

Lemma archived_matches prev s :
  matchHere true archived prev s <> None <-> startsWith true "archive" s = true.
Proof.
  split; [apply archived_here|]. intros H.
  unfold matchHere, archived. rewrite rmatch_Cat, rmatch_Str, H.
  unfold Opt. cbn [rmatch].
  match goal with |- match ?X with _ => _ end <> None => destruct X end; discriminate.
Qed.

Lemma startsWith_contains ci lit s : startsWith ci lit s = true -> containsLit ci lit s = true.
Proof. intros H. destruct s; cbn [containsLit]; rewrite H; reflexivity. Qed.

Lemma after_one_contains {A} (first : regex) prev s (k : option ascii -> string -> option A) :
  (first = Lit "[" \/ first = Lit "_" \/ first = Class isSeparator) ->
  rmatch true (Cat first archived) prev s k <> None ->
  containsLit true "archive" s = true.
Proof.
  intros Hf H. rewrite rmatch_Cat in H.
  destruct s as [|c t]; [destruct Hf as [->|[->| ->]]; cbn [rmatch] in H; congruence|].
  assert (Ht : rmatch true archived (Some c) t k <> None).
  { destruct Hf as [->|[->| ->]]; cbn [rmatch] in H;
      match type of H with (if ?b then _ else _) <> None => destruct b end;
      solve [exact H | congruence]. }
  apply archived_here in Ht. cbn [containsLit].
  rewrite (startsWith_contains _ _ _ Ht). apply orb_true_r.
Qed.

Lemma bracketed_contains (first last : ascii) prev s :
  (first = "[" \/ first = "_")%char ->
  matchHere true (Cat (Lit first) (Cat archived (Lit last))) prev s <> None ->
  containsLit true "archive" s = true.
Proof.
  intros Hf H. unfold matchHere in H. rewrite rmatch_Cat in H.
  destruct s as [|c t]; [cbn [rmatch] in H; congruence|].
  cbn [rmatch] in H. destruct (litMatches true first c); [|congruence].
  change (rmatch true (Cat archived (Lit last)) (Some c) t
            (fun p rest => Some (p, rest)) <> None) in H.
  rewrite rmatch_Cat in H. apply archived_here in H. cbn [containsLit].
  rewrite (startsWith_contains _ _ _ H). apply orb_true_r.
Qed.

(** [shouldExclude] is a test for four words.  A name is excluded exactly
    when it contains "archive", "old", "deprecated" or "backup", in any
    letter case and anywhere, also inside a longer word; the four patterns
    with brackets, underscores and hyphens exclude nothing that [archived?]
    does not. *)
Theorem shouldExclude_is_a_four_word_test (name : string) :
  shouldExclude name
  = containsLit true "archive" name || containsLit true "old" name
    || containsLit true "deprecated" name || containsLit true "backup" name.
Proof.
  unfold shouldExclude, excludePatterns. cbn [existsb]. unfold test.
  rewrite !testFrom_Str.
  rewrite (testFrom_exactly true archived "archive" archived_matches).
  destruct (containsLit true "archive" name) eqn:Ha; [reflexivity|].
  cbn [orb].
  assert (H4 : testFrom true (Cat (Lit "[") (Cat archived (Lit "]"))) None name = false).
  { match goal with |- ?X = false => destruct X eqn:E end; [|reflexivity].
    apply (testFrom_within true _ "archive") in E; [congruence|].
    intros prev s. apply bracketed_contains. now left. }
  assert (H5 : testFrom true (Cat (Lit "_") (Cat archived (Lit "_"))) None name = false).
  { match goal with |- ?X = false => destruct X eqn:E end; [|reflexivity].
    apply (testFrom_within true _ "archive") in E; [congruence|].
    intros prev s. apply bracketed_contains. now right. }
  assert (H6 : testFrom true (Cat archived (Class isSeparator)) None name = false).
  { match goal with |- ?X = false => destruct X eqn:E end; [|reflexivity].
    apply (testFrom_within true _ "archive") in E; [congruence|].
    intros prev s H. unfold matchHere in H. rewrite rmatch_Cat in H.
    apply archived_here in H. apply startsWith_contains. exact H. }
  assert (H7 : testFrom true (Cat (Class isSeparator) archived) None name = false).
  { match goal with |- ?X = false => destruct X eqn:E end; [|reflexivity].
    apply (testFrom_within true _ "archive") in E; [congruence|].
    intros prev s. apply after_one_contains. now right; right. }
  rewrite H4, H5, H6, H7. cbn [orb]. rewrite orb_false_r.
  destruct (containsLit true "old" name), (containsLit true "deprecated" name); reflexivity.
Qed.

Variable pathJoin : string -> string -> string.

Lemma visit_unfold this parentPath file rejected children acc :
  visit pathJoin this parentPath (Node file rejected children) acc
  = if negb this then Throw typeError
    else if shouldExclude (file_name file) then Ok acc
    else if String.eqb (file_mimeType file) Mime.folder then
      match rejected with
      | Some m => Throw m
      | None => visitAll pathJoin false (pathJoin parentPath (file_name file))
                         pageSize children acc
      end
    else Ok (acc ++ [listedOf file (pathJoin parentPath (file_name file))]).
Proof.
  cbn [visit]. destruct (negb this); [reflexivity|].
  destruct (shouldExclude (file_name file)); [reflexivity|].
  destruct (String.eqb _ _); [|reflexivity]. destruct rejected; [reflexivity|].
  generalize pageSize. intros k. revert k acc.
  induction children as [|d l IH]; intros k acc; destruct k; try reflexivity.
  cbn [visitAll]. destruct (visit pathJoin false _ d acc); [apply IH | reflexivity].
Qed.

(** Below the root every turn fails at [this.shouldExclude]. *)
Lemma visit_without_this parentPath c acc :
  visit pathJoin false parentPath c acc = Throw typeError.
Proof. destruct c. rewrite visit_unfold. reflexivity. Qed.

Lemma visit_root parentPath c acc :
  visit pathJoin true parentPath c acc
  = if shouldExclude (file_name (itemOf c)) then Ok acc
    else if isFile c
         then Ok (acc ++ [listedOf (itemOf c) (pathJoin parentPath (file_name (itemOf c)))])
         else if isEmptyFolder c then Ok acc
              else Throw (match c with
                          | Node _ (Some m) _ => m
                          | _ => typeError
                          end).
Proof.
  destruct c as [file rejected children]. rewrite visit_unfold.
  unfold isFile, isEmptyFolder. cbn [negb itemOf].
  destruct (shouldExclude (file_name file)); [reflexivity|].
  destruct (String.eqb (file_mimeType file) Mime.folder); cbn [negb]; [|reflexivity].
  destruct rejected; [reflexivity|].
  destruct children as [|d l]; [reflexivity|].
  unfold pageSize. cbn [visitAll]. rewrite visit_without_this. reflexivity.
Qed.

Lemma visitAll_root parentPath : forall l k acc,
  (forallb (fun c => isFile c || isEmptyFolder c)
           (filter (fun c => negb (shouldExclude (file_name (itemOf c)))) (firstn k l)) = true ->
   visitAll pathJoin true parentPath k l acc
   = Ok (acc ++ map (fun c => listedOf (itemOf c)
                                       (pathJoin parentPath (file_name (itemOf c))))
                    (filter isFile
                       (filter (fun c => negb (shouldExclude (file_name (itemOf c))))
                               (firstn k l)))))
  /\ (forallb (fun c => isFile c || isEmptyFolder c)
              (filter (fun c => negb (shouldExclude (file_name (itemOf c)))) (firstn k l))
      = false ->
      exists m, visitAll pathJoin true parentPath k l acc = Throw m).
Proof.
  induction l as [|c l IH]; intros k acc.
  - destruct k; cbn; rewrite app_nil_r; split; [reflexivity | discriminate
                                                | reflexivity | discriminate].
  - destruct k as [|k].
    { cbn. rewrite app_nil_r. split; [reflexivity | discriminate]. }
    cbn [firstn filter visitAll]. rewrite visit_root.
    destruct (shouldExclude (file_name (itemOf c))); cbn [negb]; [apply IH|].
    cbn [forallb filter].
    destruct (isFile c); cbn [orb andb].
    + destruct (IH k (acc ++ [listedOf (itemOf c)
                                       (pathJoin parentPath (file_name (itemOf c)))]))
        as [H1 H2].
      split; [|exact H2]. intros H. rewrite (H1 H). cbn [map].
      now rewrite <- app_assoc.
    + destruct (isEmptyFolder c); cbn [andb].
      * apply IH.
      * split; [discriminate|]. intros _. eexists. reflexivity.
Qed.

(** [listFiles] never gets below the folder it is given.  It returns the
    files that are directly in that folder (on the first page of its listing,
    names not excluded), each with the joined path of its own name and a view
    link made from its id, and it does so only when every folder seen there
    is answered with an empty listing; otherwise it rejects: with the message
    of a rejected listing, or with the [TypeError] of the first item found
    inside a folder. *)
Theorem listFiles_stays_in_the_root_folder (children : list DriveNode) :
  let entries := map (rootEntry pathJoin) (filter isFile (seen children)) in
  (forall files, listFiles pathJoin None children = Ok files ->
     files = entries
     /\ Forall (fun c => isFile c = true \/ isEmptyFolder c = true) (seen children))
  /\ (Forall (fun c => isFile c = true \/ isEmptyFolder c = true) (seen children) ->
      listFiles pathJoin None children = Ok entries)
  /\ (forall file item inside,
        In (Node file None (item :: inside)) (seen children) ->
        file_mimeType file = Mime.folder ->
        exists m, listFiles pathJoin None children = Throw m)
  /\ (forall m, listFiles pathJoin (Some m) children = Throw m).
Proof.
  intros entries. unfold listFiles, entries, seen, rootEntry.
  destruct (visitAll_root EmptyString children pageSize []) as [Hok Hbad].
  cbn [app] in Hok.
  set (kept := filter (fun c => negb (shouldExclude (file_name (itemOf c))))
                      (firstn pageSize children)) in *.
  assert (Hall : forallb (fun c => isFile c || isEmptyFolder c) kept = true
                 <-> Forall (fun c => isFile c = true \/ isEmptyFolder c = true) kept).
  { rewrite forallb_forall, Forall_forall.
    split; intros H c Hc; specialize (H c Hc);
      [apply orb_true_iff in H | apply orb_true_iff]; exact H. }
  split; [|split; [|split]].
  - intros files H.
    destruct (forallb (fun c => isFile c || isEmptyFolder c) kept) eqn:E.
    + rewrite (Hok eq_refl) in H. injection H as <-. split; [reflexivity|].
      apply Hall. reflexivity.
    + destruct (Hbad eq_refl) as [m Hm]. rewrite Hm in H. discriminate.
  - intros H. apply Hok. apply Hall. exact H.
  - intros file item inside Hin Hfolder. apply Hbad.
    destruct (forallb (fun c => isFile c || isEmptyFolder c) kept) eqn:E; [|reflexivity].
    rewrite forallb_forall in E. specialize (E _ Hin).
    unfold isFile, isEmptyFolder in E. cbn [itemOf] in E.
    rewrite Hfolder, String.eqb_refl in E. discriminate E.
  - reflexivity.
Qed.

End LegacyFacts.

Lemma listFiles_stays_in_the_root_folder_witness :
  (exists m, Legacy.listFiles SampleDrive.join None
               [SampleDrive.atRoot; SampleDrive.deckFolder] = Throw m)
  /\ Legacy.listFiles SampleDrive.join None [SampleDrive.atRoot; SampleDrive.archive]
     = Ok [Legacy.mkListedFile "good" "Launch Plan" Mime.document (Sample.day 20015)
                               "Launch Plan" "https://drive.google.com/file/d/good/view"].
Proof.
  split.
  - apply (proj1 (proj2 (proj2 (listFiles_stays_in_the_root_folder SampleDrive.join
                                  [SampleDrive.atRoot; SampleDrive.deckFolder])))
                 SampleDrive.decks (Scan.Node Sample.deck None []) []).
    + vm_compute. right. left. reflexivity.
    + reflexivity.
  - etransitivity;
      [apply (proj1 (proj2 (listFiles_stays_in_the_root_folder SampleDrive.join
                              [SampleDrive.atRoot; SampleDrive.archive])))|].
    + vm_compute. constructor; [left; reflexivity | constructor].
    + vm_compute. reflexivity.
Defined.

(** ** A rejected deletion in the MODIFIED loop *)

Lemma reindexModified_app (env : Collaborators) (now : Z) (before rest : list ModifiedEntry) :
  forall (acc : LoopAcc) (w : World) (accB : LoopAcc) (wB : World),
  reindexModified env now before acc w = (Ok accB, wB) ->
  reindexModified env now (before ++ rest) acc w = reindexModified env now rest accB wB.
Proof.
  induction before as [|e before IH]; intros acc w accB wB H.
  - cbn [reindexModified] in H. injection H as <- <-. reflexivity.
  - cbn [app reindexModified] in H |- *.
    destruct (deleteFileVectors env (file_id (mod_file e)) w) as [[n|m] w1];
      [|discriminate].
    destruct (indexFile env now (mod_file e) w1) as [r w2].
    apply IH. exact H.
Qed.

Lemma reindexModified_rejected_delete (env : Collaborators) (now : Z)
    (before : list ModifiedEntry) (entry : ModifiedEntry) (rest : list ModifiedEntry)
    (acc : LoopAcc) (w : World) (accB : LoopAcc) (wB : World) :
  reindexModified env now before acc w = (Ok accB, wB) ->
  query (fileIdEq (file_id (mod_file entry))) (index wB) <> [] ->
  deleteManyThrows env (map vid (query (fileIdEq (file_id (mod_file entry))) (index wB)))
  = true ->
  reindexModified env now (before ++ entry :: rest) acc w
  = (Throw "deleteMany failed",
     mkWorld (index wB) (nextUuid wB)
             (ops wB ++ [OpDeleteMany
                           (map vid (query (fileIdEq (file_id (mod_file entry)))
                                           (index wB)))])).
Proof.
  intros Hb Hold Hrej.
  rewrite (reindexModified_app env now before (entry :: rest) acc w accB wB Hb).
  cbn [reindexModified]. unfold deleteFileVectors.
  destruct (query (fileIdEq (file_id (mod_file entry))) (index wB)) as [|x found];
    [congruence|].
  rewrite Hrej. reflexivity.
Qed.

(** [deleteFileVectors] is called outside of any [try]: when the index
    rejects the deletion of the old vectors of a MODIFIED item, [run] is
    rejected at once.  The NEW items and the MODIFIED items before it have
    been processed; for the item itself and for those after it nothing is
    attempted and nothing is recorded, the index is as the items before left
    it (the old vectors of the item included), the log ends with the
    rejected call, and the process exits with code 1. *)
Theorem rejected_delete_aborts_the_run
    (env : Collaborators) (now : Z) (allFiles : list DriveFile) (w0 : World)
    (ch : Changes) (before : list ModifiedEntry) (entry : ModifiedEntry)
    (rest : list ModifiedEntry) (accNew accB : LoopAcc) (w wB : World) :
  classifyChanges (detectDuplicates (filterFiles allFiles))
                  (loadPineconeState (index w0)) now = Ok ch ->
  modifiedFiles ch = before ++ entry :: rest ->
  indexNew env now (newFiles ch) (mkAcc 0 0 []) w0 = (accNew, w) ->
  reindexModified env now before (mkAcc 0 0 []) w = (Ok accB, wB) ->
  let old := query (fileIdEq (file_id (mod_file entry))) (index wB) in
  old <> [] ->
  deleteManyThrows env (map vid old) = true ->
  run env now allFiles w0
  = (Throw "deleteMany failed",
     mkWorld (index wB) (nextUuid wB) (ops wB ++ [OpDeleteMany (map vid old)]))
  /\ processExitCode (fst (run env now allFiles w0)) = 1%Z
  /\ map fst (acc_attempts accB) = map mod_file before.
Proof.
  intros Hch Hmod Hnew Hb old Hold Hrej.
  assert (Hrun : run env now allFiles w0
                 = (Throw "deleteMany failed",
                    mkWorld (index wB) (nextUuid wB)
                            (ops wB ++ [OpDeleteMany (map vid old)]))).
  { unfold run. rewrite Hch, Hnew, Hmod.
    rewrite (reindexModified_rejected_delete env now before entry rest _ _ _ _
               Hb Hold Hrej).
    reflexivity. }
  split; [exact Hrun|]. split; [rewrite Hrun; reflexivity|].
  destruct (reindexModified_attempts env now _ _ _ _ _ Hb eq_refl (Forall_nil _))
    as (_ & Hatt & _).
  exact Hatt.
Qed.

Lemma rejected_delete_aborts_the_run_witness :
  fst (run SampleAbort.readOnly Sample.someNow [Sample.guide]
           (Sample.world [Sample.guideVec]))
  = Throw "deleteMany failed"
  /\ index (snd (run SampleAbort.readOnly Sample.someNow [Sample.guide]
                     (Sample.world [Sample.guideVec])))
     = [Sample.guideVec].
Proof.
  destruct (rejected_delete_aborts_the_run SampleAbort.readOnly Sample.someNow
              [Sample.guide] (Sample.world [Sample.guideVec])
              (Sample.changesOf
                 (classifyChanges (detectDuplicates (filterFiles [Sample.guide]))
                    (loadPineconeState [Sample.guideVec]) Sample.someNow))
              []
              (mkModified Sample.guide
                 (computeSignals Sample.guide
                    (newPineconeData (metadata Sample.guideVec) (Some "G") true))
                 (newPineconeData (metadata Sample.guideVec) (Some "G") true) false)
              [] (mkAcc 0 0 []) (mkAcc 0 0 [])
              (Sample.world [Sample.guideVec]) (Sample.world [Sample.guideVec]))
    as (Hrun & _).
  - vm_compute. reflexivity.
  - vm_compute. reflexivity.
  - vm_compute. reflexivity.
  - reflexivity.
  - vm_compute. discriminate.
  - reflexivity.
  - rewrite Hrun. split; reflexivity.
Defined.

